(** * GAANBOT: queue, playback state, result cache and voice reconnection

    A shallow embedding of the playback core of the bot
    ([utils/queue.py], [utils/player.py], [utils/cache_manager.py],
    [utils/voice.py]) together with the properties its specification
    states about it, and of the code around it ([utils/spotify.py] and
    the commands of [commands/queue.py], [commands/navigation_commands.py],
    [commands/playback_commands.py], [commands/statistics.py]) with
    further properties read off the sources.

    Conventions of the embedding.
    - Guild ids, list indices and every other Python [int] are [Z].
    - A reading of [time.time()] is a [Z] (ticks of the wall clock, exact
      arithmetic: the sources add, subtract and compare readings); every
      function that reads the clock receives the value of each reading as
      an argument, in the order the source reads them.
    - Coroutines run one at a time: an [await] is a call whose result the
      environment supplies.
    - A per-guild [dict] is a [gmap Z _]; the cache's [dict], whose
      iteration order matters to [sorted], is an insertion-ordered
      association list.
    - A Python call that may raise returns an [outcome]; mutation is
      explicit state passing.
    - A list that is shared between its holders (the tracks of a Spotify
      link, cached and consumed) lives in a store under its address. *)

From Stdlib Require Import ZArith Lia Bool String Ascii.
From stdpp Require Import base option list sorting gmap strings fin_maps pretty.

#[local] Open Scope Z_scope.

(** ** Python values shared by the modules *)

(** The two layers of Python's exception hierarchy the sources tell apart:
    [except Exception] catches an [Exception] and lets
    [asyncio.CancelledError] (a [BaseException]) through. *)
Inductive BaseException : Type :=
| Exception (what : string)
| CancelledError.

Inductive outcome (A : Type) : Type :=
| Returned (a : A)
| Raised (e : BaseException).
Arguments Returned {A} a.
Arguments Raised {A} e.

Definition isinstance_Exception (e : BaseException) : bool :=
  match e with Exception _ => true | CancelledError => false end.

(** [nextcord.Member], [nextcord.VoiceClient], [nextcord.TextChannel] and
    [nextcord.VoiceChannel] are handles of the chat platform; the model
    keeps their identity only. *)
Record Member := { member_id : Z }.
Record VoiceClient := { voice_client_id : Z }.
Record TextChannel := { text_channel_id : Z }.
Record VoiceChannel := { voice_channel_id : Z }.

(** The dict built by [PlayerState._extract_song_info_impl]; a queue entry
    added from a catalog carries a [search_query] and no [url] yet. *)
Record SongInfo := {
  url : option string;
  title : string;
  duration : Z;
  thumbnail : option string;
  webpage_url : string;
  uploader : string;
  search_query : option string
}.

(** [nextcord.Embed], as far as the sources fill it in. *)
Inductive Color : Type := Blue | Green | Red | Gold | Purple | Rgb (r g b : Z).

Record Field := { field_name : string; field_value : string; inline : bool }.

Record Embed := {
  embed_title : string;
  embed_description : option string;
  embed_color : Color;
  embed_fields : list Field;
  embed_footer : option string;
  embed_thumbnail : option string
}.

(** The line feed of Python's ["\n"]. *)
Definition nl : string := String (ascii_of_nat 10) EmptyString.

Ltac no_branch t :=
  lazymatch t with
  | context [if _ then _ else _] => fail
  | _ => idtac
  end.

(** Case analysis on every integer comparison of the goal, innermost
    first, closing the branches that contradict the hypotheses. *)
Ltac zcases :=
  repeat match goal with
    | |- context [?a <? ?b] =>
        no_branch a; no_branch b; destruct (Z.ltb_spec a b); try lia
    | |- context [?a <=? ?b] =>
        no_branch a; no_branch b; destruct (Z.leb_spec a b); try lia
    | |- context [?a =? ?b] =>
        no_branch a; no_branch b; destruct (Z.eqb_spec a b); try lia
    end;
  simpl.

(** ** Python list primitives *)

Module PyList.
Section Ops.
Context {A : Type}.

(** [list.pop(index)]: a negative index counts from the end;
    [None] stands for [IndexError]. *)
Definition pop (l : list A) (index : Z) : option (A * list A) :=
  let n := Z.of_nat (length l) in
  let i := if index <? 0 then index + n else index in
  if (i <? 0) || (n <=? i) then None
  else match l !! Z.to_nat i with
       | Some x => Some (x, delete (Z.to_nat i) l)
       | None => None
       end.

(** [list.insert(index, x)]: a negative index counts from the end, and
    the position is clamped to [0 .. len]. *)
Definition insert (l : list A) (index : Z) (x : A) : list A :=
  let n := Z.of_nat (length l) in
  let i := if index <? 0 then index + n else index in
  let i := if i <? 0 then 0 else i in
  let i := if n <? i then n else i in
  take (Z.to_nat i) l ++ x :: drop (Z.to_nat i) l.

(** [l[start:stop]]: a negative bound counts from the end, and both are
    clamped to [0 .. len]. *)
Definition slice (l : list A) (start stop : Z) : list A :=
  let n := Z.of_nat (length l) in
  let clamp i := if i <? 0 then Z.max 0 (i + n) else Z.min i n in
  let s := clamp start in
  let e := clamp stop in
  take (Z.to_nat (e - s)) (drop (Z.to_nat s) l).

(** [enumerate(l, start=start)] *)
Fixpoint enumerate (l : list A) (start : Z) : list (Z * A) :=
  match l with
  | [] => []
  | x :: l' => (start, x) :: enumerate l' (start + 1)
  end.

End Ops.
End PyList.

(** ** utils/queue.py *)

Module Queue.

Record QueueEntry := { song_info : SongInfo; requester : Member }.

(** [self.queues] is a [defaultdict(list)]: reading a missing guild
    stores an empty list under it. *)
Record QueueManager := {
  queues : gmap Z (list QueueEntry);
  max_queue_size : Z
}.

Definition init : QueueManager :=
  {| queues := ∅; max_queue_size := 500 |}.

(** The guild's queue as an observer sees it, without the defaulting
    side effect. *)
Definition queue_of (qm : QueueManager) (guild_id : Z) : list QueueEntry :=
  default [] (queues qm !! guild_id).

Definition set_queue (qm : QueueManager) (guild_id : Z)
    (q : list QueueEntry) : QueueManager :=
  {| queues := <[guild_id := q]> (queues qm);
     max_queue_size := max_queue_size qm |}.

(** [self.queues[guild_id]] *)
Definition getitem (qm : QueueManager) (guild_id : Z)
    : list QueueEntry * QueueManager :=
  (queue_of qm guild_id, set_queue qm guild_id (queue_of qm guild_id)).

Definition add_song (qm : QueueManager) (guild_id : Z)
    (info : SongInfo) (who : Member) : bool * QueueManager :=
  let '(q, qm) := getitem qm guild_id in
  if max_queue_size qm <=? Z.of_nat (length q) then (false, qm)
  else
    let '(q, qm) := getitem qm guild_id in
    (true, set_queue qm guild_id
             (q ++ [ {| song_info := info; requester := who |} ])).

Definition pop_song (qm : QueueManager) (guild_id : Z)
    : option QueueEntry * QueueManager :=
  let '(q, qm) := getitem qm guild_id in
  match q with
  | [] => (None, qm)
  | _ =>
      let '(q, qm) := getitem qm guild_id in
      match PyList.pop q 0 with
      | Some (x, q') => (Some x, set_queue qm guild_id q')
      | None => (None, qm)
      end
  end.

Definition clear_queue (qm : QueueManager) (guild_id : Z) : QueueManager :=
  let '(_, qm) := getitem qm guild_id in set_queue qm guild_id [].

Definition remove_song (qm : QueueManager) (guild_id : Z) (index : Z)
    : bool * QueueManager :=
  let '(q, qm) := getitem qm guild_id in
  match PyList.pop q index with
  | Some (_, q') => (true, set_queue qm guild_id q')
  | None => (false, qm)
  end.

Definition get_queue (qm : QueueManager) (guild_id : Z)
    : list QueueEntry * QueueManager :=
  getitem qm guild_id.

Definition get_queue_length (qm : QueueManager) (guild_id : Z)
    : Z * QueueManager :=
  let '(q, qm) := getitem qm guild_id in (Z.of_nat (length q), qm).

Definition move_song (qm : QueueManager) (guild_id : Z)
    (old_index new_index : Z) : bool * QueueManager :=
  let '(queue, qm) := getitem qm guild_id in
  let len := Z.of_nat (length queue) in
  if negb ((0 <=? old_index) && (old_index <? len)
           && (0 <=? new_index) && (new_index <? len))
  then (false, qm)
  else
    match PyList.pop queue old_index with
    | Some (song, queue') =>
        (true, set_queue qm guild_id (PyList.insert queue' new_index song))
    | None => (false, qm)
    end.

Definition is_empty (qm : QueueManager) (guild_id : Z)
    : bool * QueueManager :=
  let '(q, qm) := getitem qm guild_id in (Z.of_nat (length q) =? 0, qm).

Definition get_queue_duration (qm : QueueManager) (guild_id : Z)
    : Z * QueueManager :=
  let '(q, qm) := getitem qm guild_id in
  (foldr (fun e acc => duration (song_info e) + acc) 0 q, qm).

(** The calls a client can make on the manager, each for one guild, and
    a sequence of them run in order (results dropped). *)
Inductive Op : Type :=
| OpAdd (guild_id : Z) (info : SongInfo) (who : Member)
| OpPop (guild_id : Z)
| OpClear (guild_id : Z)
| OpRemove (guild_id : Z) (index : Z)
| OpGet (guild_id : Z)
| OpLength (guild_id : Z)
| OpMove (guild_id : Z) (old_index new_index : Z)
| OpIsEmpty (guild_id : Z)
| OpDuration (guild_id : Z).

Definition run_op (qm : QueueManager) (op : Op) : QueueManager :=
  match op with
  | OpAdd g info who => snd (add_song qm g info who)
  | OpPop g => snd (pop_song qm g)
  | OpClear g => clear_queue qm g
  | OpRemove g i => snd (remove_song qm g i)
  | OpGet g => snd (get_queue qm g)
  | OpLength g => snd (get_queue_length qm g)
  | OpMove g i j => snd (move_song qm g i j)
  | OpIsEmpty g => snd (is_empty qm g)
  | OpDuration g => snd (get_queue_duration qm g)
  end.

Definition run_ops (ops : list Op) (qm : QueueManager) : QueueManager :=
  foldl run_op qm ops.

(** The entry [add_song] builds from a song and its requester. *)
Definition as_entry (s : SongInfo * Member) : QueueEntry :=
  {| song_info := fst s; requester := snd s |}.

(** [add_song] for each song of a list, in order, and the results. *)
Fixpoint add_songs (qm : QueueManager) (guild_id : Z)
    (songs : list (SongInfo * Member)) : list bool * QueueManager :=
  match songs with
  | [] => ([], qm)
  | (info, who) :: rest =>
      let '(ok, qm) := add_song qm guild_id info who in
      let '(oks, qm) := add_songs qm guild_id rest in
      (ok :: oks, qm)
  end.

(** [pop_song] called [n] times, and the results. *)
Fixpoint pop_songs (qm : QueueManager) (guild_id : Z) (n : nat)
    : list (option QueueEntry) * QueueManager :=
  match n with
  | O => ([], qm)
  | S n' =>
      let '(x, qm) := pop_song qm guild_id in
      let '(xs, qm) := pop_songs qm guild_id n' in
      (x :: xs, qm)
  end.

(** *** The queue page *)

(** [f"{seconds // 60}:{seconds % 60:02d}"] *)
Definition minutes_seconds (seconds : Z) : string :=
  pretty (seconds / 60) +:+ ":" +:+
  (let r := seconds mod 60 in
   if (0 <=? r) && (r <? 10) then "0" +:+ pretty r else pretty r).

Section QueueEmbed.
(** [requester.mention] is the platform's. *)
Variable mention : Member -> string.

(** The locals [total_pages], [page] (after clamping) and the enumerated
    slice of [create_queue_embed]. *)
Definition total_pages (queue : list QueueEntry) (items_per_page : Z) : Z :=
  (Z.of_nat (length queue) + items_per_page - 1) / items_per_page.

Definition shown_page (queue : list QueueEntry) (page items_per_page : Z)
    : Z :=
  Z.max 1 (Z.min page (total_pages queue items_per_page)).

Definition page_items (queue : list QueueEntry) (page items_per_page : Z)
    : list (Z * QueueEntry) :=
  let page := shown_page queue page items_per_page in
  let start_idx := (page - 1) * items_per_page in
  let end_idx := start_idx + items_per_page in
  PyList.enumerate (PyList.slice queue start_idx end_idx) (start_idx + 1).

Definition queue_line (numbered : Z * QueueEntry) : string :=
  let '(idx, item) := numbered in
  "`" +:+ pretty idx +:+ ".` [" +:+ title (song_info item) +:+ "]("
    +:+ webpage_url (song_info item) +:+ ") | `"
    +:+ minutes_seconds (duration (song_info item)) +:+ "`" +:+ nl
    +:+ "┗ Requested by: " +:+ mention (requester item).

(** [items_per_page = 0] divides by zero. *)
Definition create_queue_embed (qm : QueueManager) (guild_id : Z)
    (page items_per_page : Z) : outcome Embed * QueueManager :=
  let '(queue, qm) := getitem qm guild_id in
  match queue with
  | [] =>
      (Returned {| embed_title := "Queue Empty";
                   embed_description := Some "No songs in queue";
                   embed_color := Gold; embed_fields := [];
                   embed_footer := None; embed_thumbnail := None |}, qm)
  | _ =>
      if items_per_page =? 0 then (Raised (Exception "ZeroDivisionError"), qm)
      else
        let pages := total_pages queue items_per_page in
        let queue_list := queue_line <$> page_items queue page items_per_page in
        let '(total_duration, qm) := get_queue_duration qm guild_id in
        (Returned
           {| embed_title := "Current Queue";
              embed_description :=
                Some (String.concat (nl +:+ nl) queue_list);
              embed_color := Gold;
              embed_fields :=
                [ {| field_name := "Queue Info";
                     field_value :=
                       "Songs: " +:+ pretty (Z.of_nat (length queue))
                         +:+ " | Duration: " +:+ minutes_seconds total_duration;
                     inline := false |} ];
              embed_footer :=
                if 1 <? pages then
                  Some ("Page "
                          +:+ pretty (shown_page queue page items_per_page)
                          +:+ "/" +:+ pretty pages)
                else None;
              embed_thumbnail := None |}, qm)
  end.
End QueueEmbed.

End Queue.

(** ** Python [sorted] and [dict] *)

Module PySorted.
Section Sort.
Context {A : Type}.
Variable key : A -> Z.

(** [sorted(l, key=key)] is stable: among equal keys the earlier element
    stays first.  A stable sort has one possible result, computed here by
    insertion from the right. *)
Fixpoint place (x : A) (l : list A) : list A :=
  match l with
  | [] => [x]
  | y :: l' => if key x <=? key y then x :: y :: l' else y :: place x l'
  end.

Fixpoint sorted (l : list A) : list A :=
  match l with
  | [] => []
  | x :: l' => place x (sorted l')
  end.

(** The order [sorted] produces. *)
Definition key_le (a b : A) : Prop := key a <= key b.
End Sort.

(** [sorted(kwargs.items())]: the names of keyword arguments are
    distinct, so the items come out in the order of their names. *)
Fixpoint place_str (x : string * string) (l : list (string * string))
    : list (string * string) :=
  match l with
  | [] => [x]
  | y :: l' =>
      if String.leb (fst x) (fst y) then x :: y :: l' else y :: place_str x l'
  end.

Fixpoint sorted_items (l : list (string * string)) : list (string * string) :=
  match l with
  | [] => []
  | x :: l' => place_str x (sorted_items l')
  end.

(** The order [sorted_items] produces. *)
Definition name_le (x y : string * string) : Prop := String.le (fst x) (fst y).
End PySorted.

(** A [dict] with [str] keys, as the list of its items in insertion
    order. *)
Module PyDict.
Abbreviation dict E := (list (string * E)) (only parsing).

Section Dict.
Context {E : Type}.

Fixpoint get (d : dict E) (k : string) : option E :=
  match d with
  | [] => None
  | (k', e) :: d' => if String.eqb k' k then Some e else get d' k
  end.

(** [d[k] = e]: an existing key keeps its position. *)
Fixpoint set (d : dict E) (k : string) (e : E) : dict E :=
  match d with
  | [] => [(k, e)]
  | (k', e') :: d' =>
      if String.eqb k' k then (k, e) :: d' else (k', e') :: set d' k e
  end.

(** [del d[k]] for a key that is present. *)
Definition del (d : dict E) (k : string) : dict E :=
  filter (fun kv => fst kv <> k) d.

Definition keys (d : dict E) : list string := fst <$> d.

Definition len (d : dict E) : Z := Z.of_nat (length d).
End Dict.
End PyDict.

(** ** utils/cache_manager.py *)

Module Cache.
Section Model.
(** [V]: cached values; [W]: the world the compute function acts on;
    [Arg]: argument objects, with their [str()]. *)
Context {V W Arg : Type}.
Variable str : Arg -> string.

Record CacheEntry := { value : V; expires_at : Z }.

(** [CacheEntry(value, ttl)], built when the clock reads [now]. *)
Definition CacheEntry_init (v : V) (ttl now : Z) : CacheEntry :=
  {| value := v; expires_at := now + ttl |}.

(** [entry.is_expired()] when the clock reads [now]. *)
Definition is_expired (entry : CacheEntry) (now : Z) : bool :=
  expires_at entry <? now.

(** The lock is not part of the record: the model runs one coroutine at a
    time. *)
Record AsyncLRUCache := {
  name : string;
  cache : PyDict.dict CacheEntry;
  maxsize : Z;
  ttl : Z;
  hits : Z;
  misses : Z;
  last_cleanup : Z
}.

Definition init (name : string) (maxsize ttl : Z) : AsyncLRUCache :=
  {| name := name; cache := []; maxsize := maxsize; ttl := ttl;
     hits := 0; misses := 0; last_cleanup := 0 |}.

Definition with_cache (c : AsyncLRUCache) (d : PyDict.dict CacheEntry)
    : AsyncLRUCache :=
  {| name := name c; cache := d; maxsize := maxsize c; ttl := ttl c;
     hits := hits c; misses := misses c; last_cleanup := last_cleanup c |}.

Definition with_hits (c : AsyncLRUCache) (n : Z) : AsyncLRUCache :=
  {| name := name c; cache := cache c; maxsize := maxsize c; ttl := ttl c;
     hits := n; misses := misses c; last_cleanup := last_cleanup c |}.

Definition with_misses (c : AsyncLRUCache) (n : Z) : AsyncLRUCache :=
  {| name := name c; cache := cache c; maxsize := maxsize c; ttl := ttl c;
     hits := hits c; misses := n; last_cleanup := last_cleanup c |}.

Definition with_last_cleanup (c : AsyncLRUCache) (t : Z) : AsyncLRUCache :=
  {| name := name c; cache := cache c; maxsize := maxsize c; ttl := ttl c;
     hits := hits c; misses := misses c; last_cleanup := t |}.

Definition _generate_key (func_name : string) (args : list Arg)
    (kwargs : list (string * Arg)) : string :=
  let args_str := String.concat "," (str <$> args) in
  let kwargs_str :=
    String.concat ","
      ((fun kv => fst kv +:+ "=" +:+ snd kv)
         <$> PySorted.sorted_items ((fun kv => (fst kv, str (snd kv))) <$> kwargs)) in
  func_name +:+ ":" +:+ args_str +:+ ":" +:+ kwargs_str.

(** An async function: its [__name__] and what a call does to the world. *)
Record Func := {
  func_name : string;
  call : list Arg -> list (string * Arg) -> W -> outcome V * W
}.

(** The clock readings of one [get_or_compute]: at the check before the
    lock, at the check under the lock, and when the entry is built. *)
Record Clock := { t_fast : Z; t_lock : Z; t_store : Z }.

(** [entry = self.cache.get(key)] followed by
    [if entry and not entry.is_expired()]. *)
Definition live_entry (c : AsyncLRUCache) (key : string) (now : Z)
    : option CacheEntry :=
  match PyDict.get (cache c) key with
  | Some entry => if negb (is_expired entry now) then Some entry else None
  | None => None
  end.

(** [self.cache[k].expires_at], the sort key of the trim. *)
Definition expires_of (d : PyDict.dict CacheEntry) (k : string) : Z :=
  match PyDict.get d k with
  | Some entry => expires_at entry
  | None => 0
  end.

(** The keys the trim deletes. *)
Definition oldest_keys (d : PyDict.dict CacheEntry) (maxsize : Z)
    : list string :=
  take (Z.to_nat (PyDict.len d - maxsize))
       (PySorted.sorted (expires_of d) (PyDict.keys d)).

(** "Trim the cache if it exceeds the max size". *)
Definition trim (c : AsyncLRUCache) : AsyncLRUCache :=
  if maxsize c <? PyDict.len (cache c) then
    with_cache c (foldl PyDict.del (cache c) (oldest_keys (cache c) (maxsize c)))
  else c.

Definition get_or_compute (c : AsyncLRUCache) (func : Func)
    (args : list Arg) (kwargs : list (string * Arg)) (clk : Clock) (w : W)
    : outcome V * AsyncLRUCache * W :=
  let cache_key := _generate_key (func_name func) args kwargs in
  match live_entry c cache_key (t_fast clk) with
  | Some entry => (Returned (value entry), with_hits c (hits c + 1), w)
  | None =>
      match live_entry c cache_key (t_lock clk) with
      | Some entry => (Returned (value entry), with_hits c (hits c + 1), w)
      | None =>
          let c := with_misses c (misses c + 1) in
          match call func args kwargs w with
          | (Returned result, w) =>
              let c :=
                with_cache c
                  (PyDict.set (cache c) cache_key
                     (CacheEntry_init result (ttl c) (t_store clk))) in
              (Returned result, trim c, w)
          | (Raised e, w) => (Raised e, c, w)
          end
      end
  end.

Definition invalidate (c : AsyncLRUCache) (func_name : string)
    (args : list Arg) (kwargs : list (string * Arg)) : AsyncLRUCache :=
  let cache_key := _generate_key func_name args kwargs in
  match PyDict.get (cache c) cache_key with
  | Some _ => with_cache c (PyDict.del (cache c) cache_key)
  | None => c
  end.

Definition clear (c : AsyncLRUCache) : AsyncLRUCache := with_cache c [].

(** The comprehension of [cleanup_expired] reads the clock once per item:
    [reads i] is the reading at the item in position [i]. *)
Fixpoint expired_keys (items : PyDict.dict CacheEntry) (reads : nat -> Z)
    : list string :=
  match items with
  | [] => []
  | (key, entry) :: rest =>
      let tl := expired_keys rest (fun i => reads (S i)) in
      if is_expired entry (reads 0%nat) then key :: tl else tl
  end.

Definition cleanup_expired (c : AsyncLRUCache) (reads : nat -> Z) (t_end : Z)
    : AsyncLRUCache :=
  let keys := expired_keys (cache c) reads in
  with_last_cleanup (with_cache c (foldl PyDict.del (cache c) keys)) t_end.

(** A sequence of [get_or_compute] calls, one after the other. *)
Record Call := {
  call_func : Func;
  call_args : list Arg;
  call_kwargs : list (string * Arg);
  call_clock : Clock
}.

Definition step (st : AsyncLRUCache * W) (k : Call) : AsyncLRUCache * W :=
  let '(_, c, w) :=
    get_or_compute (fst st) (call_func k) (call_args k) (call_kwargs k)
                   (call_clock k) (snd st) in
  (c, w).

Definition run_calls (calls : list Call) (st : AsyncLRUCache * W)
    : AsyncLRUCache * W :=
  foldl step st calls.

(** The keys of the dict are pairwise distinct, as in any Python dict. *)
Definition wf (c : AsyncLRUCache) : Prop := NoDup (PyDict.keys (cache c)).

(** What every call preserves: distinct keys, the configuration, and the
    size bound once it holds. *)
Definition inv (m t : Z) (c : AsyncLRUCache) : Prop :=
  wf c /\ maxsize c = m /\ ttl c = t /\ PyDict.len (cache c) <= m.

(** The entries of the dict expire no later than an entry stored at time
    [T] would. *)
Definition expires_by (T : Z) (c : AsyncLRUCache) : Prop :=
  forall k entry, (k, entry) ∈ cache c -> expires_at entry <= T + ttl c.

(** The store readings of a sequence of calls do not go back, starting
    from [T]; [end_time] is the last of them. *)
Fixpoint stores_in_order (T : Z) (calls : list Call) : Prop :=
  match calls with
  | [] => True
  | k :: rest =>
      T <= t_store (call_clock k)
      /\ stores_in_order (t_store (call_clock k)) rest
  end.

Fixpoint end_time (T : Z) (calls : list Call) : Z :=
  match calls with
  | [] => T
  | k :: rest => end_time (t_store (call_clock k)) rest
  end.

End Model.
End Cache.



(** ** utils/player.py *)

Module Player.

(** The dict [update_song] stores under [current_songs[guild_id]]; its
    ['url'] is the song's [webpage_url]. *)
Record CurrentSong := {
  cs_title : string;
  cs_duration : Z;
  cs_thumbnail : option string;
  cs_url : string;
  cs_uploader : string;
  cs_requester : Member
}.

Record PlayerState := {
  current_songs : gmap Z CurrentSong;
  voice_clients : gmap Z VoiceClient;
  song_start_times : gmap Z Z;
  pause_durations : gmap Z Z;
  last_pause_time : gmap Z Z
}.

Definition init : PlayerState :=
  {| current_songs := ∅; voice_clients := ∅; song_start_times := ∅;
     pause_durations := ∅; last_pause_time := ∅ |}.

(** *** The progress bar *)

(** The local [elapsed] of [create_progress_bar].  [paused] is what
    [voice_client.is_paused()] answers; [t_default], [t_pause] and [t_now]
    are the three clock readings, in the order of the source: the default
    of the start-time lookup, the reading inside the paused branch, and
    the reading of the final subtraction. *)
Definition elapsed (ps : PlayerState) (paused : bool) (guild_id : Z)
    (t_default t_pause t_now : Z) : Z :=
  let start_time := default t_default (song_start_times ps !! guild_id) in
  let pause_duration := default 0 (pause_durations ps !! guild_id) in
  let pause_duration :=
    match last_pause_time ps !! guild_id with
    | Some paused_at =>
        if paused then pause_duration + (t_pause - paused_at)
        else pause_duration
    | None => pause_duration
    end in
  t_now - start_time - pause_duration.

Definition bar_length : Z := 15.

(** [int(bar_length * min(elapsed / duration if duration > 0 else 0, 1.0))]
    in exact arithmetic; [int] truncates towards zero. *)
Definition filled_length (elapsed_s duration_s : Z) : Z :=
  if 0 <? duration_s then
    if duration_s <=? elapsed_s then bar_length
    else Z.quot (bar_length * elapsed_s) duration_s
  else 0.

(** [s * n] on strings: empty for [n <= 0]. *)
Fixpoint repeat_str (s : string) (n : nat) : string :=
  match n with
  | O => ""
  | S n' => s +:+ repeat_str s n'
  end.

Definition str_mul (s : string) (n : Z) : string := repeat_str s (Z.to_nat n).

(** The format [{n:02d}]. *)
Definition fmt_02d (n : Z) : string :=
  if (0 <=? n) && (n <? 10) then "0" +:+ pretty n else pretty n.

(** [f"{int(s) // 60:02d}:{int(s) % 60:02d}"] *)
Definition format_time (s : Z) : string :=
  fmt_02d (s / 60) +:+ ":" +:+ fmt_02d (s mod 60).

Definition render (elapsed_s duration_s : Z) (is_paused : bool) : string :=
  let filled := filled_length elapsed_s duration_s in
  let status_emoji := if is_paused then "⏸️" else "▶️" in
  let progress_bar :=
    str_mul "▬" filled +:+ "🔘" +:+ str_mul "▬" (bar_length - filled) in
  status_emoji +:+ " " +:+ progress_bar +:+ " `"
    +:+ format_time elapsed_s +:+ " / " +:+ format_time duration_s +:+ "`".

Definition create_progress_bar (ps : PlayerState)
    (is_paused : VoiceClient -> bool) (guild_id : Z)
    (t_default t_pause t_now : Z) : option string :=
  match current_songs ps !! guild_id with
  | None => None
  | Some song_info =>
      match voice_clients ps !! guild_id with
      | None => None
      | Some voice_client =>
          let elapsed_s :=
            elapsed ps (is_paused voice_client) guild_id
                    t_default t_pause t_now in
          Some (render elapsed_s (cs_duration song_info)
                       (is_paused voice_client))
      end
  end.

(** *** Session bookkeeping *)

Definition update_song (ps : PlayerState) (guild_id : Z)
    (song_info : SongInfo) (who : Member) (now : Z) : PlayerState :=
  {| current_songs :=
       <[guild_id := {| cs_title := title song_info;
                        cs_duration := duration song_info;
                        cs_thumbnail := thumbnail song_info;
                        cs_url := webpage_url song_info;
                        cs_uploader := uploader song_info;
                        cs_requester := who |}]> (current_songs ps);
     voice_clients := voice_clients ps;
     song_start_times := <[guild_id := now]> (song_start_times ps);
     pause_durations := <[guild_id := 0]> (pause_durations ps);
     last_pause_time := delete guild_id (last_pause_time ps) |}.

Definition handle_pause (ps : PlayerState) (guild_id : Z) (now : Z)
    : PlayerState :=
  {| current_songs := current_songs ps;
     voice_clients := voice_clients ps;
     song_start_times := song_start_times ps;
     pause_durations := pause_durations ps;
     last_pause_time := <[guild_id := now]> (last_pause_time ps) |}.

Definition handle_resume (ps : PlayerState) (guild_id : Z) (now : Z)
    : PlayerState :=
  match last_pause_time ps !! guild_id with
  | Some pause_time =>
      {| current_songs := current_songs ps;
         voice_clients := voice_clients ps;
         song_start_times := song_start_times ps;
         pause_durations :=
           <[guild_id := default 0 (pause_durations ps !! guild_id)
                         + (now - pause_time)]> (pause_durations ps);
         last_pause_time := delete guild_id (last_pause_time ps) |}
  | None => ps
  end.

Definition clear_song (ps : PlayerState) (guild_id : Z) : PlayerState :=
  {| current_songs := delete guild_id (current_songs ps);
     voice_clients := voice_clients ps;
     song_start_times := delete guild_id (song_start_times ps);
     pause_durations := delete guild_id (pause_durations ps);
     last_pause_time := delete guild_id (last_pause_time ps) |}.

Definition get_song (ps : PlayerState) (guild_id : Z) : option CurrentSong :=
  current_songs ps !! guild_id.

Definition update_voice_client (ps : PlayerState) (guild_id : Z)
    (voice_client : VoiceClient) : PlayerState :=
  {| current_songs := current_songs ps;
     voice_clients := <[guild_id := voice_client]> (voice_clients ps);
     song_start_times := song_start_times ps;
     pause_durations := pause_durations ps;
     last_pause_time := last_pause_time ps |}.

Definition remove_voice_client (ps : PlayerState) (guild_id : Z)
    : PlayerState :=
  {| current_songs := current_songs ps;
     voice_clients := delete guild_id (voice_clients ps);
     song_start_times := song_start_times ps;
     pause_durations := pause_durations ps;
     last_pause_time := last_pause_time ps |}.

(** One pause/resume cycle: the clock readings of [handle_pause] and of
    the [handle_resume] that closes it. *)
Definition pause_cycle (guild_id : Z) (ps : PlayerState) (cycle : Z * Z)
    : PlayerState :=
  handle_resume (handle_pause ps guild_id (fst cycle)) guild_id (snd cycle).

Definition pause_cycles (guild_id : Z) (cycles : list (Z * Z))
    (ps : PlayerState) : PlayerState :=
  foldl (pause_cycle guild_id) ps cycles.

(** The total duration of the cycles. *)
Definition total_paused (cycles : list (Z * Z)) : Z :=
  foldr (fun cycle acc => (snd cycle - fst cycle) + acc) 0 cycles.

(** The local [progress_bar] of [create_progress_bar]. *)
Definition progress_bar (elapsed_s duration_s : Z) : string :=
  let filled := filled_length elapsed_s duration_s in
  str_mul "▬" filled +:+ "🔘" +:+ str_mul "▬" (bar_length - filled).

(** The calls that change the state, each for one guild, and a sequence
    of them. *)
Inductive Op : Type :=
| OpUpdateSong (guild_id : Z) (info : SongInfo) (who : Member) (now : Z)
| OpHandlePause (guild_id : Z) (now : Z)
| OpHandleResume (guild_id : Z) (now : Z)
| OpClearSong (guild_id : Z)
| OpUpdateVoiceClient (guild_id : Z) (voice_client : VoiceClient)
| OpRemoveVoiceClient (guild_id : Z).

Definition op_guild (op : Op) : Z :=
  match op with
  | OpUpdateSong g _ _ _ | OpHandlePause g _ | OpHandleResume g _
  | OpClearSong g | OpUpdateVoiceClient g _ | OpRemoveVoiceClient g => g
  end.

Definition run_op (ps : PlayerState) (op : Op) : PlayerState :=
  match op with
  | OpUpdateSong g info who now => update_song ps g info who now
  | OpHandlePause g now => handle_pause ps g now
  | OpHandleResume g now => handle_resume ps g now
  | OpClearSong g => clear_song ps g
  | OpUpdateVoiceClient g vc => update_voice_client ps g vc
  | OpRemoveVoiceClient g => remove_voice_client ps g
  end.

Definition run_ops (ops : list Op) (ps : PlayerState) : PlayerState :=
  foldl run_op ps ops.

(** What the state holds for one guild. *)
Definition session_of (ps : PlayerState) (guild_id : Z)
    : option CurrentSong * option VoiceClient * option Z * option Z * option Z :=
  (current_songs ps !! guild_id, voice_clients ps !! guild_id,
   song_start_times ps !! guild_id, pause_durations ps !! guild_id,
   last_pause_time ps !! guild_id).

(** *** Metadata extraction through the cache *)

Section Extraction.
(** [W] is the world of the extractor (network, yt-dlp); the method
    [_extract_song_info_impl] is given by what a call does to it. *)
Context {W : Type}.
Variable _extract_song_info_impl : string -> W -> outcome SongInfo * W.

(** The bound method as [get_or_compute] receives it: called with the one
    positional argument [query]. *)
Definition impl_func : @Cache.Func SongInfo W string :=
  {| Cache.func_name := "_extract_song_info_impl";
     Cache.call := fun args _ w =>
       match args with
       | [query] => _extract_song_info_impl query w
       | _ => (Raised (Exception "TypeError"), w)
       end |}.

Definition extract_song_info (youtube_cache : @Cache.AsyncLRUCache SongInfo)
    (query : string) (clk : Cache.Clock) (w : W)
    : outcome SongInfo * @Cache.AsyncLRUCache SongInfo * W :=
  match Cache.get_or_compute id youtube_cache impl_func [query] [] clk w with
  | (Returned info, youtube_cache, w) => (Returned info, youtube_cache, w)
  | (Raised cache_error, youtube_cache, w) =>
      if isinstance_Exception cache_error then
        let '(result, w) := _extract_song_info_impl query w in
        (result, youtube_cache, w)
      else (Raised cache_error, youtube_cache, w)
  end.
End Extraction.

End Player.


(** ** utils/voice.py: the reconnection driver *)

Module Voice.

(** What the driver asks of its collaborators, in the order it asks. *)
Inductive Event : Type :=
| Sleep (seconds : Z)
| GetGuild (guild_id : Z)
| Connect (channel : VoiceChannel)
| Send (channel : TextChannel) (action : string)
| ExtractSongInfo (query : string)
| CreatePlayer (info : SongInfo)
| Play (voice_client : VoiceClient)
| StartInactivityChecker (guild_id : Z).

(** The fields of [VoiceManager] the driver touches; tasks are kept by
    the guilds that have one. *)
Record VoiceManager := {
  _inactivity_timeouts : gset Z;
  command_channels : gmap Z TextChannel;
  reconnect_attempts : gmap Z Z;
  max_reconnect_attempts : Z;
  reconnect_backoff : Z;
  reconnect_tasks : gset Z;
  recent_songs : gmap Z (list Player.CurrentSong);
  max_recent_songs : Z
}.

Definition init : VoiceManager :=
  {| _inactivity_timeouts := ∅; command_channels := ∅;
     reconnect_attempts := ∅; max_reconnect_attempts := 3;
     reconnect_backoff := 5; reconnect_tasks := ∅; recent_songs := ∅;
     max_recent_songs := 5 |}.

(** The manager with the module-level [player_state] and [song_queue] it
    works on, and the calls made so far. *)
Record State := {
  vm : VoiceManager;
  player_state : Player.PlayerState;
  song_queue : Queue.QueueManager;
  trace : list Event
}.

(** A computation that reads and writes the state and may raise. *)
Definition M (A : Type) : Type := State -> outcome A * State.

Definition ret {A} (a : A) : M A := fun s => (Returned a, s).

Definition bind {A B} (m : M A) (k : A -> M B) : M B :=
  fun s =>
    match m s with
    | (Returned a, s') => k a s'
    | (Raised e, s') => (Raised e, s')
    end.

Notation "x <- m ;; k" := (bind m (fun x => k))
  (at level 100, m at next level, right associativity).
Notation "m ;;; k" := (bind m (fun _ => k))
  (at level 100, right associativity).

Definition gets {A} (f : State -> A) : M A := fun s => (Returned (f s), s).

Definition modify (f : State -> State) : M unit :=
  fun s => (Returned tt, f s).

(** A call to a collaborator: it is recorded, and it returns or raises as
    the environment decides. *)
Definition perform {A} (ev : Event) (result : outcome A) : M A :=
  fun s =>
    (result,
     {| vm := vm s; player_state := player_state s;
        song_queue := song_queue s; trace := trace s ++ [ev] |}).

(** [try: body except Exception as e: handler(e)] *)
Definition try_except_Exception {A} (body : M A)
    (handler : BaseException -> M A) : M A :=
  fun s =>
    match body s with
    | (Raised e, s') =>
        if isinstance_Exception e then handler e s' else (Raised e, s')
    | r => r
    end.

Definition with_vm (f : VoiceManager -> VoiceManager) : M unit :=
  modify (fun s =>
    {| vm := f (vm s); player_state := player_state s;
       song_queue := song_queue s; trace := trace s |}).

Definition with_player (f : Player.PlayerState -> Player.PlayerState)
    : M unit :=
  modify (fun s =>
    {| vm := vm s; player_state := f (player_state s);
       song_queue := song_queue s; trace := trace s |}).

Definition set_reconnect_attempts (guild_id n : Z) (v : VoiceManager)
    : VoiceManager :=
  {| _inactivity_timeouts := _inactivity_timeouts v;
     command_channels := command_channels v;
     reconnect_attempts := <[guild_id := n]> (reconnect_attempts v);
     max_reconnect_attempts := max_reconnect_attempts v;
     reconnect_backoff := reconnect_backoff v;
     reconnect_tasks := reconnect_tasks v;
     recent_songs := recent_songs v;
     max_recent_songs := max_recent_songs v |}.

Definition set_recent_songs (guild_id : Z) (l : list Player.CurrentSong)
    (v : VoiceManager) : VoiceManager :=
  {| _inactivity_timeouts := _inactivity_timeouts v;
     command_channels := command_channels v;
     reconnect_attempts := reconnect_attempts v;
     max_reconnect_attempts := max_reconnect_attempts v;
     reconnect_backoff := reconnect_backoff v;
     reconnect_tasks := reconnect_tasks v;
     recent_songs := <[guild_id := l]> (recent_songs v);
     max_recent_songs := max_recent_songs v |}.

Definition add_inactivity_timeout (guild_id : Z) (v : VoiceManager)
    : VoiceManager :=
  {| _inactivity_timeouts := {[guild_id]} ∪ _inactivity_timeouts v;
     command_channels := command_channels v;
     reconnect_attempts := reconnect_attempts v;
     max_reconnect_attempts := max_reconnect_attempts v;
     reconnect_backoff := reconnect_backoff v;
     reconnect_tasks := reconnect_tasks v;
     recent_songs := recent_songs v;
     max_recent_songs := max_recent_songs v |}.

Definition pop_reconnect_task (guild_id : Z) (v : VoiceManager)
    : VoiceManager :=
  {| _inactivity_timeouts := _inactivity_timeouts v;
     command_channels := command_channels v;
     reconnect_attempts := reconnect_attempts v;
     max_reconnect_attempts := max_reconnect_attempts v;
     reconnect_backoff := reconnect_backoff v;
     reconnect_tasks := reconnect_tasks v ∖ {[guild_id]};
     recent_songs := recent_songs v;
     max_recent_songs := max_recent_songs v |}.

(** [self._start_inactivity_checker(guild_id)]: the old task, if any, is
    cancelled and a new one takes its place. *)
Definition _start_inactivity_checker (guild_id : Z) : M unit :=
  perform (StartInactivityChecker guild_id) (Returned tt) ;;;
  with_vm (add_inactivity_timeout guild_id).

(** What the environment answers during one pass of the loop. *)
Record AttemptEnv := {
  env_sleep : outcome unit;
  env_get_guild : bool;
  env_connect : outcome VoiceClient;
  env_send_connect : outcome unit;
  env_extract : outcome SongInfo;
  env_create_player : outcome unit;
  env_play : outcome unit;
  env_now : Z;
  env_send_resume : outcome unit
}.

(** How the [try] block of the loop ends when it does not raise. *)
Inductive TryExit : Type := Break | Return.

(** The [try] block of one pass: "Attempt to reconnect". *)
Definition attempt (guild_id : Z) (channel : VoiceChannel)
    (current_song : option Player.CurrentSong)
    (notification_channel : option TextChannel) (env : AttemptEnv)
    : M TryExit :=
  guild <- perform (GetGuild guild_id) (Returned (env_get_guild env)) ;;
  if negb guild then ret Break
  else
    voice_client <- perform (Connect channel) (env_connect env) ;;
    with_player (fun ps =>
      Player.update_voice_client ps guild_id voice_client) ;;;
    match notification_channel with
    | Some ch => perform (Send ch "connect") (env_send_connect env)
    | None => ret tt
    end ;;;
    match current_song with
    | Some song =>
        info <- perform (ExtractSongInfo (Player.cs_url song))
                        (env_extract env) ;;
        perform (CreatePlayer info) (env_create_player env) ;;;
        perform (Play voice_client) (env_play env) ;;;
        with_player (fun ps =>
          Player.update_song ps guild_id info (Player.cs_requester song)
                             (env_now env)) ;;;
        match notification_channel with
        | Some ch => perform (Send ch "resume") (env_send_resume env)
        | None => ret tt
        end
    | None => ret tt
    end ;;;
    with_vm (set_reconnect_attempts guild_id 0) ;;;
    _start_inactivity_checker guild_id ;;;
    ret Return.

(** How the [while] loop is left: its condition became false, [break],
    or [return].  [OutOfFuel] is the model's own: the recursion is on a
    bound given by the caller. *)
Inductive LoopExit : Type :=
| Exhausted (attempts : Z)
| Broke (attempts : Z)
| Reconnected
| OutOfFuel.

Fixpoint reconnect_loop (fuel : nat) (envs : nat -> AttemptEnv)
    (guild_id : Z) (channel : VoiceChannel)
    (current_song : option Player.CurrentSong)
    (notification_channel : option TextChannel) (attempts : Z) : M LoopExit :=
  max <- gets (fun s => max_reconnect_attempts (vm s)) ;;
  if attempts <? max then
    match fuel with
    | O => ret OutOfFuel
    | S fuel' =>
        backoff <- gets (fun s => reconnect_backoff (vm s)) ;;
        let backoff_time := backoff * 2 ^ attempts in
        perform (Sleep backoff_time) (env_sleep (envs 0%nat)) ;;;
        try_except_Exception
          (exit <- attempt guild_id channel current_song
                           notification_channel (envs 0%nat) ;;
           match exit with
           | Break => ret (Broke attempts)
           | Return => ret Reconnected
           end)
          (fun e =>
             let attempts := attempts + 1 in
             with_vm (set_reconnect_attempts guild_id attempts) ;;;
             reconnect_loop fuel' (fun i => envs (S i)) guild_id channel
                            current_song notification_channel attempts)
    end
  else ret (Exhausted attempts).

(** "If we've exhausted all attempts, clean up". *)
Definition clean_up (guild_id : Z)
    (notification_channel : option TextChannel) (attempts : Z)
    (final_send : outcome unit) : M unit :=
  max <- gets (fun s => max_reconnect_attempts (vm s)) ;;
  if max <=? attempts then
    with_player (fun ps => Player.clear_song ps guild_id) ;;;
    with_player (fun ps => Player.remove_voice_client ps guild_id) ;;;
    match notification_channel with
    | Some ch => perform (Send ch "error") final_send
    | None => ret tt
    end
  else ret tt.

(** "Add current song to recent songs if available"; the slice is taken
    with the non-negative [max_recent_songs]. *)
Definition remember (guild_id : Z) (current_song : option Player.CurrentSong)
    (v : VoiceManager) : VoiceManager :=
  match current_song with
  | Some song =>
      let recent := song :: default [] (recent_songs v !! guild_id) in
      let recent :=
        if max_recent_songs v <? Z.of_nat (length recent)
        then take (Z.to_nat (max_recent_songs v)) recent else recent in
      set_recent_songs guild_id recent v
  | None => v
  end.

(** The driver.  [envs i] answers the [i]-th pass of the loop and
    [final_send] the last notification.  The outer handlers swallow a
    cancellation and any [Exception]; [finally] drops the task. *)
Definition _reconnect_to_voice (guild_id : Z) (channel : VoiceChannel)
    (envs : nat -> AttemptEnv) (final_send : outcome unit) (s : State)
    : State :=
  let attempts := default 0 (reconnect_attempts (vm s) !! guild_id) in
  let current_song := Player.get_song (player_state s) guild_id in
  let s :=
    {| vm := remember guild_id current_song (vm s);
       player_state := player_state s;
       song_queue := snd (Queue.get_queue (song_queue s) guild_id);
       trace := trace s |} in
  let notification_channel := command_channels (vm s) !! guild_id in
  let fuel := Z.to_nat (max_reconnect_attempts (vm s) - attempts) in
  let body :=
    exit <- reconnect_loop fuel envs guild_id channel current_song
                           notification_channel attempts ;;
    match exit with
    | Exhausted attempts | Broke attempts =>
        clean_up guild_id notification_channel attempts final_send
    | Reconnected | OutOfFuel => ret tt
    end in
  let s := snd (body s) in
  {| vm := pop_reconnect_task guild_id (vm s);
     player_state := player_state s;
     song_queue := song_queue s;
     trace := trace s |}.

(** The waits and the attempts among the calls: an attempt opens with
    [get_guild] and, when the guild is found, goes on to [connect]. *)
Definition is_scheduled (ev : Event) : bool :=
  match ev with
  | Sleep _ | GetGuild _ | Connect _ => true
  | _ => false
  end.

Definition schedule (evs : list Event) : list Event :=
  filter (fun ev => is_scheduled ev = true) evs.

(** The schedule of [n] passes of the loop, the first one at attempt
    number [a], when no pass ends it early. *)
Fixpoint expected (backoff guild_id : Z) (channel : VoiceChannel) (a : Z)
    (n : nat) : list Event :=
  match n with
  | O => []
  | S n' =>
      Sleep (backoff * 2 ^ a) :: GetGuild guild_id :: Connect channel
        :: expected backoff guild_id channel (a + 1) n'
  end.

(** An attempt that ends in an [Exception], whatever the state. *)
Definition attempt_fails (guild_id : Z) (channel : VoiceChannel)
    (current_song : option Player.CurrentSong)
    (notification_channel : option TextChannel) (env : AttemptEnv) : Prop :=
  forall s, exists what,
    fst (attempt guild_id channel current_song notification_channel env s)
    = Raised (Exception what).


(** An attempt in which every call returns: [connect] gives
    [voice_client] and the extractor gives [info]. *)
Definition attempt_succeeds (env : AttemptEnv) (voice_client : VoiceClient)
    (info : SongInfo) : Prop :=
  env_get_guild env = true
  /\ env_connect env = Returned voice_client
  /\ env_send_connect env = Returned tt
  /\ env_extract env = Returned info
  /\ env_create_player env = Returned tt
  /\ env_play env = Returned tt
  /\ env_send_resume env = Returned tt.


(** [get_recently_played(guild_id, limit)] *)
Definition get_recently_played (v : VoiceManager) (guild_id limit : Z)
    : list Player.CurrentSong :=
  let recent := default [] (recent_songs v !! guild_id) in
  PyList.slice recent 0 (Z.min limit (Z.of_nat (length recent))).

(** The songs of a guild that end one after the other: each is put on
    record as [_handle_song_end] and [_reconnect_to_voice] do. *)
Definition remember_all (guild_id : Z) (songs : list Player.CurrentSong)
    (v : VoiceManager) : VoiceManager :=
  foldl (fun v song => remember guild_id (Some song) v) v songs.

(** The [history] command of [commands/statistics.py]: the limit is
    brought into 1..20 and handed to [get_recently_played]. *)
Definition history_limit (limit : Z) : Z := Z.min (Z.max 1 limit) 20.

Definition history (v : VoiceManager) (guild_id limit : Z)
    : list Player.CurrentSong :=
  get_recently_played v guild_id (history_limit limit).


(** *** The end of a song *)

(** The truth value of [d.get(key)] for a string: a missing key and the
    empty string are both false. *)
Definition truthy (o : option string) : bool :=
  match o with
  | Some s => negb (String.eqb s "")
  | None => false
  end.

(** What the environment answers during one run of [_handle_song_end]. *)
Record SongEndEnv := {
  end_send_error : outcome unit;
  end_is_connected : bool;
  end_rate_limit : outcome unit;
  end_extract : outcome SongInfo;
  end_create_player : outcome unit;
  end_play : outcome unit;
  end_now : Z;
  end_system_channel : option TextChannel;
  end_send_playing : outcome unit
}.

(** A call whose effect on the state here is nil. *)
Definition lift {A} (result : outcome A) : M A := fun s => (result, s).

(** [song_queue.pop_song(guild_id)] *)
Definition pop_next (guild_id : Z) : M (option Queue.QueueEntry) :=
  fun s =>
    let '(next_song, qm) := Queue.pop_song (song_queue s) guild_id in
    (Returned next_song,
     {| vm := vm s; player_state := player_state s; song_queue := qm;
        trace := trace s |}).

(** [_handle_song_end(guild_id, had_error)], after [setup] has set the
    bot.  The result tells whether the handler created the task that runs
    it again, which it does with [had_error=True].  [_respect_rate_limit]
    only waits and notes the time of the call, in a dict that is not part
    of the state here: it is a call that returns or raises. *)
Definition _handle_song_end (guild_id : Z) (had_error : bool)
    (env : SongEndEnv) : M bool :=
  current_song <- gets (fun s => Player.get_song (player_state s) guild_id) ;;
  with_vm (remember guild_id current_song) ;;;
  with_player (fun ps => Player.clear_song ps guild_id) ;;;
  (if had_error then
     channel <- gets (fun s => command_channels (vm s) !! guild_id) ;;
     match channel with
     | Some ch => perform (Send ch "error") (end_send_error env)
     | None => ret tt
     end
   else ret tt) ;;;
  next_song <- pop_next guild_id ;;
  match next_song with
  | None => ret false
  | Some next_song =>
      voice_client <-
        gets (fun s => Player.voice_clients (player_state s) !! guild_id) ;;
      match voice_client with
      | None => ret false
      | Some voice_client =>
          if negb (end_is_connected env) then ret false
          else
            try_except_Exception
              (lift (end_rate_limit env) ;;;
               let song_info := Queue.song_info next_song in
               song_info <-
                 (if truthy (search_query song_info)
                     && negb (truthy (url song_info))
                  then perform
                         (ExtractSongInfo (default "" (search_query song_info)))
                         (end_extract env)
                  else ret song_info) ;;
               perform (CreatePlayer song_info) (end_create_player env) ;;;
               perform (Play voice_client) (end_play env) ;;;
               with_player (fun ps =>
                 Player.update_song ps guild_id song_info
                   (Queue.requester next_song) (end_now env)) ;;;
               channel <- gets (fun s => command_channels (vm s) !! guild_id) ;;
               match channel with
               | Some ch =>
                   perform (Send ch "now_playing") (end_send_playing env)
               | None =>
                   match end_system_channel env with
                   | Some ch =>
                       perform (Send ch "now_playing") (end_send_playing env)
                   | None => ret tt
                   end
               end ;;;
               ret false)
              (fun _ => ret true)
      end
  end.

(** The handler and the tasks it creates, run one after the other with
    nothing in between; [envs i] answers the [i]-th run.  The result
    counts the runs: [Settled] when the last one created no task, [Died]
    when it raised.  [NoFuel] is the model's own: the recursion is on a
    bound given by the caller. *)
Inductive ChainExit : Type :=
| Settled (runs : nat)
| Died (e : BaseException) (runs : nat)
| NoFuel.

Definition one_more (r : ChainExit) : ChainExit :=
  match r with
  | Settled n => Settled (S n)
  | Died e n => Died e (S n)
  | NoFuel => NoFuel
  end.

Fixpoint song_end_chain (fuel : nat) (envs : nat -> SongEndEnv)
    (guild_id : Z) (had_error : bool) (s : State) : ChainExit * State :=
  match fuel with
  | O => (NoFuel, s)
  | S fuel' =>
      match _handle_song_end guild_id had_error (envs 0%nat) s with
      | (Returned true, s') =>
          let '(r, s'') :=
            song_end_chain fuel' (fun i => envs (S i)) guild_id true s' in
          (one_more r, s'')
      | (Returned false, s') => (Settled 1, s')
      | (Raised e, s') => (Died e 1, s')
      end
  end.

(** The songs for which a player was asked, in the order of the calls. *)
Definition players (evs : list Event) : list SongInfo :=
  omap (fun ev => match ev with CreatePlayer info => Some info | _ => None end)
       evs.

(** The notices of one kind sent to text channels. *)
Definition notices (action : string) (evs : list Event) : list TextChannel :=
  omap (fun ev =>
          match ev with
          | Send ch a => if String.eqb a action then Some ch else None
          | _ => None
          end) evs.

(** What an environment answers when no player can be made. *)
Definition no_player (env : SongEndEnv) : Prop :=
  end_is_connected env = true
  /\ end_send_error env = Returned tt
  /\ end_rate_limit env = Returned tt
  /\ exists what, end_create_player env = Raised (Exception what).

(** The error notices of a run. *)
Definition error_notices (b : bool) (nc : option TextChannel)
    : list TextChannel :=
  if b then option_list nc else [].


(** *** Joining and playing *)

(** What [join_voice_channel] and [play_song] read off the interaction:
    the guild, the channel the command came from, the user, and the voice
    channel the user is in, if any. *)
Record Interaction := {
  i_guild_id : Z;
  i_channel : TextChannel;
  i_user : Member;
  i_user_voice : option VoiceChannel
}.

(** The embeds sent as followups: [create_song_embed] with its
    arguments, and [create_action_embed]. *)
Inductive Followup : Type :=
| SongEmbed (is_now_playing : bool) (position_in_queue : option Z)
    (info : SongInfo) (requester : Member)
| ActionEmbed (action details : string) (success : bool).

(** What the environment answers during one [play_song].  In one run at
    most one followup is sent before the handler's: [ps_send] answers
    it. *)
Record PlaySongEnv := {
  ps_rate_limit : outcome unit;
  ps_is_connected : bool;
  ps_join_rate_limit : outcome unit;
  ps_connect : outcome VoiceClient;
  ps_extract : outcome SongInfo;
  ps_create_player : outcome unit;
  ps_busy : bool;
  ps_play : outcome unit;
  ps_now : Z;
  ps_send : outcome unit;
  ps_send_error : outcome unit
}.

Definition set_command_channel (guild_id : Z) (ch : TextChannel)
    (v : VoiceManager) : VoiceManager :=
  {| _inactivity_timeouts := _inactivity_timeouts v;
     command_channels := <[guild_id := ch]> (command_channels v);
     reconnect_attempts := reconnect_attempts v;
     max_reconnect_attempts := max_reconnect_attempts v;
     reconnect_backoff := reconnect_backoff v;
     reconnect_tasks := reconnect_tasks v;
     recent_songs := recent_songs v;
     max_recent_songs := max_recent_songs v |}.

(** A call on the module-level [song_queue]. *)
Definition on_queue {A}
    (f : Queue.QueueManager -> A * Queue.QueueManager) : M A :=
  fun s =>
    let '(a, qm) := f (song_queue s) in
    (Returned a,
     {| vm := vm s; player_state := player_state s; song_queue := qm;
        trace := trace s |}).

(** [join_voice_channel]: the transport handle, if the guild was joined,
    and the followup delivered, if any. *)
Definition join_voice_channel (i : Interaction) (env : PlaySongEnv)
    : M (option VoiceClient * option Followup) :=
  match i_user_voice i with
  | None =>
      lift (ps_send env) ;;;
      ret (None,
           Some (ActionEmbed "error" "You need to be in a voice channel!"
                   false))
  | Some channel =>
      try_except_Exception
        (lift (ps_join_rate_limit env) ;;;
         voice_client <- perform (Connect channel) (ps_connect env) ;;
         with_player (fun ps =>
           Player.update_voice_client ps (i_guild_id i) voice_client) ;;;
         with_vm (set_command_channel (i_guild_id i) (i_channel i)) ;;;
         with_vm (set_reconnect_attempts (i_guild_id i) 0) ;;;
         _start_inactivity_checker (i_guild_id i) ;;;
         ret (Some voice_client, None))
        (fun _ =>
           lift (ps_send env) ;;;
           ret (None,
                Some (ActionEmbed "error"
                        "Failed to join voice channel. Please try again."
                        false)))
  end.

(** [play_song], after [setup] has set the bot: the followup delivered,
    if any. *)
Definition play_song (i : Interaction) (query : string) (env : PlaySongEnv)
    : M (option Followup) :=
  try_except_Exception
    (lift (ps_rate_limit env) ;;;
     voice_client <-
       gets (fun s =>
         Player.voice_clients (player_state s) !! i_guild_id i) ;;
     joined <-
       match voice_client with
       | Some voice_client =>
           if ps_is_connected env then ret (Some voice_client, None)
           else join_voice_channel i env
       | None => join_voice_channel i env
       end ;;
     match joined with
     | (None, followup) => ret followup
     | (Some voice_client, _) =>
         with_vm (set_command_channel (i_guild_id i) (i_channel i)) ;;;
         song_info <- perform (ExtractSongInfo query) (ps_extract env) ;;
         perform (CreatePlayer song_info) (ps_create_player env) ;;;
         if ps_busy env then
           queue_length <-
             on_queue (fun qm => Queue.get_queue_length qm (i_guild_id i)) ;;
           let position := queue_length + 1 in
           on_queue (fun qm =>
             Queue.add_song qm (i_guild_id i) song_info (i_user i)) ;;;
           lift (ps_send env) ;;;
           ret (Some (SongEmbed false (Some position) song_info (i_user i)))
         else
           perform (Play voice_client) (ps_play env) ;;;
           with_player (fun ps =>
             Player.update_song ps (i_guild_id i) song_info (i_user i)
               (ps_now env)) ;;;
           lift (ps_send env) ;;;
           ret (Some (SongEmbed true None song_info (i_user i)))
     end)
    (fun _ =>
       lift (ps_send_error env) ;;;
       ret (Some (ActionEmbed "error"
                    "Failed to play the song. Please try again." false))).

End Voice.



(** ** commands/ *)

Module Commands.

(** What a command answers with [create_action_embed]: the action, the
    details and the success flag. *)
Record Reply := {
  reply_action : string;
  reply_details : string;
  reply_success : bool
}.

(** What the transport handle of the guild answers to [is_playing()] and
    [is_paused()]. *)
Record Transport := { is_playing : bool; is_paused : bool }.

(** *** commands/queue.py *)

(** The [remove] command: the reply and the manager it leaves. *)
Definition remove_song (qm : Queue.QueueManager) (guild_id position : Z)
    : string * Queue.QueueManager :=
  let index := position - 1 in
  let '(ok, qm) := Queue.remove_song qm guild_id index in
  if ok then
    ("Removed song at position " +:+ pretty position +:+ " from the queue.",
     qm)
  else
    let '(n, qm) := Queue.get_queue_length qm guild_id in
    ("Invalid position. Please use a number between 1 and " +:+ pretty n, qm).

(** *** commands/navigation_commands.py *)

(** [for _ in range(n): song_queue.pop_song(guild_id)] *)
Fixpoint pop_times (qm : Queue.QueueManager) (guild_id : Z) (n : nat)
    : Queue.QueueManager :=
  match n with
  | O => qm
  | S n' => pop_times (snd (Queue.pop_song qm guild_id)) guild_id n'
  end.

(** The [skip] command.  [processing] is what the cog's
    [processing_states] holds for the guild and [voice_client] the
    guild's transport handle, if any.  The result is the reply, whether
    [voice_client.stop()] was called, and the queue manager; the index
    into the copy of the queue can raise [IndexError]. *)
Definition skip (processing : bool) (voice_client : option Transport)
    (ps : Player.PlayerState) (qm : Queue.QueueManager) (guild_id : Z)
    (position : option Z) : outcome Reply * bool * Queue.QueueManager :=
  if processing then
    (Returned {| reply_action := "wait";
        reply_details :=
          "Still processing songs... Please try again in a moment.";
        reply_success := false |}, false, qm)
  else
    match voice_client with
    | None =>
        (Returned {| reply_action := "skip";
            reply_details := "I'm not playing anything right now.";
            reply_success := false |}, false, qm)
    | Some voice_client =>
        if negb (is_playing voice_client) && negb (is_paused voice_client)
        then
          (Returned {| reply_action := "skip";
              reply_details := "Nothing to skip right now.";
              reply_success := false |}, false, qm)
        else
          let current_title :=
            match Player.get_song ps guild_id with
            | Some current_song => Player.cs_title current_song
            | None => "the current song"
            end in
          match position with
          | None =>
              (Returned {| reply_action := "skip";
                  reply_details := "Skipped **" +:+ current_title +:+ "**";
                  reply_success := true |}, true, qm)
          | Some position =>
              let '(queue_length, qm) :=
                Queue.get_queue_length qm guild_id in
              if queue_length =? 0 then
                (Returned {| reply_action := "skip";
                    reply_details := "The queue is empty!";
                    reply_success := false |}, false, qm)
              else if (position <? 1) || (queue_length <? position) then
                (Returned {| reply_action := "skip";
                    reply_details :=
                      "Invalid position. Please use a number between 1 and "
                        +:+ pretty queue_length;
                    reply_success := false |}, false, qm)
              else
                let '(queue, qm) := Queue.get_queue qm guild_id in
                match queue !! Z.to_nat (position - 1) with
                | None => (Raised (Exception "IndexError"), false, qm)
                | Some target_song =>
                    let target_title :=
                      title (Queue.song_info target_song) in
                    (Returned {| reply_action := "skip";
                        reply_details :=
                          "Skipped to **" +:+ target_title +:+ "**";
                        reply_success := true |}, true,
                     pop_times qm guild_id (Z.to_nat (position - 1)))
                end
          end
    end.


(** The [stop] command: the reply, whether [voice_client.stop()] was
    called, the player state and the queue manager. *)
Definition stop (voice_client : option Transport) (ps : Player.PlayerState)
    (qm : Queue.QueueManager) (guild_id : Z)
    : Reply * bool * Player.PlayerState * Queue.QueueManager :=
  match voice_client with
  | None =>
      ({| reply_action := "stop";
          reply_details := "I'm not connected to a voice channel.";
          reply_success := false |}, false, ps, qm)
  | Some voice_client =>
      let '(queue_length, qm) := Queue.get_queue_length qm guild_id in
      let current_song := Player.get_song ps guild_id in
      let stopped := is_playing voice_client || is_paused voice_client in
      let qm := Queue.clear_queue qm guild_id in
      let ps := Player.clear_song ps guild_id in
      let details :=
        match current_song with
        | Some song =>
            if 0 <? queue_length then
              "Stopped **" +:+ Player.cs_title song +:+ "** and cleared "
                +:+ pretty queue_length +:+ " songs from the queue"
            else "Stopped **" +:+ Player.cs_title song +:+ "**"
        | None =>
            if 0 <? queue_length then
              "Cleared " +:+ pretty queue_length +:+ " songs from the queue"
            else "Stopped playback and cleared the queue"
        end in
      ({| reply_action := "stop"; reply_details := details;
          reply_success := true |}, stopped, ps, qm)
  end.

End Commands.


(** ** utils/spotify.py *)

Module Spotify.

(** The dict [_format_track] builds. *)
Record Track := {
  track_title : string;
  track_search_query : string;
  track_duration : Z;
  track_spotify_url : string;
  track_artists : string;
  track_album : option string;
  track_release_date : option string;
  track_thumbnail : option string
}.

(** Lists are objects: a list of tracks lives in the store under its
    address, and what is passed around, cached and returned is the
    address.  [requests] counts the calls made to the service. *)
Record World := {
  heap : gmap nat (list Track);
  next : nat;
  requests : nat
}.

Definition deref (w : World) (songs : nat) : list Track :=
  default [] (heap w !! songs).

Definition store (w : World) (songs : nat) (l : list Track) : World :=
  {| heap := <[songs := l]> (heap w); next := next w;
     requests := requests w |}.

Section Manager.
(** What the service answers to the [n]-th request, for a URL: the
    formatted tracks, or an error ([ValueError] for a URL of no known
    type, or whatever the client raises). *)
Variable service : nat -> string -> outcome (list Track).

(** [_get_songs_from_url_impl]: the list it returns is a new one. *)
Definition _get_songs_from_url_impl (url : string) (w : World)
    : outcome nat * World :=
  match service (requests w) url with
  | Returned tracks =>
      (Returned (next w),
       {| heap := <[next w := tracks]> (heap w); next := S (next w);
          requests := S (requests w) |})
  | Raised e =>
      (Raised e,
       {| heap := heap w; next := next w; requests := S (requests w) |})
  end.

Definition impl_func : @Cache.Func nat World string :=
  {| Cache.func_name := "_get_songs_from_url_impl";
     Cache.call := fun args _ w =>
       match args with
       | [url] => _get_songs_from_url_impl url w
       | _ => (Raised (Exception "TypeError"), w)
       end |}.

(** [get_songs_from_url] *)
Definition get_songs_from_url (spotify_cache : @Cache.AsyncLRUCache nat)
    (url : string) (clk : Cache.Clock) (w : World)
    : outcome nat * @Cache.AsyncLRUCache nat * World :=
  match Cache.get_or_compute id spotify_cache impl_func [url] [] clk w with
  | (Returned songs, spotify_cache, w) => (Returned songs, spotify_cache, w)
  | (Raised e, spotify_cache, w) =>
      if isinstance_Exception e then
        let '(result, w) := _get_songs_from_url_impl url w in
        (result, spotify_cache, w)
      else (Raised e, spotify_cache, w)
  end.
End Manager.

End Spotify.

(** ** commands/playback_commands.py *)

Module Playback.
Import Commands.

(** The cog with what its [play] command works on: the flags, the Spotify
    cache and the store of lists; and what it has done: the replies sent,
    the queries handed to [voice_manager.play_song], and the background
    tasks created, each with its guild and the list it was given. *)
Record Cog := {
  processing_states : gmap Z bool;
  spotify_cache : @Cache.AsyncLRUCache nat;
  world : Spotify.World;
  sent : list Reply;
  played : list string;
  tasks : list (Z * nat)
}.

Definition set_processing (guild_id : Z) (b : bool) (cog : Cog) : Cog :=
  {| processing_states := <[guild_id := b]> (processing_states cog);
     spotify_cache := spotify_cache cog; world := world cog;
     sent := sent cog; played := played cog; tasks := tasks cog |}.

Definition set_spotify (c : @Cache.AsyncLRUCache nat) (w : Spotify.World)
    (cog : Cog) : Cog :=
  {| processing_states := processing_states cog;
     spotify_cache := c; world := w;
     sent := sent cog; played := played cog; tasks := tasks cog |}.

(** [await interaction.followup.send(embed=...)] *)
Definition send (r : Reply) (result : outcome unit) (cog : Cog)
    : outcome unit * Cog :=
  (result,
   {| processing_states := processing_states cog;
      spotify_cache := spotify_cache cog; world := world cog;
      sent := sent cog ++ [r]; played := played cog; tasks := tasks cog |}).

(** [await voice_manager.play_song(interaction, query)] *)
Definition play_song (query : string) (result : outcome unit) (cog : Cog)
    : outcome unit * Cog :=
  (result,
   {| processing_states := processing_states cog;
      spotify_cache := spotify_cache cog; world := world cog;
      sent := sent cog; played := played cog ++ [query];
      tasks := tasks cog |}).

(** [asyncio.create_task(self._process_spotify_songs(guild_id, songs, ...))] *)
Definition create_task (guild_id : Z) (songs : nat) (cog : Cog) : Cog :=
  {| processing_states := processing_states cog;
     spotify_cache := spotify_cache cog; world := world cog;
     sent := sent cog; played := played cog;
     tasks := tasks cog ++ [(guild_id, songs)] |}.

(** What the environment answers during one [play]. *)
Record PlayEnv := {
  env_user_in_voice : bool;
  env_clock : Cache.Clock;
  env_send : outcome unit;
  env_play_song : outcome unit;
  env_voice_client : bool;
  env_send_spotify_error : outcome unit;
  env_send_error : outcome unit
}.

Definition no_songs : Reply :=
  {| reply_action := "spotify";
     reply_details := "No songs found in the Spotify link.";
     reply_success := false |}.

Definition adding (n : nat) : Reply :=
  {| reply_action := "spotify";
     reply_details :=
       "Adding " +:+ pretty (Z.of_nat n)
         +:+ " songs from Spotify to the queue...";
     reply_success := true |}.

(** An environment in which the user is in a voice channel and the
    sends and [play_song] return. *)
Definition calm (env : PlayEnv) : Prop :=
  env_user_in_voice env = true
  /\ env_send env = Returned tt
  /\ env_play_song env = Returned tt.

Section Play.
Variable service : nat -> string -> outcome (list Spotify.Track).
(** [spotify_manager.is_spotify_url], a search with regular expressions. *)
Variable is_spotify_url : string -> bool.

(** The body of the inner [try] of [play]: "Handle Spotify URLs". *)
Definition spotify_body (guild_id : Z) (query : string) (env : PlayEnv)
    (cog : Cog) : outcome unit * Cog :=
  let cog := set_processing guild_id true cog in
  let '(songs, c, w) :=
    Spotify.get_songs_from_url service (spotify_cache cog) query
      (env_clock env) (world cog) in
  let cog := set_spotify c w cog in
  match songs with
  | Raised e => (Raised e, cog)
  | Returned songs =>
      match Spotify.deref (world cog) songs with
      | [] =>
          let cog := set_processing guild_id false cog in
          send no_songs (env_send env) cog
      | first_song :: rest =>
          let '(r, cog) :=
            if (1 <? length (first_song :: rest))%nat
            then send (adding (length (first_song :: rest))) (env_send env) cog
            else (Returned tt, cog) in
          match r with
          | Raised e => (Raised e, cog)
          | Returned _ =>
              (* first_song = songs.pop(0) *)
              let cog :=
                set_spotify (spotify_cache cog)
                  (Spotify.store (world cog) songs rest) cog in
              let '(r, cog) :=
                play_song (Spotify.track_search_query first_song)
                  (env_play_song env) cog in
              match r with
              | Raised e => (Raised e, cog)
              | Returned _ =>
                  if env_voice_client env
                     && negb (bool_decide (Spotify.deref (world cog) songs = []))
                  then (Returned tt, create_task guild_id songs cog)
                  else (Returned tt, cog)
              end
          end
      end
  end.

(** The [play] command, after [defer]. *)
Definition play (guild_id : Z) (query : string) (env : PlayEnv) (cog : Cog)
    : outcome unit * Cog :=
  let '(r, cog) :=
    if negb (env_user_in_voice env) then
      send {| reply_action := "error";
              reply_details := "You need to be in a voice channel!";
              reply_success := false |} (env_send env) cog
    else if is_spotify_url query then
      match spotify_body guild_id query env cog with
      | (Raised e, cog) =>
          if isinstance_Exception e then
            let cog := set_processing guild_id false cog in
            send {| reply_action := "error";
                    reply_details :=
                      "An error occurred while processing the Spotify link. Please try again.";
                    reply_success := false |}
                 (env_send_spotify_error env) cog
          else (Raised e, cog)
      | r => r
      end
    else play_song query (env_play_song env) cog in
  match r with
  | Raised e =>
      if isinstance_Exception e then
        let cog :=
          match processing_states cog !! guild_id with
          | Some _ => set_processing guild_id false cog
          | None => cog
          end in
        send {| reply_action := "error";
                reply_details :=
                  "An error occurred while trying to play the song. Please try again.";
                reply_success := false |}
             (env_send_error env) cog
      else (Raised e, cog)
  | Returned _ => (Returned tt, cog)
  end.
End Play.


(** *** The background task *)

(** What the environment answers during the turn of one song:
    [asyncio.sleep(0)] and the extraction. *)
Record SongTurn := {
  turn_yield : outcome unit;
  turn_extract : outcome SongInfo
}.

(** [except Exception: log]: an [Exception] ends there, anything else
    goes on up. *)
Definition swallow (r : outcome unit) : outcome unit :=
  match r with
  | Raised e => if isinstance_Exception e then Returned tt else Raised e
  | Returned _ => r
  end.

(** [for song in batch: try: ... except Exception: ...] *)
Fixpoint process_batch (guild_id : Z) (user : Member)
    (batch : list Spotify.Track) (turns : nat -> SongTurn)
    (qm : Queue.QueueManager) : outcome unit * Queue.QueueManager :=
  match batch with
  | [] => (Returned tt, qm)
  | song :: rest =>
      let '(r, qm) :=
        match turn_yield (turns 0%nat) with
        | Raised e => (Raised e, qm)
        | Returned _ =>
            match turn_extract (turns 0%nat) with
            | Raised e => (Raised e, qm)
            | Returned song_info =>
                (Returned tt,
                 snd (Queue.add_song qm guild_id song_info user))
            end
        end in
      match swallow r with
      | Raised e => (Raised e, qm)
      | Returned _ =>
          process_batch guild_id user rest (fun i => turns (S i)) qm
      end
  end.

(** [for i in range(0, len(songs), batch_size): try: ... except
    Exception: continue], on the songs from position [i] on; [waits j]
    answers the [asyncio.sleep(2)] after the [j]-th batch.  The recursion
    is on a bound given by the caller. *)
Fixpoint process_batches (fuel : nat) (guild_id : Z) (user : Member)
    (batch_size : nat) (songs : list Spotify.Track)
    (turns : nat -> SongTurn) (waits : nat -> outcome unit)
    (qm : Queue.QueueManager) : outcome unit * Queue.QueueManager :=
  match fuel, songs with
  | S fuel', _ :: _ =>
      let batch := take batch_size songs in
      let '(r, qm) := process_batch guild_id user batch turns qm in
      let r :=
        match r with
        | Raised e => Raised e
        | Returned _ =>
            if (batch_size <? length songs)%nat then waits 0%nat
            else Returned tt
        end in
      match swallow r with
      | Raised e => (Raised e, qm)
      | Returned _ =>
          process_batches fuel' guild_id user batch_size
            (drop batch_size songs) (fun i => turns (batch_size + i)%nat)
            (fun j => waits (S j)) qm
      end
  | _, _ => (Returned tt, qm)
  end.

(** [_process_spotify_songs], nothing else changing the list while it
    runs: the outcome, the flags and the queue manager.  A batch size of
    0 makes [range] raise [ValueError]. *)
Definition _process_spotify_songs (guild_id : Z)
    (songs : list Spotify.Track) (user : Member) (batch_size : nat)
    (turns : nat -> SongTurn) (waits : nat -> outcome unit)
    (flags : gmap Z bool) (qm : Queue.QueueManager)
    : outcome unit * gmap Z bool * Queue.QueueManager :=
  let '(r, qm) :=
    match batch_size with
    | O => (Raised (Exception "ValueError"), qm)
    | _ =>
        process_batches (length songs) guild_id user batch_size songs turns
          waits qm
    end in
  (swallow r, <[guild_id := false]> flags, qm).

(** The songs of [n] turns whose extraction went through, with the user
    they are queued for. *)
Fixpoint extracted (n : nat) (turns : nat -> SongTurn) (user : Member)
    : list (SongInfo * Member) :=
  match n with
  | O => []
  | S n' =>
      match turn_yield (turns 0%nat), turn_extract (turns 0%nat) with
      | Returned _, Returned song_info => [(song_info, user)]
      | _, _ => []
      end ++ extracted n' (fun i => turns (S i)) user
  end.

(** Nothing is cancelled. *)
Definition not_cancelled {A} (r : outcome A) : Prop :=
  r <> Raised CancelledError.

End Playback.

(** ** Sample data used by the examples *)

Module Samples.
Definition song (n : Z) : SongInfo :=
  {| url := Some "https://media.example/stream";
     title := "track";
     duration := n;
     thumbnail := None;
     webpage_url := "https://media.example/watch";
     uploader := "Unknown";
     search_query := None |}.

Definition alice : Member := {| member_id := 1 |}.

Definition entry (n : Z) : Queue.QueueEntry :=
  {| Queue.song_info := song n; Queue.requester := alice |}.

Definition guild : Z := 7.

Definition queue_abc : Queue.QueueManager :=
  Queue.set_queue Queue.init guild [entry 1; entry 2; entry 3].

Definition queue_full : Queue.QueueManager :=
  Queue.set_queue Queue.init guild (replicate 500 (entry 1)).
End Samples.

Module CacheSamples.
Import Cache.

(** Values are integers, arguments are strings, and the world counts the
    invocations of the compute function. *)
Definition fetch : @Func Z nat string :=
  {| func_name := "fetch";
     call := fun _ _ n => (Returned (Z.of_nat n), S n) |}.

Definition fetch_fails : @Func Z nat string :=
  {| func_name := "fetch";
     call := fun _ _ n => (Raised (Exception "unavailable"), S n) |}.

Definition at_time (t : Z) : Clock :=
  {| t_fast := t; t_lock := t; t_store := t |}.

Definition lookup (k : string) (t : Z) : @Call Z nat string :=
  {| call_func := fetch; call_args := [k]; call_kwargs := [];
     call_clock := at_time t |}.

(** maxsize 2, ttl 100. *)
Definition small : @AsyncLRUCache Z := init "youtube" 2 100.

(** One entry, stored at time 0 with ttl 100. *)
Definition one_entry : @AsyncLRUCache Z :=
  fst (run_calls id [lookup "k1" 0] (small, 0%nat)).
End CacheSamples.

Module PlayerSamples.
Import Player.

Definition handle : VoiceClient := {| voice_client_id := 1 |}.

(** A guild connected through [handle], with nothing playing yet. *)
Definition connected : PlayerState :=
  update_voice_client init Samples.guild handle.

Definition playing (_ : VoiceClient) : bool := false.

(** An extractor that always fails and logs the queries it was asked. *)
Definition failing_extractor (query : string) (log : list string)
    : outcome SongInfo * list string :=
  (Raised (Exception "extraction failed"), log ++ [query]).

Definition youtube_cache : @Cache.AsyncLRUCache SongInfo :=
  Cache.init "youtube" 100 3600.

(** An extractor that always succeeds and logs the queries it was asked. *)
Definition working_extractor (query : string) (log : list string)
    : outcome SongInfo * list string :=
  (Returned (Samples.song 180), log ++ [query]).

End PlayerSamples.


Module VoiceSamples.
Import Voice.

Definition lobby : VoiceChannel := {| voice_channel_id := 3 |}.
Definition chat : TextChannel := {| text_channel_id := 4 |}.

Definition now_playing : Player.CurrentSong :=
  {| Player.cs_title := "track"; Player.cs_duration := 180;
     Player.cs_thumbnail := None;
     Player.cs_url := "https://media.example/watch";
     Player.cs_uploader := "Unknown"; Player.cs_requester := Samples.alice |}.

(** A guild that was playing [now_playing] through a transport handle
    when the connection was lost. *)
Definition lost : State :=
  {| vm :=
       {| _inactivity_timeouts := ∅;
          command_channels := {[ Samples.guild := chat ]};
          reconnect_attempts := {[ Samples.guild := 0 ]};
          max_reconnect_attempts := 3;
          reconnect_backoff := 5;
          reconnect_tasks := {[ Samples.guild ]};
          recent_songs := ∅;
          max_recent_songs := 5 |};
     player_state :=
       {| Player.current_songs := {[ Samples.guild := now_playing ]};
          Player.voice_clients := {[ Samples.guild := PlayerSamples.handle ]};
          Player.song_start_times := {[ Samples.guild := 1000 ]};
          Player.pause_durations := {[ Samples.guild := 0 ]};
          Player.last_pause_time := ∅ |};
     song_queue := Queue.init;
     trace := [] |}.

(** Every [connect] times out. *)
Definition unreachable : AttemptEnv :=
  {| env_sleep := Returned tt;
     env_get_guild := true;
     env_connect := Raised (Exception "timed out");
     env_send_connect := Returned tt;
     env_extract := Returned (Samples.song 180);
     env_create_player := Returned tt;
     env_play := Returned tt;
     env_now := 2000;
     env_send_resume := Returned tt |}.

(** The second [connect] goes through. *)
Definition reachable : AttemptEnv :=
  {| env_sleep := Returned tt;
     env_get_guild := true;
     env_connect := Returned {| voice_client_id := 2 |};
     env_send_connect := Returned tt;
     env_extract := Returned (Samples.song 180);
     env_create_player := Returned tt;
     env_play := Returned tt;
     env_now := 2000;
     env_send_resume := Returned tt |}.

Definition second_try (i : nat) : AttemptEnv :=
  match i with
  | O => unreachable
  | _ => reachable
  end.

(** The guild of [lost] after two failed attempts of an earlier run. *)
Definition interrupted : State :=
  {| vm := set_reconnect_attempts Samples.guild 2 (vm lost);
     player_state := player_state lost;
     song_queue := song_queue lost;
     trace := [] |}.


(** The guild of [lost], connected, with three songs waiting. *)
Definition queued : State :=
  {| vm := vm lost; player_state := player_state lost;
     song_queue := Samples.queue_abc; trace := [] |}.

(** The same guild with no transport handle on record. *)
Definition handle_gone : State :=
  {| vm := vm lost;
     player_state := Player.remove_voice_client (player_state lost)
                       Samples.guild;
     song_queue := Samples.queue_abc; trace := [] |}.

(** Every call of the song-end handler returns. *)
Definition smooth : SongEndEnv :=
  {| end_send_error := Returned tt;
     end_is_connected := true;
     end_rate_limit := Returned tt;
     end_extract := Returned (Samples.song 180);
     end_create_player := Returned tt;
     end_play := Returned tt;
     end_now := 3000;
     end_system_channel := None;
     end_send_playing := Returned tt |}.

(** No player can be made. *)
Definition no_stream : SongEndEnv :=
  {| end_send_error := Returned tt;
     end_is_connected := true;
     end_rate_limit := Returned tt;
     end_extract := Returned (Samples.song 180);
     end_create_player := Raised (Exception "stream gone");
     end_play := Returned tt;
     end_now := 3000;
     end_system_channel := None;
     end_send_playing := Returned tt |}.


(** The guild of [lost], connected, with its queue at the cap. *)
Definition full : State :=
  {| vm := vm lost; player_state := player_state lost;
     song_queue := Samples.queue_full; trace := [] |}.

Definition request : Interaction :=
  {| i_guild_id := Samples.guild; i_channel := chat;
     i_user := Samples.alice; i_user_voice := Some lobby |}.

(** Something is playing and every call returns. *)
Definition busy : PlaySongEnv :=
  {| ps_rate_limit := Returned tt;
     ps_is_connected := true;
     ps_join_rate_limit := Returned tt;
     ps_connect := Returned PlayerSamples.handle;
     ps_extract := Returned (Samples.song 180);
     ps_create_player := Returned tt;
     ps_busy := true;
     ps_play := Returned tt;
     ps_now := 3000;
     ps_send := Returned tt;
     ps_send_error := Returned tt |}.

End VoiceSamples.



Module SpotifySamples.
Import Commands Playback.

Definition track (name : string) : Spotify.Track :=
  {| Spotify.track_title := name +:+ " - artist";
     Spotify.track_search_query := name +:+ " artist official audio";
     Spotify.track_duration := 200;
     Spotify.track_spotify_url := "https://open.spotify.com/track/" +:+ name;
     Spotify.track_artists := "artist";
     Spotify.track_album := None;
     Spotify.track_release_date := None;
     Spotify.track_thumbnail := None |}.

Definition album_url : string := "https://open.spotify.com/album/1".

(** A service that knows an album of two tracks, and one that knows a
    single. *)
Definition album (_ : nat) (_ : string) : outcome (list Spotify.Track) :=
  Returned [track "one"; track "two"].

Definition single (_ : nat) (_ : string) : outcome (list Spotify.Track) :=
  Returned [track "one"].

Definition any_url (_ : string) : bool := true.

(** The cog as the bot starts. *)
Definition fresh : Cog :=
  {| processing_states := ∅;
     spotify_cache := Cache.init "spotify" 50 7200;
     world := {| Spotify.heap := ∅; Spotify.next := 0; Spotify.requests := 0 |};
     sent := []; played := []; tasks := [] |}.

Definition quiet (t : Z) : PlayEnv :=
  {| env_user_in_voice := true;
     env_clock := CacheSamples.at_time t;
     env_send := Returned tt;
     env_play_song := Returned tt;
     env_voice_client := true;
     env_send_spotify_error := Returned tt;
     env_send_error := Returned tt |}.
End SpotifySamples.

(** * Properties *)

(** ** Python list primitives *)

Lemma pop_in_range {A} (l : list A) (i : Z) :
  0 <= i < Z.of_nat (length l) ->
  exists x, l !! Z.to_nat i = Some x /\
            PyList.pop l i = Some (x, delete (Z.to_nat i) l).
Proof.
  intros Hi. unfold PyList.pop. cbv zeta. zcases.
  destruct (lookup_lt_is_Some_2 l (Z.to_nat i)) as [x Hx]; [lia|].
  exists x. by rewrite Hx.
Qed.

Lemma pop_negative {A} (l : list A) (i : Z) :
  - Z.of_nat (length l) <= i < 0 ->
  exists x, l !! Z.to_nat (i + Z.of_nat (length l)) = Some x /\
            PyList.pop l i = Some (x, delete (Z.to_nat (i + Z.of_nat (length l))) l).
Proof.
  intros Hi. unfold PyList.pop. cbv zeta. zcases.
  destruct (lookup_lt_is_Some_2 l (Z.to_nat (i + Z.of_nat (length l))))
    as [x Hx]; [lia|].
  exists x. by rewrite Hx.
Qed.

Lemma pop_out_of_range {A} (l : list A) (i : Z) :
  i < - Z.of_nat (length l) \/ Z.of_nat (length l) <= i ->
  PyList.pop l i = None.
Proof. intros Hi. unfold PyList.pop. cbv zeta. zcases; reflexivity. Qed.

Lemma insert_in_range {A} (l : list A) (j : Z) (x : A) :
  0 <= j <= Z.of_nat (length l) ->
  PyList.insert l j x = take (Z.to_nat j) l ++ x :: drop (Z.to_nat j) l.
Proof. intros Hj. unfold PyList.insert. cbv zeta. zcases; reflexivity. Qed.

(** ** The queue manager *)

Section QueueFacts.
Import Queue.

Lemma queue_of_set_queue qm g q :
  queue_of (set_queue qm g q) g = q.
Proof. unfold queue_of, set_queue; simpl. by rewrite lookup_insert_eq. Qed.

Lemma queue_of_set_queue_ne qm g g' q :
  g' <> g -> queue_of (set_queue qm g q) g' = queue_of qm g'.
Proof.
  intros Hne. unfold queue_of, set_queue; simpl.
  by rewrite lookup_insert_ne.
Qed.

Lemma set_queue_set_queue qm g q q' :
  set_queue (set_queue qm g q) g q' = set_queue qm g q'.
Proof. unfold set_queue; simpl. by rewrite insert_insert_eq. Qed.

(** Reading a guild that already has a list does not change the manager. *)
Lemma getitem_present qm g q :
  queues qm !! g = Some q -> getitem qm g = (q, qm).
Proof.
  intros Hq. unfold getitem, queue_of, set_queue. rewrite Hq. simpl.
  destruct qm as [m k]; simpl in *. by rewrite insert_id.
Qed.

Lemma nonempty_present qm g :
  queue_of qm g <> [] -> queues qm !! g = Some (queue_of qm g).
Proof. unfold queue_of. by destruct (queues qm !! g). Qed.

Lemma remove_song_in_range qm g i :
  0 <= i < Z.of_nat (length (queue_of qm g)) ->
  remove_song qm g i =
    (true, set_queue qm g (delete (Z.to_nat i) (queue_of qm g))).
Proof.
  intros Hi. unfold remove_song, getitem.
  destruct (pop_in_range (queue_of qm g) i Hi) as (x & _ & ->).
  by rewrite set_queue_set_queue.
Qed.

Lemma remove_song_beyond qm g i :
  i < - Z.of_nat (length (queue_of qm g))
  \/ Z.of_nat (length (queue_of qm g)) <= i ->
  exists qm', remove_song qm g i = (false, qm')
              /\ forall g', queue_of qm' g' = queue_of qm g'.
Proof.
  intros Hi. unfold remove_song, getitem.
  rewrite (pop_out_of_range _ _ Hi). eexists; split; [done|].
  intros g'. destruct (decide (g' = g)) as [->|Hne].
  - apply queue_of_set_queue.
  - by apply queue_of_set_queue_ne.
Qed.

(** A negative index down to [-len] is accepted by [list.pop] and
    removes from the end. *)
Lemma remove_song_negative qm g i :
  - Z.of_nat (length (queue_of qm g)) <= i < 0 ->
  remove_song qm g i =
    (true, set_queue qm g
             (delete (Z.to_nat (i + Z.of_nat (length (queue_of qm g))))
                     (queue_of qm g))).
Proof.
  intros Hi. unfold remove_song, getitem.
  destruct (pop_negative (queue_of qm g) i Hi) as (x & _ & ->).
  by rewrite set_queue_set_queue.
Qed.

(** C5. On a manager with the 500-entry cap, [add_song] on a guild whose
    queue holds exactly 500 entries returns [False] and leaves the
    manager as it was; on a queue of fewer than 500 entries it returns
    [True], the new entry is appended at the end, and the queues of the
    other guilds are as before. *)
Theorem add_song_bounded qm g info who :
  max_queue_size qm = 500 ->
  (length (queue_of qm g) = 500%nat ->
     add_song qm g info who = (false, qm))
  /\ ((length (queue_of qm g) < 500)%nat ->
        exists qm',
          add_song qm g info who = (true, qm')
          /\ queue_of qm' g
             = queue_of qm g ++ [ {| song_info := info; requester := who |} ]
          /\ max_queue_size qm' = 500
          /\ forall g', g' <> g -> queue_of qm' g' = queue_of qm g').
Proof.
  intros Hcap. split; intros Hlen.
  - assert (Hne : queue_of qm g <> []) by (intros E; by rewrite E in Hlen).
    unfold add_song. rewrite (getitem_present _ _ _ (nonempty_present _ _ Hne)).
    rewrite Hcap, Hlen. reflexivity.
  - unfold add_song, getitem. simpl. rewrite Hcap.
    destruct (Z.leb_spec 500 (Z.of_nat (length (queue_of qm g)))); [lia|].
    rewrite queue_of_set_queue, !set_queue_set_queue.
    eexists; split; [done|]. split; [apply queue_of_set_queue|].
    split; [done|]. intros g' Hne. by apply queue_of_set_queue_ne.
Qed.

Lemma add_song_bounded_witness :
  max_queue_size Samples.queue_full = 500
  /\ length (queue_of Samples.queue_full Samples.guild) = 500%nat
  /\ add_song Samples.queue_full Samples.guild (Samples.song 9) Samples.alice
     = (false, Samples.queue_full)
  /\ exists qm',
       add_song Samples.queue_abc Samples.guild (Samples.song 9) Samples.alice
       = (true, qm')
       /\ queue_of qm' Samples.guild
          = [Samples.entry 1; Samples.entry 2; Samples.entry 3;
             {| song_info := Samples.song 9; requester := Samples.alice |}].
Proof.
  split; [reflexivity|]. split; [reflexivity|]. split.
  - apply (add_song_bounded Samples.queue_full Samples.guild
             (Samples.song 9) Samples.alice); reflexivity.
  - destruct (proj2 (add_song_bounded Samples.queue_abc Samples.guild
                       (Samples.song 9) Samples.alice eq_refl))
      as (qm' & Hadd & Hq & _).
    + vm_compute. lia.
    + exists qm'. split; [exact Hadd | exact Hq].
Defined.

(** C6, at the input where the code departs from it: on the queue
    [[e1; e2; e3]] the index [-1] lies outside [0 <= i < 3], yet
    [remove_song] returns [True] and drops the last entry. *)
Theorem remove_song_negative_index :
  queue_of Samples.queue_abc Samples.guild
    = [Samples.entry 1; Samples.entry 2; Samples.entry 3]
  /\ fst (remove_song Samples.queue_abc Samples.guild (-1)) = true
  /\ queue_of (snd (remove_song Samples.queue_abc Samples.guild (-1)))
              Samples.guild
     = [Samples.entry 1; Samples.entry 2].
Proof. repeat split; vm_compute; reflexivity. Qed.

(** C7. With both indices inside [0 <= _ < len], [move_song] returns
    [True]; the entry that was at [old_index] is at [new_index]
    afterwards, and taking the moved entry out of the old and of the new
    queue leaves the same list, so every other entry keeps its place
    relative to the others.  With an index outside the range it returns
    [False] and every guild's queue is as before. *)
Theorem move_song_spec qm g i j :
  let q := queue_of qm g in
  let L := Z.of_nat (length q) in
  (0 <= i < L -> 0 <= j < L ->
     exists qm',
       move_song qm g i j = (true, qm')
       /\ queue_of qm' g !! Z.to_nat j = q !! Z.to_nat i
       /\ delete (Z.to_nat j) (queue_of qm' g) = delete (Z.to_nat i) q
       /\ length (queue_of qm' g) = length q
       /\ forall g', g' <> g -> queue_of qm' g' = queue_of qm g')
  /\ (~ (0 <= i < L /\ 0 <= j < L) ->
        exists qm',
          move_song qm g i j = (false, qm')
          /\ forall g', queue_of qm' g' = queue_of qm g').
Proof.
  intros q L. split.
  - intros Hi Hj. unfold move_song, getitem. fold q. fold L.
    destruct (Z.leb_spec 0 i); [|lia]. destruct (Z.ltb_spec i L); [|lia].
    destruct (Z.leb_spec 0 j); [|lia]. destruct (Z.ltb_spec j L); [|lia].
    simpl.
    destruct (pop_in_range q i Hi) as (x & Hx & ->).
    rewrite set_queue_set_queue.
    assert (Hlen : length (delete (Z.to_nat i) q) = (length q - 1)%nat).
    { rewrite length_delete; [lia|]. by exists x. }
    rewrite insert_in_range by (rewrite Hlen; lia).
    set (q1 := delete (Z.to_nat i) q) in *.
    assert (Htk : length (take (Z.to_nat j) q1) = Z.to_nat j).
    { rewrite length_take. lia. }
    eexists; split; [done|]. rewrite queue_of_set_queue.
    split; [|split; [|split]].
    + rewrite Hx. rewrite <- Htk at 1. apply list_lookup_middle. done.
    + rewrite <- Htk at 1. rewrite delete_middle. apply take_drop.
    + rewrite length_app. simpl. rewrite Htk, length_drop. lia.
    + intros g' Hne. by apply queue_of_set_queue_ne.
  - intros Hbad. unfold move_song, getitem. fold q. fold L.
    assert (Hc : (0 <=? i) && (i <? L) && (0 <=? j) && (j <? L) = false).
    { destruct (Z.leb_spec 0 i), (Z.ltb_spec i L),
        (Z.leb_spec 0 j), (Z.ltb_spec j L); simpl; try reflexivity; lia. }
    rewrite Hc. simpl. eexists; split; [done|].
    intros g'. destruct (decide (g' = g)) as [->|Hne].
    + apply queue_of_set_queue.
    + by apply queue_of_set_queue_ne.
Qed.

Lemma move_song_spec_witness :
  (exists qm',
     move_song Samples.queue_abc Samples.guild 0 2 = (true, qm')
     /\ queue_of qm' Samples.guild !! 2%nat = Some (Samples.entry 1)
     /\ delete 2%nat (queue_of qm' Samples.guild)
        = [Samples.entry 2; Samples.entry 3])
  /\ (exists qm',
        move_song Samples.queue_abc Samples.guild 0 3 = (false, qm')
        /\ queue_of qm' Samples.guild
           = [Samples.entry 1; Samples.entry 2; Samples.entry 3]).
Proof.
  split.
  - destruct (proj1 (move_song_spec Samples.queue_abc Samples.guild 0 2))
      as (qm' & Hm & Hat & Hrest & _).
    + vm_compute. split; [discriminate | reflexivity].
    + vm_compute. split; [discriminate | reflexivity].
    + exists qm'. split; [exact Hm|]. split; [exact Hat | exact Hrest].
  - destruct (proj2 (move_song_spec Samples.queue_abc Samples.guild 0 3))
      as (qm' & Hm & Hsame).
    + vm_compute. intros [_ [_ Hlt]]. discriminate Hlt.
    + exists qm'. split; [exact Hm | apply Hsame].
Defined.

End QueueFacts.

(** ** Stable sorting by a key *)

Section SortedFacts.
Context {A : Type} (key : A -> Z).

Lemma place_perm x l : PySorted.place key x l ≡ₚ x :: l.
Proof.
  induction l as [|y l IH]; simpl; [done|].
  destruct (key x <=? key y); [done|].
  rewrite IH. apply Permutation_swap.
Qed.

Lemma sorted_perm l : PySorted.sorted key l ≡ₚ l.
Proof.
  induction l as [|x l IH]; simpl; [done|].
  by rewrite place_perm, IH.
Qed.

Lemma place_sorted x l :
  StronglySorted (PySorted.key_le key) l -> StronglySorted (PySorted.key_le key) (PySorted.place key x l).
Proof.
  induction 1 as [|y l Hs IH Hall]; simpl.
  - repeat constructor.
  - destruct (Z.leb_spec (key x) (key y)) as [Hle|Hgt].
    + constructor; [by constructor|].
      constructor; [exact Hle|].
      eapply Forall_impl; [exact Hall|]. unfold PySorted.key_le. simpl. intros; lia.
    + constructor; [exact IH|].
      rewrite place_perm. constructor; [unfold PySorted.key_le; lia | exact Hall].
Qed.

Lemma sorted_sorted l : StronglySorted (PySorted.key_le key) (PySorted.sorted key l).
Proof.
  induction l as [|x l IH]; simpl; [constructor|]. by apply place_sorted.
Qed.

(** The first [n] elements of the sorted list are below all the others. *)
Lemma sorted_take_le l n r k :
  r ∈ take n (PySorted.sorted key l) ->
  k ∈ l -> k ∉ take n (PySorted.sorted key l) ->
  key r <= key k.
Proof.
  intros Hr Hk Hnk.
  pose proof (sorted_sorted l) as Hs.
  rewrite <- (take_drop n (PySorted.sorted key l)) in Hs.
  apply (StronglySorted_app_1_elem_of (PySorted.key_le key) _ _ r k Hs Hr).
  rewrite <- sorted_perm, <- (take_drop n (PySorted.sorted key l)) in Hk.
  apply elem_of_app in Hk as [Hk|Hk]; [done|exact Hk].
Qed.
End SortedFacts.

(** ** The dict *)

Section DictFacts.
Context {E : Type}.
Implicit Types (d : PyDict.dict E) (k : string) (e : E).

Lemma get_None_keys d k : PyDict.get d k = None <-> k ∉ PyDict.keys d.
Proof.
  unfold PyDict.keys. induction d as [|[k' e'] d IH]; simpl.
  - split; [intros _; apply not_elem_of_nil | done].
  - rewrite not_elem_of_cons. destruct (String.eqb_spec k' k) as [->|Hne].
    + split; [done | intros [? _]; done].
    + rewrite IH. split; [intros ?; split; [congruence|done] | intros [_ ?]; done].
Qed.

Lemma get_Some_elem d k e :
  PyDict.get d k = Some e -> (k, e) ∈ d.
Proof.
  induction d as [|[k' e'] d IH]; simpl; [done|].
  destruct (String.eqb_spec k' k) as [->|Hne].
  - intros [= ->]. apply list_elem_of_here.
  - intros H. apply list_elem_of_further. by apply IH.
Qed.

Lemma get_elem_NoDup d k e :
  NoDup (PyDict.keys d) -> (k, e) ∈ d -> PyDict.get d k = Some e.
Proof.
  unfold PyDict.keys. induction d as [|[k' e'] d IH]; simpl.
  - intros _ H. by apply elem_of_nil in H.
  - rewrite NoDup_cons. intros [Hnin Hnd] Hin.
    apply elem_of_cons in Hin as [[= -> ->]|Hin].
    + by rewrite String.eqb_refl.
    + destruct (String.eqb_spec k' k) as [->|Hne]; [|by apply IH].
      exfalso. apply Hnin. apply list_elem_of_fmap. by exists (k, e).
Qed.

Lemma keys_set d k e :
  PyDict.keys (PyDict.set d k e)
  = if decide (k ∈ PyDict.keys d) then PyDict.keys d
    else PyDict.keys d ++ [k].
Proof.
  unfold PyDict.keys. induction d as [|[k' e'] d IH].
  - case_decide as H; [by apply elem_of_nil in H | reflexivity].
  - cbn [PyDict.set]. destruct (String.eqb_spec k' k) as [->|Hne].
    + rewrite !fmap_cons. cbn [fst].
      destruct (decide (k ∈ k :: d.*1)) as [_|H]; [reflexivity|].
      exfalso. apply H, list_elem_of_here.
    + rewrite !fmap_cons, IH. cbn [fst].
      destruct (decide (k ∈ d.*1)) as [Hin|Hnin];
        destruct (decide (k ∈ k' :: d.*1)) as [Hin'|Hnin'].
      * reflexivity.
      * exfalso. apply Hnin'. by apply list_elem_of_further.
      * apply elem_of_cons in Hin' as [->|?]; done.
      * reflexivity.
Qed.

Lemma NoDup_keys_set d k e :
  NoDup (PyDict.keys d) -> NoDup (PyDict.keys (PyDict.set d k e)).
Proof.
  intros Hnd. rewrite keys_set. destruct (decide _) as [|Hnin]; [done|].
  apply NoDup_app. split; [done|]. split; [|apply NoDup_singleton].
  intros x Hx Hx'. apply list_elem_of_singleton in Hx' as ->. done.
Qed.

Lemma get_set_eq d k e : PyDict.get (PyDict.set d k e) k = Some e.
Proof.
  induction d as [|[k' e'] d IH]; simpl.
  - by rewrite String.eqb_refl.
  - destruct (String.eqb_spec k' k) as [->|Hne]; simpl.
    + by rewrite String.eqb_refl.
    + destruct (String.eqb_spec k' k); [done | exact IH].
Qed.

Lemma get_set_ne d k k' e :
  k' <> k -> PyDict.get (PyDict.set d k e) k' = PyDict.get d k'.
Proof.
  intros Hne. induction d as [|[k0 e0] d IH]; simpl.
  - destruct (String.eqb_spec k k'); [congruence | done].
  - destruct (String.eqb_spec k0 k) as [->|Hne0]; simpl.
    + destruct (String.eqb_spec k k'); [congruence | done].
    + destruct (String.eqb_spec k0 k'); [done | exact IH].
Qed.

(** Deleting keys one after the other keeps exactly the items under the
    other keys, in their order. *)
Lemma foldl_del d ks :
  foldl PyDict.del d ks = filter (fun kv => fst kv ∉ ks) d.
Proof.
  revert d. induction ks as [|k ks IH]; intros d; simpl.
  - induction d as [|kv d IHd]; [done|].
    rewrite filter_cons. destruct (decide (kv.1 ∉ [])) as [_|H].
    + by rewrite <- IHd.
    + exfalso. apply H, not_elem_of_nil.
  - rewrite IH. unfold PyDict.del. rewrite list_filter_filter.
    apply list_filter_iff. intros [k' e']; simpl.
    rewrite not_elem_of_cons. tauto.
Qed.

Lemma keys_filter (P : string -> Prop) `{!forall k, Decision (P k)} d :
  PyDict.keys (filter (fun kv => P (fst kv)) d) = filter P (PyDict.keys d).
Proof.
  unfold PyDict.keys. induction d as [|[k e] d IH]; [done|].
  rewrite fmap_cons. simpl fst.
  destruct (decide (P k)) as [HP|HP].
  - rewrite !filter_cons_True by done. by rewrite fmap_cons, IH.
  - by rewrite !filter_cons_False.
Qed.

Lemma keys_filter_notin d (ks : list string) :
  PyDict.keys (filter (fun kv => fst kv ∉ ks) d)
  = filter (fun k => k ∉ ks) (PyDict.keys d).
Proof. exact (keys_filter (fun k => k ∉ ks) d). Qed.

Lemma length_filter_out d ks :
  NoDup (PyDict.keys d) -> NoDup ks -> ks ⊆ PyDict.keys d ->
  (length (filter (fun kv => fst kv ∉ ks) d) + length ks = length d)%nat.
Proof.
  intros Hd Hks Hsub.
  assert (Hk : length (filter (fun kv => fst kv ∉ ks) d)
               = length (filter (fun k => k ∉ ks) (PyDict.keys d))).
  { rewrite <- (keys_filter (fun k => k ∉ ks) d).
    unfold PyDict.keys. rewrite length_fmap. reflexivity. }
  assert (Hperm : filter (fun k => k ∈ ks) (PyDict.keys d) ≡ₚ ks).
  { apply NoDup_Permutation; [by apply NoDup_filter | done |].
    intros x. rewrite list_elem_of_filter. split; [tauto|].
    intros Hx. split; [done | by apply Hsub]. }
  pose proof (filter_app_complement (fun k => k ∈ ks) (PyDict.keys d)) as Hc.
  apply Permutation_length in Hc. rewrite length_app in Hc.
  apply Permutation_length in Hperm.
  unfold PyDict.keys in Hc at 3. rewrite length_fmap in Hc.
  rewrite Hk. lia.
Qed.
End DictFacts.

(** ** The result cache *)

Section CacheFacts.
Context {V W Arg : Type} (str : Arg -> string).
Import Cache.

Abbreviation AsyncLRUCache := (@AsyncLRUCache V).
Abbreviation Func := (@Func V W Arg).
Abbreviation Call := (@Call V W Arg).

Lemma oldest_keys_length (d : PyDict.dict (@CacheEntry V)) m :
  0 <= m ->
  length (oldest_keys d m) = Z.to_nat (PyDict.len d - m).
Proof.
  intros Hm. unfold oldest_keys. rewrite length_take.
  rewrite (Permutation_length (sorted_perm _ _)).
  unfold PyDict.keys, PyDict.len. rewrite length_fmap. lia.
Qed.

Lemma oldest_keys_subseteq (d : PyDict.dict (@CacheEntry V)) m :
  oldest_keys d m ⊆ PyDict.keys d.
Proof.
  unfold oldest_keys. intros k Hk. apply subseteq_take in Hk.
  by rewrite sorted_perm in Hk.
Qed.

Lemma oldest_keys_NoDup (d : PyDict.dict (@CacheEntry V)) m :
  NoDup (PyDict.keys d) -> NoDup (oldest_keys d m).
Proof.
  intros Hnd. unfold oldest_keys.
  eapply sublist_NoDup; [|apply sublist_take]. by rewrite sorted_perm.
Qed.

Lemma oldest_keys_soonest (d : PyDict.dict (@CacheEntry V)) m r k :
  r ∈ oldest_keys d m -> k ∈ PyDict.keys d -> k ∉ oldest_keys d m ->
  expires_of d r <= expires_of d k.
Proof. unfold oldest_keys. apply sorted_take_le. Qed.

Lemma trim_cache (c : AsyncLRUCache) :
  cache (trim c)
  = filter (fun kv => fst kv ∉ oldest_keys (cache c) (maxsize c)) (cache c).
Proof.
  rewrite <- foldl_del. unfold trim.
  destruct (Z.ltb_spec (maxsize c) (PyDict.len (cache c))) as [Hlt|Hge];
    [reflexivity|].
  unfold oldest_keys.
  replace (Z.to_nat (PyDict.len (cache c) - maxsize c)) with 0%nat by lia.
  reflexivity.
Qed.

Lemma trim_len (c : AsyncLRUCache) :
  wf c -> 0 <= maxsize c -> PyDict.len (cache (trim c)) <= maxsize c.
Proof.
  intros Hwf Hm. rewrite trim_cache.
  pose proof (length_filter_out (cache c) (oldest_keys (cache c) (maxsize c))
                Hwf (oldest_keys_NoDup _ _ Hwf) (oldest_keys_subseteq _ _)) as Hl.
  rewrite oldest_keys_length in Hl by done.
  unfold PyDict.len in *. lia.
Qed.

Lemma trim_wf (c : AsyncLRUCache) : wf c -> wf (trim c).
Proof.
  unfold wf. intros Hwf. rewrite trim_cache.
  rewrite keys_filter_notin.
  by apply NoDup_filter.
Qed.

Lemma trim_maxsize (c : AsyncLRUCache) : maxsize (trim c) = maxsize c.
Proof. unfold trim. by destruct (_ <? _). Qed.

(** The three ways a call can go. *)
Lemma get_or_compute_hit_fast c (func : Func) args kwargs clk w entry :
  live_entry c (_generate_key str (func_name func) args kwargs) (t_fast clk)
    = Some entry ->
  get_or_compute str c func args kwargs clk w
  = (Returned (value entry), with_hits c (hits c + 1), w).
Proof. intros H. unfold get_or_compute. by rewrite H. Qed.

Lemma get_or_compute_hit_lock c (func : Func) args kwargs clk w entry :
  live_entry c (_generate_key str (func_name func) args kwargs) (t_fast clk)
    = None ->
  live_entry c (_generate_key str (func_name func) args kwargs) (t_lock clk)
    = Some entry ->
  get_or_compute str c func args kwargs clk w
  = (Returned (value entry), with_hits c (hits c + 1), w).
Proof. intros H1 H2. unfold get_or_compute. by rewrite H1, H2. Qed.

Lemma get_or_compute_miss c (func : Func) args kwargs clk w :
  live_entry c (_generate_key str (func_name func) args kwargs) (t_fast clk)
    = None ->
  live_entry c (_generate_key str (func_name func) args kwargs) (t_lock clk)
    = None ->
  get_or_compute str c func args kwargs clk w
  = match call func args kwargs w with
    | (Returned result, w') =>
        (Returned result,
         trim (with_cache (with_misses c (misses c + 1))
                 (PyDict.set (cache c)
                    (_generate_key str (func_name func) args kwargs)
                    (CacheEntry_init result (ttl c) (t_store clk)))),
         w')
    | (Raised e, w') => (Raised e, with_misses c (misses c + 1), w')
    end.
Proof. intros H1 H2. unfold get_or_compute. by rewrite H1, H2. Qed.

Lemma get_or_compute_inv m t c (func : Func) args kwargs clk w :
  0 <= m -> inv m t c ->
  inv m t (snd (fst (get_or_compute str c func args kwargs clk w))).
Proof.
  intros Hm (Hwf & Hmax & Httl & Hlen). unfold get_or_compute.
  destruct (live_entry c _ (t_fast clk)); [done|].
  destruct (live_entry c _ (t_lock clk)); [done|].
  destruct (call func args kwargs w) as [[result|e] w']; [|done].
  cbn [fst snd].
  set (c1 := with_cache _ _).
  assert (Hwf1 : wf c1) by (apply NoDup_keys_set, Hwf).
  repeat split.
  - by apply trim_wf.
  - by rewrite trim_maxsize.
  - unfold trim. by destruct (_ <? _).
  - rewrite <- Hmax. change (maxsize c) with (maxsize c1).
    apply trim_len; [done|]. simpl. lia.
Qed.

Lemma step_inv m t (st : AsyncLRUCache * W) (k : Call) :
  0 <= m -> inv m t (fst st) -> inv m t (fst (step str st k)).
Proof.
  intros Hm Hinv. unfold step.
  pose proof (get_or_compute_inv m t (fst st) (call_func k) (call_args k)
                (call_kwargs k) (call_clock k) (snd st) Hm Hinv) as H.
  by destruct (get_or_compute _ _ _ _ _ _ _) as [[r c] w].
Qed.

Lemma run_calls_inv m t (calls : list Call) (st : AsyncLRUCache * W) :
  0 <= m -> inv m t (fst st) -> inv m t (fst (run_calls str calls st)).
Proof.
  intros Hm. revert st. unfold run_calls.
  induction calls as [|k calls IH]; intros st Hinv; simpl; [done|].
  apply IH. by apply step_inv.
Qed.

Lemma init_inv nm m t : 0 <= m -> inv m t (@init V nm m t).
Proof. intros Hm. repeat split; [apply NoDup_nil_2 | exact Hm]. Qed.

(** C1. Take a cache built with capacity [maxsize >= 0] and run any
    sequence of [get_or_compute] calls on it.  The number of stored
    entries is then at most [maxsize].  If the next call is an insertion
    (no live entry under its key at either check, and the compute function
    returns), let [stored] be the dict right after the new entry is
    written.  The call deletes a list [removed] of distinct keys of
    [stored], of length [len(stored) - maxsize] (none when the count does
    not exceed [maxsize]); every deleted key expires no later than every
    key that is kept; every other item is kept, with its value and in its
    place; and the count is at most [maxsize] again. *)
Theorem eviction_bound nm m t (calls : list Call) (w0 : W) :
  0 <= m ->
  let c := fst (run_calls str calls (init nm m t, w0)) in
  let w := snd (run_calls str calls (init nm m t, w0)) in
  PyDict.len (cache c) <= m
  /\ forall (func : Func) args kwargs clk result w',
       let key := _generate_key str (func_name func) args kwargs in
       live_entry c key (t_fast clk) = None ->
       live_entry c key (t_lock clk) = None ->
       call func args kwargs w = (Returned result, w') ->
       let stored :=
         PyDict.set (cache c) key (CacheEntry_init result t (t_store clk)) in
       exists removed c',
         get_or_compute str c func args kwargs clk w = (Returned result, c', w')
         /\ cache c' = filter (fun kv => fst kv ∉ removed) stored
         /\ length removed = Z.to_nat (PyDict.len stored - m)
         /\ NoDup removed
         /\ removed ⊆ PyDict.keys stored
         /\ (forall r k, r ∈ removed -> k ∈ PyDict.keys stored ->
                         k ∉ removed ->
                         expires_of stored r <= expires_of stored k)
         /\ PyDict.len (cache c') <= m.
Proof.
  intros Hm c w.
  assert (Hinv : inv m t c).
  { apply run_calls_inv; [done|]. by apply init_inv. }
  destruct Hinv as (Hwf & Hmax & Httl & Hlen).
  split; [exact Hlen|].
  intros func args kwargs clk result w' key Hf Hl Hcall stored.
  set (c1 := with_cache (with_misses c (misses c + 1)) stored).
  assert (Hwf1 : wf c1) by (apply NoDup_keys_set, Hwf).
  exists (oldest_keys stored m), (trim c1).
  split; [|split; [|split; [|split; [|split; [|split]]]]].
  - rewrite get_or_compute_miss by done. rewrite Hcall, Httl. reflexivity.
  - rewrite trim_cache. simpl. by rewrite Hmax.
  - by apply oldest_keys_length.
  - by apply oldest_keys_NoDup.
  - apply oldest_keys_subseteq.
  - intros r k. apply oldest_keys_soonest.
  - rewrite <- Hmax. change (maxsize c) with (maxsize c1).
    apply trim_len; [done|]. simpl. lia.
Qed.

End CacheFacts.

(** *** Expiry and failed computations *)

Section CacheExpiryFacts.
Context {V W Arg : Type} (str : Arg -> string).
Import Cache.

Abbreviation AsyncLRUCache' := (@AsyncLRUCache V).
Abbreviation Func' := (@Func V W Arg).
Abbreviation dictV := (PyDict.dict (@CacheEntry V)).

Lemma is_expired_iff (entry : @CacheEntry V) now :
  is_expired entry now = true <-> expires_at entry < now.
Proof. unfold is_expired. apply Z.ltb_lt. Qed.

Lemma live_entry_None (c : AsyncLRUCache') key now :
  live_entry c key now = None
  <-> forall entry, PyDict.get (cache c) key = Some entry ->
                    expires_at entry < now.
Proof.
  unfold live_entry. destruct (PyDict.get (cache c) key) as [entry|].
  - unfold is_expired. destruct (Z.ltb_spec (expires_at entry) now); simpl.
    + split; [intros _ ? [= <-]; done | done].
    + split; [done|]. intros Hall. specialize (Hall entry eq_refl). lia.
  - split; [intros _ ? [=] | done].
Qed.

(** A miss stays a miss when the clock does not run backwards and the
    dict is the same. *)
Lemma live_entry_None_later (c c' : AsyncLRUCache') key now now' :
  cache c' = cache c -> now <= now' ->
  live_entry c key now = None -> live_entry c' key now' = None.
Proof.
  intros Hc Hle. rewrite !live_entry_None, Hc.
  intros Hall entry He. specialize (Hall entry He). lia.
Qed.

Lemma expired_keys_spec (d : dictV) reads k :
  k ∈ expired_keys d reads
  <-> exists i entry, d !! i = Some (k, entry)
                      /\ is_expired entry (reads i) = true.
Proof.
  revert reads. induction d as [|[k0 e0] d IH]; intros reads; simpl.
  - split; [intros Hk; by apply elem_of_nil in Hk|].
    intros (i & entry & Hk & _). by rewrite lookup_nil in Hk.
  - assert (Htl : k ∈ expired_keys d (fun i => reads (S i))
                  <-> exists i entry, ((k0, e0) :: d) !! S i = Some (k, entry)
                        /\ is_expired entry (reads (S i)) = true)
      by apply IH.
    destruct (is_expired e0 (reads 0%nat)) eqn:He0.
    + rewrite elem_of_cons, Htl. split.
      * intros [->|(i & entry & H1 & H2)].
        -- by exists 0%nat, e0.
        -- by exists (S i), entry.
      * intros ([|i] & entry & H1 & H2).
        -- left. by injection H1.
        -- right. by exists i, entry.
    + rewrite Htl. split.
      * intros (i & entry & H1 & H2). by exists (S i), entry.
      * intros ([|i] & entry & H1 & H2).
        -- injection H1 as -> ->. congruence.
        -- by exists i, entry.
Qed.

Lemma get_filter_notin (d : dictV) (ks : list string) k :
  PyDict.get (filter (fun kv => fst kv ∉ ks) d) k
  = if decide (k ∈ ks) then None else PyDict.get d k.
Proof.
  induction d as [|[k0 e0] d IH].
  - by destruct (decide (k ∈ ks)).
  - rewrite filter_cons. simpl fst.
    destruct (decide (k0 ∉ ks)) as [Hk0|Hk0]; simpl;
      destruct (String.eqb_spec k0 k) as [->|Hne]; try exact IH.
    + by destruct (decide (k ∈ ks)).
    + rewrite IH. destruct (decide (k ∈ ks)) as [|Hk]; [done|].
      exfalso. apply Hk0, Hk.
Qed.

Lemma lookup_get_NoDup (d : dictV) i k entry :
  NoDup (PyDict.keys d) -> d !! i = Some (k, entry) ->
  PyDict.get d k = Some entry.
Proof.
  intros Hnd Hi. apply get_elem_NoDup; [done|].
  apply list_elem_of_lookup. by exists i.
Qed.

Lemma cleanup_expired_cache (c : AsyncLRUCache') reads t_end :
  cache (cleanup_expired c reads t_end)
  = filter (fun kv => fst kv ∉ expired_keys (cache c) reads) (cache c).
Proof. unfold cleanup_expired. simpl. apply foldl_del. Qed.

(** An insertion leaves, under the call's key, the entry built from the
    result at the reading [t_store], unless the trim deletes it at once. *)
Lemma get_or_compute_stores (c : AsyncLRUCache') (func : Func') args kwargs
    clk w result w' :
  let key := _generate_key str (func_name func) args kwargs in
  let stored :=
    PyDict.set (cache c) key
      (CacheEntry_init result (ttl c) (t_store clk)) in
  live_entry c key (t_fast clk) = None ->
  live_entry c key (t_lock clk) = None ->
  call func args kwargs w = (Returned result, w') ->
  key ∉ oldest_keys stored (maxsize c) ->
  PyDict.get
    (cache (snd (fst (get_or_compute str c func args kwargs clk w)))) key
  = Some (CacheEntry_init result (ttl c) (t_store clk)).
Proof.
  intros key stored Hfast Hlock Hcall Hkept.
  rewrite get_or_compute_miss by done. rewrite Hcall. cbn [fst snd].
  rewrite trim_cache. cbn [cache maxsize with_cache with_misses].
  fold key. fold stored. rewrite get_filter_notin.
  destruct (decide _) as [Hin|_]; [done|]. apply get_set_eq.
Qed.

(** C2, amended.  Let the dict hold, under a call's key, the entry built
    at time [T] by a cache of ttl [D] (so it expires at [T + D]).  A
    [get_or_compute] whose two clock readings are strictly after [T + D]
    does not return the stored value as a hit: it invokes the compute
    function and returns what that call gives.  A [cleanup_expired] whose
    clock readings are all strictly after [T + D] deletes a set of keys
    that contains this key, so the key has no entry afterwards; every item
    that is not expired at its own reading keeps its value, and the items
    that stay keep their order. *)
Theorem ttl_expiry (c : AsyncLRUCache') (func : Func') args kwargs v T :
  let key := _generate_key str (func_name func) args kwargs in
  wf c ->
  PyDict.get (cache c) key = Some (CacheEntry_init v (ttl c) T) ->
  (forall clk w,
     T + ttl c < t_fast clk -> T + ttl c < t_lock clk ->
     get_or_compute str c func args kwargs clk w
     = match call func args kwargs w with
       | (Returned result, w') =>
           (Returned result,
            trim (with_cache (with_misses c (misses c + 1))
                    (PyDict.set (cache c) key
                       (CacheEntry_init result (ttl c) (t_store clk)))),
            w')
       | (Raised e, w') => (Raised e, with_misses c (misses c + 1), w')
       end)
  /\ (forall reads t_end,
        (forall i, T + ttl c < reads i) ->
        exists removed : list string,
          cache (cleanup_expired c reads t_end)
          = filter (fun kv => fst kv ∉ removed) (cache c)
          /\ key ∈ removed
          /\ PyDict.get (cache (cleanup_expired c reads t_end)) key = None
          /\ forall i k entry,
               cache c !! i = Some (k, entry) ->
               reads i <= expires_at entry ->
               (k ∉ removed)
               /\ PyDict.get (cache (cleanup_expired c reads t_end)) k
                  = Some entry).
Proof.
  intros key Hwf Hget. split.
  - intros clk w Hfast Hlock.
    apply get_or_compute_miss; apply live_entry_None; fold key;
      rewrite Hget; intros ? [= <-]; simpl; lia.
  - intros reads t_end Hreads.
    exists (expired_keys (cache c) reads).
    assert (Hin : key ∈ expired_keys (cache c) reads).
    { apply expired_keys_spec.
      apply get_Some_elem, list_elem_of_lookup in Hget as [i Hi].
      exists i, (CacheEntry_init v (ttl c) T). split; [exact Hi|].
      apply is_expired_iff. simpl. apply Hreads. }
    split; [apply cleanup_expired_cache|]. split; [exact Hin|].
    rewrite cleanup_expired_cache. split.
    + rewrite get_filter_notin. by destruct (decide _).
    + intros i k entry Hi Hlive.
      assert (Hk : k ∉ expired_keys (cache c) reads).
      { intros Hk. apply expired_keys_spec in Hk as (j & entry' & Hj & Hexp).
        assert (i = j) as <-.
        { apply (NoDup_lookup (PyDict.keys (cache c)) i j k Hwf);
            unfold PyDict.keys; rewrite list_lookup_fmap.
          - by rewrite Hi.
          - by rewrite Hj. }
        rewrite Hi in Hj. injection Hj as <-.
        apply is_expired_iff in Hexp. lia. }
      split; [exact Hk|]. rewrite get_filter_notin.
      destruct (decide _) as [|_]; [done|].
      by apply (lookup_get_NoDup _ i).
Qed.

(** C4, amended.  If [get_or_compute] reaches the compute function (no
    live entry under the key at either check) and that call raises, then
    [get_or_compute] raises the same error and the dict is exactly as
    before: nothing is stored for the key, so a key that had no entry
    still has none, while an expired entry under the key stays.  A later
    [get_or_compute] for the same key, on a clock that has not gone back,
    invokes the compute function again. *)
Theorem failed_compute_not_cached (c : AsyncLRUCache') (func : Func')
    args kwargs clk w e w' :
  let key := _generate_key str (func_name func) args kwargs in
  live_entry c key (t_fast clk) = None ->
  live_entry c key (t_lock clk) = None ->
  call func args kwargs w = (Raised e, w') ->
  exists c',
    get_or_compute str c func args kwargs clk w = (Raised e, c', w')
    /\ cache c' = cache c
    /\ (PyDict.get (cache c) key = None -> PyDict.get (cache c') key = None)
    /\ (forall clk2 w2,
         t_lock clk <= t_fast clk2 -> t_lock clk <= t_lock clk2 ->
         get_or_compute str c' func args kwargs clk2 w2
         = match call func args kwargs w2 with
           | (Returned result, w3) =>
               (Returned result,
                trim (with_cache (with_misses c' (misses c' + 1))
                        (PyDict.set (cache c') key
                           (CacheEntry_init result (ttl c') (t_store clk2)))),
                w3)
           | (Raised e2, w3) =>
               (Raised e2, with_misses c' (misses c' + 1), w3)
           end).
Proof.
  intros key Hfast Hlock Hcall.
  exists (with_misses c (misses c + 1)).
  split; [|split; [reflexivity|split; [done|]]].
  - rewrite get_or_compute_miss by done. by rewrite Hcall.
  - intros clk2 w2 H1 H2. apply get_or_compute_miss; fold key.
    + by apply (live_entry_None_later c _ key (t_lock clk)).
    + by apply (live_entry_None_later c _ key (t_lock clk)).
Qed.


End CacheExpiryFacts.

(** *** The eviction bound on a concrete run *)

(** Capacity 2, ttl 100; keys stored at times 0, 10 and 20: the first one
    is evicted, the other two stay. *)
Example eviction_scenario :
  PyDict.keys
    (Cache.cache
       (fst (Cache.run_calls id
               [CacheSamples.lookup "k1" 0; CacheSamples.lookup "k2" 10;
                CacheSamples.lookup "k3" 20]
               (CacheSamples.small, 0%nat))))
  = ["fetch:k2:"; "fetch:k3:"].
Proof. vm_compute. reflexivity. Qed.

Lemma eviction_bound_witness :
  0 <= 2
  /\ exists (removed : list string) c',
       Cache.get_or_compute id
         (fst (Cache.run_calls id
                 [CacheSamples.lookup "k1" 0; CacheSamples.lookup "k2" 10]
                 (Cache.init "youtube" 2 100, 0%nat)))
         CacheSamples.fetch ["k3"] [] (CacheSamples.at_time 20) 2%nat
       = (Returned 2, c', 3%nat)
       /\ length removed = 1%nat
       /\ PyDict.len (Cache.cache c') <= 2.
Proof.
  split; [lia|].
  destruct (proj2 (eviction_bound id "youtube" 2 100
                     [CacheSamples.lookup "k1" 0; CacheSamples.lookup "k2" 10]
                     0%nat ltac:(lia))
              CacheSamples.fetch ["k3"] [] (CacheSamples.at_time 20) 2 3%nat
              eq_refl eq_refl eq_refl)
    as (removed & c' & Hrun & _ & Hlen & _ & _ & _ & Hbound).
  exists removed, c'. split; [exact Hrun|]. split; [exact Hlen | exact Hbound].
Defined.

(** *** Expiry at the boundary, and a failed computation over a stale entry *)

Lemma one_entry_wf : Cache.wf CacheSamples.one_entry.
Proof. unfold Cache.wf. vm_compute. apply NoDup_singleton. Qed.

(** The entry stored at time 0 with ttl 100 is still served as a hit at
    time 100, and is only recomputed at time 101. *)
Example hit_at_expiry_time :
  Cache.get_or_compute id CacheSamples.one_entry CacheSamples.fetch ["k1"] []
    (CacheSamples.at_time 100) 1%nat
  = (Returned 0, Cache.with_hits CacheSamples.one_entry 1, 1%nat).
Proof. vm_compute. reflexivity. Qed.

(** C2 as stated, with "at a time >= T + D", fails: at time [T + D]
    exactly the compute function is not invoked (the world is left as it
    was) and [cleanup_expired] keeps the entry. *)
Lemma ttl_boundary_counterexample :
  ~ (forall (c : @Cache.AsyncLRUCache Z) (func : @Cache.Func Z nat string)
            args kwargs v T,
       let key := Cache._generate_key id (Cache.func_name func) args kwargs in
       Cache.wf c ->
       PyDict.get (Cache.cache c) key
         = Some (Cache.CacheEntry_init v (Cache.ttl c) T) ->
       (forall clk w,
          T + Cache.ttl c <= Cache.t_fast clk ->
          T + Cache.ttl c <= Cache.t_lock clk ->
          snd (Cache.get_or_compute id c func args kwargs clk w)
          = snd (Cache.call func args kwargs w))
       /\ (forall reads t_end,
             (forall i : nat, T + Cache.ttl c <= reads i) ->
             PyDict.get (Cache.cache (Cache.cleanup_expired c reads t_end)) key
             = None)).
Proof.
  intros Hclaim.
  destruct (Hclaim CacheSamples.one_entry CacheSamples.fetch ["k1"] [] 0 0
              one_entry_wf eq_refl) as [Hread _].
  assert (Hle : 0 + Cache.ttl CacheSamples.one_entry <= 100)
    by (vm_compute; discriminate).
  specialize (Hread (CacheSamples.at_time 100) 1%nat Hle Hle).
  vm_compute in Hread. discriminate Hread.
Qed.

(** C4 as stated fails: when the key holds an expired entry and the
    compute function raises, the entry is still in the dict afterwards. *)
Lemma stale_entry_counterexample :
  ~ (forall (c : @Cache.AsyncLRUCache Z) (func : @Cache.Func Z nat string)
            args kwargs clk w e c' w',
       Cache.get_or_compute id c func args kwargs clk w = (Raised e, c', w') ->
       PyDict.get (Cache.cache c')
         (Cache._generate_key id (Cache.func_name func) args kwargs) = None).
Proof.
  intros Hclaim.
  specialize (Hclaim CacheSamples.one_entry CacheSamples.fetch_fails ["k1"] []
                (CacheSamples.at_time 200) 1%nat
                (Exception "unavailable")
                (Cache.with_misses CacheSamples.one_entry 2) 2%nat eq_refl).
  vm_compute in Hclaim. discriminate Hclaim.
Qed.

Lemma ttl_expiry_witness :
  snd (Cache.get_or_compute id CacheSamples.one_entry CacheSamples.fetch
         ["k1"] [] (CacheSamples.at_time 101) 1%nat) = 2%nat
  /\ PyDict.get
       (Cache.cache
          (Cache.cleanup_expired CacheSamples.one_entry (fun _ => 101) 101))
       "fetch:k1:" = None.
Proof.
  destruct (ttl_expiry id CacheSamples.one_entry CacheSamples.fetch ["k1"] []
              0 0 one_entry_wf eq_refl) as [Hread Hclean].
  split.
  - rewrite Hread; [reflexivity | reflexivity | reflexivity].
  - destruct (Hclean (fun _ => 101) 101) as (removed & _ & _ & Hnone & _).
    + intros _. reflexivity.
    + exact Hnone.
Defined.

Lemma failed_compute_not_cached_witness :
  exists c',
    Cache.get_or_compute id CacheSamples.small CacheSamples.fetch_fails
      ["k1"] [] (CacheSamples.at_time 5) 0%nat
    = (Raised (Exception "unavailable"), c', 1%nat)
    /\ Cache.cache c' = []
    /\ snd (Cache.get_or_compute id c' CacheSamples.fetch_fails
              ["k1"] [] (CacheSamples.at_time 6) 1%nat) = 2%nat.
Proof.
  destruct (failed_compute_not_cached id CacheSamples.small
              CacheSamples.fetch_fails ["k1"] [] (CacheSamples.at_time 5)
              0%nat (Exception "unavailable") 1%nat eq_refl eq_refl eq_refl)
    as (c' & Hrun & Hsame & _ & Hagain).
  exists c'. split; [exact Hrun|]. split; [exact Hsame|].
  rewrite Hagain; [reflexivity | discriminate | discriminate].
Defined.

(** ** Playback state *)

Section PlayerFacts.
Import Player.

Lemma pause_cycle_unfold ps g p r :
  pause_cycle g ps (p, r)
  = {| current_songs := current_songs ps;
       voice_clients := voice_clients ps;
       song_start_times := song_start_times ps;
       pause_durations :=
         <[g := default 0 (pause_durations ps !! g) + (r - p)]>
           (pause_durations ps);
       last_pause_time := delete g (last_pause_time ps) |}.
Proof.
  unfold pause_cycle, handle_resume, handle_pause; simpl.
  rewrite lookup_insert_eq. simpl. by rewrite delete_insert_eq.
Qed.

(** After any number of closed cycles the start time is untouched, the
    accumulated duration has grown by the total of the cycles, and no pause
    is open when none was open before. *)
Lemma pause_cycles_fields g cycles ps :
  let ps' := pause_cycles g cycles ps in
  current_songs ps' = current_songs ps
  /\ voice_clients ps' = voice_clients ps
  /\ song_start_times ps' = song_start_times ps
  /\ default 0 (pause_durations ps' !! g)
     = default 0 (pause_durations ps !! g) + total_paused cycles
  /\ (last_pause_time ps !! g = None -> last_pause_time ps' !! g = None).
Proof.
  revert ps. unfold pause_cycles.
  induction cycles as [|[p r] cycles IH]; intros ps; simpl.
  - repeat split; try done. lia.
  - destruct (IH (pause_cycle g ps (p, r))) as (H1 & H2 & H3 & H4 & H5).
    rewrite pause_cycle_unfold in *. simpl in *.
    rewrite lookup_insert_eq in H4. simpl in H4.
    repeat split; try done.
    + rewrite H4. lia.
    + intros _. apply H5. apply lookup_delete_eq.
Qed.

(** C8. A session started by [update_song] at time [T0], then paused and
    resumed any number of times ([handle_pause] at the first, [handle_resume]
    at the second reading of each cycle), and queried at time [T] while the
    transport is not paused: the elapsed time of [create_progress_bar] is
    [T - T0 - P], with [P] the total duration of the cycles, and the bar is
    the one rendered from that value. *)
Theorem elapsed_accounting ps g info who T0 cycles vc is_paused
    t_default t_pause T :
  let ps' := pause_cycles g cycles (update_song ps g info who T0) in
  voice_clients ps !! g = Some vc ->
  is_paused vc = false ->
  elapsed ps' (is_paused vc) g t_default t_pause T
    = T - T0 - total_paused cycles
  /\ create_progress_bar ps' is_paused g t_default t_pause T
     = Some (render (T - T0 - total_paused cycles) (duration info) false).
Proof.
  intros ps' Hvc Hplaying.
  destruct (pause_cycles_fields g cycles (update_song ps g info who T0))
    as (Hsongs & Hclients & Hstart & Hpaused & Hopen).
  fold ps' in Hsongs, Hclients, Hstart, Hpaused, Hopen.
  simpl in Hsongs, Hclients, Hstart, Hpaused, Hopen.
  rewrite lookup_insert_eq in Hpaused. simpl in Hpaused.
  specialize (Hopen (lookup_delete_eq _ _)).
  assert (Hel : elapsed ps' (is_paused vc) g t_default t_pause T
                = T - T0 - total_paused cycles).
  { unfold elapsed. rewrite Hstart, Hopen, Hpaused, lookup_insert_eq.
    simpl. lia. }
  split; [exact Hel|].
  unfold create_progress_bar.
  rewrite Hsongs, Hclients, lookup_insert_eq, Hvc, Hel, Hplaying.
  reflexivity.
Qed.

Lemma elapsed_accounting_witness :
  elapsed
    (pause_cycles Samples.guild [(10, 25); (40, 45)]
       (update_song PlayerSamples.connected Samples.guild (Samples.song 180)
          Samples.alice 0))
    false Samples.guild 100 100 100
  = 100 - 0 - 20.
Proof.
  apply (elapsed_accounting PlayerSamples.connected Samples.guild
           (Samples.song 180) Samples.alice 0 [(10, 25); (40, 45)]
           PlayerSamples.handle PlayerSamples.playing 100 100 100);
    reflexivity.
Defined.

(** The bar of that session: 80 of 180 seconds, six of fifteen cells. *)
Example progress_bar_rendered :
  create_progress_bar
    (pause_cycles Samples.guild [(10, 25); (40, 45)]
       (update_song PlayerSamples.connected Samples.guild (Samples.song 180)
          Samples.alice 0))
    PlayerSamples.playing Samples.guild 100 100 100
  = Some "▶️ ▬▬▬▬▬▬🔘▬▬▬▬▬▬▬▬▬ `01:20 / 03:00`".
Proof. vm_compute. reflexivity. Qed.

(** C10. [handle_resume] on a guild with no recorded pause start returns
    the state it was given; in particular a second [handle_resume] in a row
    changes nothing.  A second [handle_pause] in a row is not harmless: it
    replaces the recorded pause start, and the resume that follows
    accumulates from the second one only. *)
Theorem resume_without_pause_is_noop ps g :
  (forall now, last_pause_time ps !! g = None -> handle_resume ps g now = ps)
  /\ (forall t1 t2,
        handle_resume (handle_resume ps g t1) g t2 = handle_resume ps g t1)
  /\ (forall t1 t2,
        handle_pause (handle_pause ps g t1) g t2 = handle_pause ps g t2)
  /\ (forall t1 t2 t3,
        pause_durations
          (handle_resume (handle_pause (handle_pause ps g t1) g t2) g t3) !! g
        = Some (default 0 (pause_durations ps !! g) + (t3 - t2))).
Proof.
  split; [|split; [|split]].
  - intros now Hnone. unfold handle_resume. by rewrite Hnone.
  - intros t1 t2. unfold handle_resume at 1.
    assert (Hnone : last_pause_time (handle_resume ps g t1) !! g = None).
    { unfold handle_resume. destruct (last_pause_time ps !! g) eqn:E; simpl.
      - apply lookup_delete_eq.
      - exact E. }
    by rewrite Hnone.
  - intros t1 t2. unfold handle_pause; simpl. by rewrite insert_insert_eq.
  - intros t1 t2 t3. unfold handle_resume, handle_pause; simpl.
    rewrite lookup_insert_eq. simpl. by rewrite lookup_insert_eq.
Qed.

Lemma resume_without_pause_is_noop_witness :
  last_pause_time PlayerSamples.connected !! Samples.guild = None
  /\ handle_resume PlayerSamples.connected Samples.guild 50
     = PlayerSamples.connected.
Proof.
  split; [reflexivity|].
  apply (proj1 (resume_without_pause_is_noop PlayerSamples.connected
                  Samples.guild)).
  reflexivity.
Defined.

End PlayerFacts.

Section ExtractionFacts.
Context {W : Type} (impl : string -> W -> outcome SongInfo * W).
Import Player.

(** C9. [extract_song_info] first calls [get_or_compute] of the cache on
    the extractor and the query.  If that call returns, its value is the
    result.  If it raises an [Exception], the error is dropped and the
    extractor is called once more, directly, on the world the cache call
    left: the result (or the error) of that call is the outcome, and the
    cache is as the failed call left it.  A cancellation is not an
    [Exception] and passes through. *)
Theorem extract_song_info_fallback youtube_cache query clk (w : W) :
  match Cache.get_or_compute id youtube_cache (impl_func impl) [query] []
          clk w with
  | (Returned info, cache', w') =>
      extract_song_info impl youtube_cache query clk w
      = (Returned info, cache', w')
  | (Raised (Exception what), cache', w') =>
      extract_song_info impl youtube_cache query clk w
      = (fst (impl query w'), cache', snd (impl query w'))
  | (Raised CancelledError, cache', w') =>
      extract_song_info impl youtube_cache query clk w
      = (Raised CancelledError, cache', w')
  end.
Proof.
  unfold extract_song_info.
  destruct (Cache.get_or_compute _ _ _ _ _ _ _) as [[[info|[what|]] c'] w'];
    simpl; try reflexivity.
  by destruct (impl query w').
Qed.

(** The cache call raises exactly when the extractor, invoked by it on a
    miss, raises. *)
Lemma cache_error_is_extractor_error youtube_cache query clk (w : W) e c' w' :
  Cache.get_or_compute id youtube_cache (impl_func impl) [query] [] clk w
  = (Raised e, c', w') ->
  impl query w = (Raised e, w').
Proof.
  unfold Cache.get_or_compute.
  destruct (Cache.live_entry _ _ _); [discriminate|].
  destruct (Cache.live_entry _ _ _); [discriminate|].
  simpl. destruct (impl query w) as [[info|e0] w0]; [discriminate|].
  by intros [= -> _ ->].
Qed.
End ExtractionFacts.

(** With an extractor that always fails, one [extract_song_info] asks it
    twice: once through the cache and once directly. *)
Example fallback_calls_extractor_again :
  Player.extract_song_info PlayerSamples.failing_extractor
    PlayerSamples.youtube_cache "song" (CacheSamples.at_time 0) []
  = (Raised (Exception "extraction failed"),
     Cache.with_misses PlayerSamples.youtube_cache 1,
     ["song"; "song"]).
Proof. vm_compute. reflexivity. Qed.

(** ** The reconnection driver *)

Section VoiceFacts.
Import Voice.
Variables (g : Z) (ch : VoiceChannel).
Variables (cs : option Player.CurrentSong) (nc : option TextChannel).

(** Case analysis along the run of a monadic computation. *)
Ltac run_m :=
  repeat (simpl;
          match goal with
          | |- context [match ?o with Returned _ => _ | Raised _ => _ end] =>
              destruct o
          | |- context [match ?o with Some _ => _ | None => _ end] =>
              destruct o
          | |- context [if ?b then _ else _] => destruct b
          end);
  simpl.

Lemma schedule_app evs1 evs2 :
  schedule (evs1 ++ evs2) = schedule evs1 ++ schedule evs2.
Proof. apply filter_app. Qed.

(** One attempt leaves the configuration alone and contributes
    [get_guild], then [connect] when the guild is found; it breaks out,
    without raising, when the guild is not found. *)
Lemma attempt_effect env s :
  let r := attempt g ch cs nc env s in
  max_reconnect_attempts (vm (snd r)) = max_reconnect_attempts (vm s)
  /\ reconnect_backoff (vm (snd r)) = reconnect_backoff (vm s)
  /\ (env_get_guild env = false -> fst r = Returned Break)
  /\ exists evs,
       trace (snd r) = trace s ++ evs
       /\ schedule evs
          = GetGuild g :: (if env_get_guild env then [Connect ch] else []).
Proof.
  destruct env as [sl gg co s1 ex cp pl now s2].
  unfold attempt, bind, perform, with_player, with_vm, modify, ret,
    _start_inactivity_checker, bind, perform, with_vm, modify.
  destruct gg, cs, nc; run_m;
    (split; [reflexivity|]); (split; [reflexivity|]);
    (split; [intros Hgg; first [reflexivity | discriminate Hgg]|]);
    (eexists; split; [rewrite <- ?(assoc_L (++)); reflexivity | reflexivity]).
Qed.

(** Whatever the environment answers, the waits and attempts of the loop
    are an initial part of the full schedule. *)
Lemma reconnect_loop_schedule fuel : forall envs a s r s',
  reconnect_loop fuel envs g ch cs nc a s = (r, s') ->
  max_reconnect_attempts (vm s') = max_reconnect_attempts (vm s)
  /\ reconnect_backoff (vm s') = reconnect_backoff (vm s)
  /\ exists evs,
       trace s' = trace s ++ evs
       /\ schedule evs `prefix_of` expected (reconnect_backoff (vm s)) g ch a fuel.
Proof.
  assert (Hnil : forall s (l : list Event),
            exists evs, trace s = trace s ++ evs /\ schedule evs `prefix_of` l).
  { intros s l. exists []. split; [symmetry; apply app_nil_r | apply prefix_nil]. }
  induction fuel as [|fuel IH]; intros envs a s r s' Hrun.
  - cbn [reconnect_loop] in Hrun. unfold bind, gets, ret in Hrun.
    destruct (a <? _); injection Hrun as <- <-;
      (split; [done|split; [done|apply Hnil]]).
  - cbn [reconnect_loop] in Hrun. unfold bind at 1, gets at 1 in Hrun.
    destruct (a <? _).
    2:{ injection Hrun as <- <-. split; [done|split; [done|apply Hnil]]. }
    unfold bind at 1, gets at 1 in Hrun.
    unfold bind at 1, perform at 1 in Hrun.
    set (wait := Sleep (reconnect_backoff (vm s) * 2 ^ a)) in *.
    set (s0 := {| vm := vm s; player_state := player_state s;
                  song_queue := song_queue s;
                  trace := trace s ++ [wait] |}) in *.
    destruct (env_sleep (envs 0%nat)) as [[]|e].
    2:{ injection Hrun as <- <-. simpl. split; [done|]. split; [done|].
        exists [wait]. split; [reflexivity|].
        cbn [expected]. eexists. reflexivity. }
    unfold try_except_Exception, bind at 1 in Hrun.
    destruct (attempt_effect (envs 0%nat) s0)
      as (Hmax & Hback & Hbreak & evs1 & Htr & Hsch).
    destruct (attempt g ch cs nc (envs 0%nat) s0) as [[exit|e] s1];
      simpl in Hmax, Hback, Htr, Hbreak.
    + assert (Hfin : max_reconnect_attempts (vm s1) = max_reconnect_attempts (vm s)
                /\ reconnect_backoff (vm s1) = reconnect_backoff (vm s)
                /\ exists evs, trace s1 = trace s ++ evs
                     /\ schedule evs `prefix_of`
                          expected (reconnect_backoff (vm s)) g ch a (S fuel)).
      { split; [done|]. split; [done|].
        exists ([wait] ++ evs1).
        split; [rewrite Htr; by rewrite <- (assoc_L (++))|].
        rewrite schedule_app, Hsch. cbn [expected].
        destruct (env_get_guild (envs 0%nat)); eexists; reflexivity. }
      destruct exit; injection Hrun as <- <-; exact Hfin.
    + destruct (env_get_guild (envs 0%nat)) eqn:Hgg;
        [|specialize (Hbreak eq_refl); discriminate].
      destruct (isinstance_Exception e).
      * unfold bind at 1, with_vm at 1, modify at 1 in Hrun.
        apply IH in Hrun as (Hmax2 & Hback2 & evs2 & Htr2 & Hpre2).
        simpl in Hmax2, Hback2, Htr2, Hpre2.
        split; [congruence|]. split; [congruence|].
        exists ([wait] ++ evs1 ++ evs2).
        split.
        { rewrite Htr2, Htr. by rewrite <- !(assoc_L (++)). }
        rewrite !schedule_app, Hsch. cbn [expected]. simpl.
        rewrite Hback in Hpre2.
        do 3 apply prefix_cons. exact Hpre2.
      * injection Hrun as <- <-. split; [done|]. split; [done|].
        exists ([wait] ++ evs1).
        split; [rewrite Htr; by rewrite <- (assoc_L (++))|].
        rewrite schedule_app, Hsch. cbn [expected]. eexists; reflexivity.
Qed.

(** When every pass fails after its wait, the loop runs until the
    attempt counter reaches the maximum, and the schedule is the full
    one. *)
Lemma reconnect_loop_all_fail fuel : forall envs a s r s',
  max_reconnect_attempts (vm s) = a + Z.of_nat fuel ->
  (forall k, (k < fuel)%nat ->
     env_sleep (envs k) = Returned tt
     /\ env_get_guild (envs k) = true
     /\ attempt_fails g ch cs nc (envs k)) ->
  reconnect_loop fuel envs g ch cs nc a s = (r, s') ->
  r = Returned (Exhausted (a + Z.of_nat fuel))
  /\ max_reconnect_attempts (vm s') = max_reconnect_attempts (vm s)
  /\ (fuel = 0%nat -> reconnect_attempts (vm s') = reconnect_attempts (vm s))
  /\ ((0 < fuel)%nat ->
        reconnect_attempts (vm s') !! g = Some (a + Z.of_nat fuel))
  /\ exists evs,
       trace s' = trace s ++ evs
       /\ schedule evs = expected (reconnect_backoff (vm s)) g ch a fuel.
Proof.
  induction fuel as [|fuel IH]; intros envs a s r s' Hmax Hfail Hrun.
  - cbn [reconnect_loop] in Hrun. unfold bind, gets, ret in Hrun.
    rewrite Hmax in Hrun.
    destruct (Z.ltb_spec a (a + Z.of_nat 0)); [lia|].
    injection Hrun as <- <-.
    split; [f_equal; f_equal; lia|]. split; [done|]. split; [done|].
    split; [lia|]. exists []. split; [symmetry; apply app_nil_r | reflexivity].
  - cbn [reconnect_loop] in Hrun. unfold bind at 1, gets at 1 in Hrun.
    rewrite Hmax in Hrun.
    destruct (Z.ltb_spec a (a + Z.of_nat (S fuel))); [|lia].
    unfold bind at 1, gets at 1 in Hrun.
    unfold bind at 1, perform at 1 in Hrun.
    set (wait := Sleep (reconnect_backoff (vm s) * 2 ^ a)) in *.
    set (s0 := {| vm := vm s; player_state := player_state s;
                  song_queue := song_queue s;
                  trace := trace s ++ [wait] |}) in *.
    destruct (Hfail 0%nat ltac:(lia)) as (Hsleep & Hguild & Hraise).
    rewrite Hsleep in Hrun.
    unfold try_except_Exception, bind at 1 in Hrun.
    destruct (attempt_effect (envs 0%nat) s0)
      as (Hmax1 & Hback1 & _ & evs1 & Htr1 & Hsch1).
    destruct (Hraise s0) as [what Hwhat].
    destruct (attempt g ch cs nc (envs 0%nat) s0) as [r1 s1].
    simpl in Hmax1, Hback1, Htr1, Hwhat. subst r1.
    cbn [isinstance_Exception] in Hrun.
    unfold bind at 1, with_vm at 1, modify at 1 in Hrun.
    apply IH in Hrun as (Hr & Hmax2 & Hsame & Hset & evs2 & Htr2 & Hsch2).
    + simpl in Hmax2, Hsame, Hset, Htr2, Hsch2.
      split; [rewrite Hr; f_equal; f_equal; lia|].
      split; [congruence|]. split; [lia|]. split.
      * intros _. destruct fuel as [|fuel'].
        -- rewrite (Hsame eq_refl). rewrite lookup_insert_eq.
           reflexivity.
        -- rewrite Hset by lia. f_equal. lia.
      * exists ([wait] ++ evs1 ++ evs2). split.
        { rewrite Htr2, Htr1. by rewrite <- !(assoc_L (++)). }
        rewrite !schedule_app, Hsch1, Hsch2, Hguild, Hback1.
        reflexivity.
    + simpl. rewrite Hmax1, Hmax. lia.
    + intros k Hk. apply (Hfail (S k)). lia.
Qed.

(** The clean-up adds no wait and no attempt, and keeps the manager. *)
Lemma clean_up_effect a final_send s :
  let s' := snd (clean_up g nc a final_send s) in
  vm s' = vm s
  /\ (max_reconnect_attempts (vm s) <= a ->
        Player.current_songs (player_state s') !! g = None
        /\ Player.voice_clients (player_state s') !! g = None)
  /\ exists evs, trace s' = trace s ++ evs /\ schedule evs = [].
Proof.
  unfold clean_up, bind, gets, with_player, modify, perform, ret.
  destruct (Z.leb_spec (max_reconnect_attempts (vm s)) a) as [Hle|Hgt].
  - destruct nc; simpl.
    + split; [done|]. split.
      * intros _. split; apply lookup_delete_eq.
      * by eexists.
    + split; [done|]. split.
      * intros _. split; apply lookup_delete_eq.
      * exists []. split; [symmetry; apply app_nil_r | done].
  - simpl. split; [done|]. split; [lia|].
    exists []. split; [symmetry; apply app_nil_r | done].
Qed.

End VoiceFacts.

Section ReconnectFacts.
Import Voice.

Lemma remember_fields g cs v :
  max_reconnect_attempts (remember g cs v) = max_reconnect_attempts v
  /\ reconnect_backoff (remember g cs v) = reconnect_backoff v
  /\ command_channels (remember g cs v) = command_channels v
  /\ reconnect_attempts (remember g cs v) = reconnect_attempts v.
Proof. by destruct cs. Qed.

(** C3. Take a guild whose attempt counter is 0, on a manager with the
    base backoff 5 and at most 3 attempts.  The calls the driver adds to
    the trace, restricted to waits and attempts, are an initial part of
    wait 5, attempt, wait 10, attempt, wait 20, attempt: attempt [k] comes
    right after a wait of [5 * 2^k] seconds and there is no fourth one.
    If the three attempts all fail, the schedule is that whole list, the
    guild's current song is cleared, its transport handle is removed, and
    the attempt counter stays at 3. *)
Theorem reconnect_backoff_schedule g ch envs final_send (s : State) :
  max_reconnect_attempts (vm s) = 3 ->
  reconnect_backoff (vm s) = 5 ->
  default 0 (reconnect_attempts (vm s) !! g) = 0 ->
  let s' := _reconnect_to_voice g ch envs final_send s in
  let full := [Sleep 5; GetGuild g; Connect ch;
               Sleep 10; GetGuild g; Connect ch;
               Sleep 20; GetGuild g; Connect ch] in
  exists evs,
    trace s' = trace s ++ evs
    /\ schedule evs `prefix_of` full
    /\ ((forall k, (k < 3)%nat ->
           env_sleep (envs k) = Returned tt
           /\ env_get_guild (envs k) = true
           /\ attempt_fails g ch (Player.get_song (player_state s) g)
                (command_channels (vm s) !! g) (envs k)) ->
        schedule evs = full
        /\ Player.current_songs (player_state s') !! g = None
        /\ Player.voice_clients (player_state s') !! g = None
        /\ reconnect_attempts (vm s') !! g = Some 3).
Proof.
  intros Hmax Hback Hatt s' full. subst s'.
  unfold _reconnect_to_voice. rewrite Hatt.
  set (cs := Player.get_song (player_state s) g).
  destruct (remember_fields g cs (vm s)) as (Hm0 & Hb0 & Hc0 & Ha0).
  set (s0 := {| vm := remember g cs (vm s); player_state := player_state s;
                song_queue := snd (Queue.get_queue (song_queue s) g);
                trace := trace s |}).
  change (command_channels (vm s0)) with (command_channels (remember g cs (vm s))).
  change (max_reconnect_attempts (vm s0))
    with (max_reconnect_attempts (remember g cs (vm s))).
  rewrite Hc0, Hm0, Hmax.
  set (nc := command_channels (vm s) !! g).
  change (Z.to_nat (3 - 0)) with 3%nat.
  destruct (reconnect_loop 3 envs g ch cs nc 0 s0) as [r s1] eqn:Hrun.
  unfold bind. cbv beta. rewrite Hrun.
  destruct (reconnect_loop_schedule g ch cs nc 3 envs 0 s0 r s1 Hrun)
    as (Hm1 & Hb1 & evs1 & Htr1 & Hpre1).
  simpl in Hm1, Hb1, Htr1, Hpre1. rewrite Hb0, Hback in Hpre1.
  change (expected 5 g ch 0 3) with full in Hpre1.
  assert (Hall :
    (forall k, (k < 3)%nat ->
       env_sleep (envs k) = Returned tt
       /\ env_get_guild (envs k) = true
       /\ attempt_fails g ch cs nc (envs k)) ->
    r = Returned (Exhausted 3)
    /\ reconnect_attempts (vm s1) !! g = Some 3
    /\ schedule evs1 = full).
  { intros Hfail.
    destruct (reconnect_loop_all_fail g ch cs nc 3 envs 0 s0 r s1)
      as (Hr & _ & _ & Hset & evs1' & Htr1' & Hsch1'); [| exact Hfail | exact Hrun |].
    - simpl. by rewrite Hm0, Hmax.
    - simpl in Htr1', Hsch1'. rewrite Hb0, Hback in Hsch1'.
      rewrite Htr1 in Htr1'. apply app_inv_head in Htr1'. subst evs1'.
      split; [exact Hr|]. split; [apply Hset; lia | exact Hsch1']. }
  assert (Hm1' : max_reconnect_attempts (vm s1) = 3) by (rewrite Hm1, Hm0; done).
  destruct r as [[a|a| |]|e]; cbv beta iota;
    cbn [trace vm player_state song_queue reconnect_attempts
           pop_reconnect_task ret snd].
  - destruct (clean_up_effect g nc a final_send s1)
      as (Hvm & Hclear & evs2 & Htr2 & Hsch2).
    exists (evs1 ++ evs2). split; [by rewrite Htr2, Htr1, (assoc_L (++))|].
    rewrite schedule_app, Hsch2, app_nil_r. split; [exact Hpre1|].
    intros Hfail. destruct (Hall Hfail) as (Hr & Hset & Hsch).
    injection Hr as ->. split; [exact Hsch|].
    destruct Hclear as [Hsong Hclient]; [lia|].
    split; [exact Hsong|]. split; [exact Hclient|]. by rewrite Hvm.
  - destruct (clean_up_effect g nc a final_send s1)
      as (Hvm & Hclear & evs2 & Htr2 & Hsch2).
    exists (evs1 ++ evs2). split; [by rewrite Htr2, Htr1, (assoc_L (++))|].
    rewrite schedule_app, Hsch2, app_nil_r. split; [exact Hpre1|].
    intros Hfail. destruct (Hall Hfail) as (Hr & _). discriminate Hr.
  - exists evs1. split; [exact Htr1|]. split; [exact Hpre1|].
    intros Hfail. destruct (Hall Hfail) as (Hr & _). discriminate Hr.
  - exists evs1. split; [exact Htr1|]. split; [exact Hpre1|].
    intros Hfail. destruct (Hall Hfail) as (Hr & _). discriminate Hr.
  - exists evs1. split; [exact Htr1|]. split; [exact Hpre1|].
    intros Hfail. destruct (Hall Hfail) as (Hr & _). discriminate Hr.
Qed.

(** The loop never runs out of the fuel the driver gives it. *)
Lemma reconnect_loop_fuel g ch cs nc fuel : forall envs a s,
  max_reconnect_attempts (vm s) <= a + Z.of_nat fuel ->
  fst (reconnect_loop fuel envs g ch cs nc a s) <> Returned OutOfFuel.
Proof.
  induction fuel as [|fuel IH]; intros envs a s Hmax.
  - cbn [reconnect_loop]. unfold bind, gets, ret.
    destruct (Z.ltb_spec a (max_reconnect_attempts (vm s))); [lia|]. done.
  - cbn [reconnect_loop]. unfold bind at 1, gets at 1.
    destruct (a <? _); [|done].
    unfold bind at 1, gets at 1. unfold bind at 1, perform at 1.
    destruct (env_sleep (envs 0%nat)) as [[]|e]; [|done].
    unfold try_except_Exception, bind at 1.
    match goal with
    | |- context [attempt g ch cs nc (envs 0%nat) ?s] =>
        destruct (attempt_effect g ch cs nc (envs 0%nat) s)
          as (Hmax1 & _ & _ & _);
        destruct (attempt g ch cs nc (envs 0%nat) s) as [[[]|e] s1]
    end; simpl in *; try done.
    destruct (isinstance_Exception e); [|done].
    unfold bind at 1, with_vm at 1, modify at 1.
    apply IH. simpl. lia.
Qed.

End ReconnectFacts.

(** *** The driver on concrete runs *)

Lemma unreachable_fails cs nc :
  Voice.attempt_fails Samples.guild VoiceSamples.lobby cs nc
    VoiceSamples.unreachable.
Proof. intros s. exists "timed out". reflexivity. Qed.

Lemma reconnect_backoff_schedule_witness :
  exists evs,
    Voice.trace
      (Voice._reconnect_to_voice Samples.guild VoiceSamples.lobby
         (fun _ => VoiceSamples.unreachable) (Returned tt) VoiceSamples.lost)
    = Voice.trace VoiceSamples.lost ++ evs
    /\ Voice.schedule evs
       = [Voice.Sleep 5; Voice.GetGuild Samples.guild;
          Voice.Connect VoiceSamples.lobby;
          Voice.Sleep 10; Voice.GetGuild Samples.guild;
          Voice.Connect VoiceSamples.lobby;
          Voice.Sleep 20; Voice.GetGuild Samples.guild;
          Voice.Connect VoiceSamples.lobby]
    /\ Player.current_songs
         (Voice.player_state
            (Voice._reconnect_to_voice Samples.guild VoiceSamples.lobby
               (fun _ => VoiceSamples.unreachable) (Returned tt)
               VoiceSamples.lost))
       !! Samples.guild = None.
Proof.
  destruct (reconnect_backoff_schedule Samples.guild VoiceSamples.lobby
              (fun _ => VoiceSamples.unreachable) (Returned tt)
              VoiceSamples.lost eq_refl eq_refl eq_refl)
    as (evs & Htr & _ & Hfail).
  exists evs. split; [exact Htr|].
  destruct Hfail as (Hsch & Hsong & _).
  - intros k _. split; [reflexivity|]. split; [reflexivity|].
    apply unreachable_fails.
  - split; [exact Hsch | exact Hsong].
Defined.

(** The connection comes back at the second attempt, after waits of 5
    and 10 seconds: the song is the current one again with its clock
    restarted, it heads the recent songs, and the counter is back at 0. *)
Example reconnect_second_attempt :
  let s' := Voice._reconnect_to_voice Samples.guild VoiceSamples.lobby
              VoiceSamples.second_try (Returned tt) VoiceSamples.lost in
  Voice.schedule (Voice.trace s')
  = [Voice.Sleep 5; Voice.GetGuild Samples.guild;
     Voice.Connect VoiceSamples.lobby;
     Voice.Sleep 10; Voice.GetGuild Samples.guild;
     Voice.Connect VoiceSamples.lobby]
  /\ Player.cs_title <$> Player.get_song (Voice.player_state s') Samples.guild
     = Some "track"
  /\ Player.song_start_times (Voice.player_state s') !! Samples.guild
     = Some 2000
  /\ Voice.recent_songs (Voice.vm s') !! Samples.guild
     = Some [VoiceSamples.now_playing]
  /\ Voice.reconnect_attempts (Voice.vm s') !! Samples.guild = Some 0.
Proof. vm_compute. repeat split. Qed.

(** * Further properties of the code *)

(** ** The result cache: memoization, accounting, invalidation *)

Section SortedMoreFacts.
Context {A : Type} (key : A -> Z).

Lemma place_snoc_max a s x :
  key a <= key x ->
  PySorted.place key a (s ++ [x]) = PySorted.place key a s ++ [x].
Proof.
  intros Hle. induction s as [|y s IH]; simpl.
  - destruct (Z.leb_spec (key a) (key x)); [reflexivity | lia].
  - destruct (key a <=? key y); [reflexivity|]. by rewrite IH.
Qed.

(** An element that is last and has the largest key stays last. *)
Lemma sorted_snoc_max l x :
  (forall y, y ∈ l -> key y <= key x) ->
  PySorted.sorted key (l ++ [x]) = PySorted.sorted key l ++ [x].
Proof.
  induction l as [|a l IH]; intros Hmax; simpl; [reflexivity|].
  rewrite IH by (intros y Hy; apply Hmax; by apply list_elem_of_further).
  apply place_snoc_max. apply Hmax, list_elem_of_here.
Qed.
End SortedMoreFacts.

Section CacheMoreFacts.
Context {V W Arg : Type} (str : Arg -> string).
Import Cache.

Abbreviation LRU := (@AsyncLRUCache V).
Abbreviation Fn := (@Func V W Arg).
Abbreviation Calls := (list (@Call V W Arg)).
Abbreviation dictE := (PyDict.dict (@CacheEntry V)).

Lemma elem_of_set (d : dictE) key e0 k e :
  (k, e) ∈ PyDict.set d key e0 -> (k, e) = (key, e0) \/ (k, e) ∈ d.
Proof.
  induction d as [|[k1 e1] d IH]; simpl.
  - intros Hin. apply list_elem_of_singleton in Hin. by left.
  - destruct (String.eqb_spec k1 key) as [->|Hne]; intros Hin;
      apply elem_of_cons in Hin as [Heq|Hin].
    + by left.
    + right. by apply list_elem_of_further.
    + right. rewrite Heq. apply list_elem_of_here.
    + destruct (IH Hin) as [?|?]; [by left|].
      right. by apply list_elem_of_further.
Qed.

Lemma expires_of_elem (d : dictE) k e :
  NoDup (PyDict.keys d) -> (k, e) ∈ d -> expires_of d k = expires_at e.
Proof.
  intros Hnd Hin. unfold expires_of. by rewrite (get_elem_NoDup d k e).
Qed.

(** A newly appended key with the latest expiry is not among the keys
    the trim deletes, as long as one entry may stay. *)
Lemma fresh_key_not_oldest (d : dictE) key e0 m :
  NoDup (PyDict.keys d) -> 1 <= m -> PyDict.len d <= m ->
  (forall k e, (k, e) ∈ d -> expires_at e <= expires_at e0) ->
  key ∉ oldest_keys (PyDict.set d key e0) m.
Proof.
  intros Hnd Hm Hlen Hmax. unfold oldest_keys.
  pose proof (keys_set d key e0) as Hkeys.
  assert (Hlenk : length (PyDict.keys d) = length d)
    by (unfold PyDict.keys; apply length_fmap).
  destruct (decide (key ∈ PyDict.keys d)) as [Hin|Hnin].
  - assert (Hsame : PyDict.len (PyDict.set d key e0) = PyDict.len d).
    { unfold PyDict.len. f_equal.
      rewrite <- (length_fmap fst (PyDict.set d key e0)), <- (length_fmap fst d).
      fold (PyDict.keys (PyDict.set d key e0)). fold (PyDict.keys d).
      by rewrite Hkeys. }
    rewrite Hsame.
    replace (Z.to_nat (PyDict.len d - m)) with 0%nat by lia.
    apply not_elem_of_nil.
  - rewrite Hkeys.
    rewrite sorted_snoc_max.
    + assert (Hn : (Z.to_nat (PyDict.len (PyDict.set d key e0) - m)
                    <= length (PySorted.sorted
                                 (expires_of (PyDict.set d key e0))
                                 (PyDict.keys d)))%nat).
      { rewrite (Permutation_length (sorted_perm _ _)), Hlenk.
        unfold PyDict.len.
        rewrite <- (length_fmap fst (PyDict.set d key e0)).
        fold (PyDict.keys (PyDict.set d key e0)).
        rewrite Hkeys, length_app, Hlenk. simpl. lia. }
      rewrite take_app_le by exact Hn.
      intros Hin. apply subseteq_take in Hin.
      rewrite sorted_perm in Hin. done.
    + intros k Hk. unfold expires_of at 2. rewrite get_set_eq.
      unfold PyDict.keys in Hk. apply list_elem_of_fmap in Hk as ([k' e] & -> & Hin').
      simpl. unfold expires_of.
      rewrite get_set_ne.
      * rewrite (get_elem_NoDup d k' e Hnd Hin'). by apply (Hmax k').
      * intros ->. apply Hnin. unfold PyDict.keys.
        apply list_elem_of_fmap. by exists (key, e).
Qed.

(** One call keeps the bound on expiry times when its store reading is
    not earlier. *)
Lemma get_or_compute_expires_by T (c : LRU) (func : Fn) args kwargs clk w :
  expires_by T c -> T <= t_store clk ->
  expires_by (t_store clk)
    (snd (fst (get_or_compute str c func args kwargs clk w))).
Proof.
  intros Hexp Hle.
  assert (Hkeep : forall c' : LRU,
            cache c' = cache c -> ttl c' = ttl c ->
            expires_by (t_store clk) c').
  { intros c' Hc Ht k e Hin. rewrite Hc in Hin. rewrite Ht.
    specialize (Hexp k e Hin). lia. }
  unfold get_or_compute.
  destruct (live_entry c _ (t_fast clk)); [by apply Hkeep|].
  destruct (live_entry c _ (t_lock clk)); [by apply Hkeep|].
  destruct (call func args kwargs w) as [[result|e] w']; [|by apply Hkeep].
  cbn [fst snd]. intros k e Hin.
  rewrite trim_cache in Hin. apply list_elem_of_filter in Hin as [_ Hin].
  cbn [cache with_cache with_misses] in Hin.
  assert (Httl : forall c0 : LRU, ttl (trim c0) = ttl c0)
    by (intros c0; unfold trim; by destruct (_ <? _)).
  rewrite Httl. cbn [ttl with_cache with_misses].
  apply elem_of_set in Hin as [[= -> ->]|Hin].
  - simpl. lia.
  - specialize (Hexp k e Hin). lia.
Qed.

Lemma run_calls_expires_by (calls : Calls) : forall T (st : LRU * W),
  stores_in_order T calls -> expires_by T (fst st) ->
  expires_by (end_time T calls) (fst (run_calls str calls st)).
Proof.
  unfold run_calls.
  induction calls as [|k calls IH]; intros T st Hord Hexp; simpl; [done|].
  destruct Hord as [Hle Hord].
  apply IH; [exact Hord|]. unfold step.
  pose proof (get_or_compute_expires_by T (fst st) (call_func k) (call_args k)
                (call_kwargs k) (call_clock k) (snd st) Hexp Hle) as H1.
  by destruct (get_or_compute _ _ _ _ _ _ _) as [[r c] w].
Qed.

(** X1. Memoization.  On a cache of capacity at least 1, after any run of
    calls whose store readings do not go back, let a call compute a value
    (a miss on which the compute function returns), at a store reading not
    earlier than the run's.  The value is then in the dict under the
    call's key, and every later call for that key whose first reading is
    at most [t_store + ttl] returns it, counts a hit, and does not invoke
    the compute function: the world is left as it was. *)
Theorem cache_memoizes nm m t (calls : Calls) (w0 : W) T0 :
  1 <= m ->
  stores_in_order T0 calls ->
  let c := fst (run_calls str calls (init nm m t, w0)) in
  let w := snd (run_calls str calls (init nm m t, w0)) in
  forall (func : Fn) args kwargs clk result w',
    let key := _generate_key str (func_name func) args kwargs in
    end_time T0 calls <= t_store clk ->
    live_entry c key (t_fast clk) = None ->
    live_entry c key (t_lock clk) = None ->
    call func args kwargs w = (Returned result, w') ->
    let c' := snd (fst (get_or_compute str c func args kwargs clk w)) in
    PyDict.get (cache c') key
      = Some (CacheEntry_init result t (t_store clk))
    /\ forall clk2 w2,
         t_fast clk2 <= t_store clk + t ->
         get_or_compute str c' func args kwargs clk2 w2
         = (Returned result, with_hits c' (hits c' + 1), w2).
Proof.
  intros Hm Hord c w func args kwargs clk result w' key Hend Hfast Hlock Hcall c'.
  assert (Hinv : inv m t c).
  { apply run_calls_inv; [lia|]. apply init_inv. lia. }
  assert (Hexp : expires_by (end_time T0 calls) c).
  { apply run_calls_expires_by; [exact Hord|].
    intros k e Hin. simpl in Hin. by apply elem_of_nil in Hin. }
  destruct Hinv as (Hwf & Hmax & Httl & Hlen).
  assert (Hget : PyDict.get (cache c') key
                 = Some (CacheEntry_init result t (t_store clk))).
  { subst c'. rewrite <- Httl.
    apply (get_or_compute_stores str c func args kwargs clk w result w');
      try done.
    rewrite Hmax. apply fresh_key_not_oldest; try done.
    intros k e Hin. specialize (Hexp k e Hin). simpl. lia. }
  split; [exact Hget|].
  intros clk2 w2 Hle.
  apply (get_or_compute_hit_fast str c' func args kwargs clk2 w2
           (CacheEntry_init result t (t_store clk))).
  unfold live_entry. fold key. rewrite Hget. unfold is_expired. simpl.
  destruct (Z.ltb_spec (t_store clk + t) (t_fast clk2)); [lia | reflexivity].
Qed.

Lemma trim_counters (c : LRU) :
  hits (trim c) = hits c /\ misses (trim c) = misses c.
Proof. unfold trim. by destruct (_ <? _). Qed.

Lemma get_or_compute_counts (c : LRU) (func : Fn) args kwargs clk w :
  let c' := snd (fst (get_or_compute str c func args kwargs clk w)) in
  hits c' + misses c' = hits c + misses c + 1
  /\ hits c <= hits c' /\ misses c <= misses c'.
Proof.
  unfold get_or_compute.
  destruct (live_entry c _ (t_fast clk)); [simpl; lia|].
  destruct (live_entry c _ (t_lock clk)); [simpl; lia|].
  destruct (call func args kwargs w) as [[result|e] w']; [|simpl; lia].
  cbn [fst snd]. destruct (trim_counters
    (with_cache (with_misses c (misses c + 1))
       (PyDict.set (cache (with_misses c (misses c + 1)))
          (_generate_key str (func_name func) args kwargs)
          (CacheEntry_init result (ttl (with_misses c (misses c + 1)))
             (t_store clk))))) as [-> ->].
  simpl. lia.
Qed.

(** X2. Accounting.  After any run of calls on a new cache, every call has
    been counted exactly once, as a hit or as a miss. *)
Theorem hits_plus_misses nm m t (calls : Calls) (w0 : W) :
  let c := fst (run_calls str calls (init nm m t, w0)) in
  hits c + misses c = Z.of_nat (length calls)
  /\ 0 <= hits c /\ 0 <= misses c.
Proof.
  assert (Hgen : forall (calls : Calls) (st : LRU * W),
            let c := fst (run_calls str calls st) in
            hits c + misses c
              = hits (fst st) + misses (fst st) + Z.of_nat (length calls)
            /\ hits (fst st) <= hits c /\ misses (fst st) <= misses c).
  { clear calls. unfold run_calls.
    induction calls as [|k calls IH]; intros st; simpl; [lia|].
    specialize (IH (step str st k)). simpl in IH.
    assert (Hstep : hits (fst (step str st k)) + misses (fst (step str st k))
                    = hits (fst st) + misses (fst st) + 1
                    /\ hits (fst st) <= hits (fst (step str st k))
                    /\ misses (fst st) <= misses (fst (step str st k))).
    { unfold step.
      pose proof (get_or_compute_counts (fst st) (call_func k) (call_args k)
                    (call_kwargs k) (call_clock k) (snd st)) as Hc.
      by destruct (get_or_compute _ _ _ _ _ _ _) as [[r c] w]. }
    lia. }
  intros c. subst c.
  specialize (Hgen calls (init nm m t, w0)). simpl in Hgen. lia.
Qed.

Lemma get_del (d : dictE) key k :
  PyDict.get (PyDict.del d key) k
  = if decide (k = key) then None else PyDict.get d k.
Proof.
  unfold PyDict.del. induction d as [|[k0 e0] d IH].
  - by destruct (decide (k = key)).
  - rewrite filter_cons. simpl fst.
    destruct (decide (k0 <> key)) as [Hne|Heq]; simpl;
      destruct (String.eqb_spec k0 k) as [->|Hne'].
    + by destruct (decide (k = key)).
    + exact IH.
    + rewrite IH. destruct (decide (k = key)) as [|Hk]; [done|].
      exfalso. apply Heq. congruence.
    + exact IH.
Qed.

(** X3. Invalidation.  [invalidate], given the name the compute function
    goes by, leaves no entry under the key of that call and touches no
    other key; the next [get_or_compute] of the call invokes the compute
    function, whatever the clock reads. *)
Theorem invalidate_forces_recompute (c : LRU) (func : Fn) args kwargs :
  let key := _generate_key str (func_name func) args kwargs in
  let c' := invalidate str c (func_name func) args kwargs in
  PyDict.get (cache c') key = None
  /\ (forall k, k <> key -> PyDict.get (cache c') k = PyDict.get (cache c) k)
  /\ forall clk w,
       get_or_compute str c' func args kwargs clk w
       = match call func args kwargs w with
         | (Returned result, w') =>
             (Returned result,
              trim (with_cache (with_misses c' (misses c' + 1))
                      (PyDict.set (cache c') key
                         (CacheEntry_init result (ttl c') (t_store clk)))),
              w')
         | (Raised e, w') => (Raised e, with_misses c' (misses c' + 1), w')
         end.
Proof.
  intros key c'.
  assert (Hnone : PyDict.get (cache c') key = None).
  { subst c'. unfold invalidate. fold key.
    destruct (PyDict.get (cache c) key) eqn:Hget; [|exact Hget].
    simpl. rewrite get_del. by destruct (decide (key = key)). }
  split; [exact Hnone|]. split.
  - intros k Hk. subst c'. unfold invalidate. fold key.
    destruct (PyDict.get (cache c) key); [|reflexivity].
    simpl. rewrite get_del. by destruct (decide (k = key)).
  - intros clk w.
    apply get_or_compute_miss; unfold live_entry; fold key; by rewrite Hnone.
Qed.

Lemma filter_ext_elem {A} (P Q : A -> Prop) `{!forall x, Decision (P x)}
    `{!forall x, Decision (Q x)} (l : list A) :
  (forall x, x ∈ l -> P x <-> Q x) -> filter P l = filter Q l.
Proof.
  induction l as [|x l IH]; intros Hpq; [reflexivity|].
  rewrite !filter_cons.
  assert (IH' : filter P l = filter Q l).
  { apply IH. intros y Hy. apply Hpq. by apply list_elem_of_further. }
  pose proof (Hpq x (list_elem_of_here x l)) as Hx.
  destruct (decide (P x)), (decide (Q x)); rewrite ?IH'; tauto.
Qed.

(** X4. Clean-up.  A [cleanup_expired] during which the clock reads [t]
    keeps exactly the entries with [t <= expires_at], in their order, and
    records the closing reading; run again at the same reading it changes
    nothing more in the dict. *)
Theorem cleanup_expired_exact (c : LRU) t t_end :
  wf c ->
  let c' := cleanup_expired c (fun _ => t) t_end in
  cache c' = filter (fun kv => t <= expires_at (snd kv)) (cache c)
  /\ last_cleanup c' = t_end
  /\ (forall t_end', cache (cleanup_expired c' (fun _ => t) t_end') = cache c').
Proof.
  intros Hwf c'.
  assert (Hexact : forall c0 : LRU, wf c0 ->
            cache (cleanup_expired c0 (fun _ => t) t_end)
            = filter (fun kv => t <= expires_at (snd kv)) (cache c0)).
  { intros c0 Hwf0. rewrite cleanup_expired_cache.
    apply filter_ext_elem. intros [k e] Hin. simpl.
    rewrite expired_keys_spec. split.
    - intros Hkeep.
      destruct (Z.le_gt_cases t (expires_at e)) as [|Hlt]; [done|].
      exfalso. apply Hkeep.
      apply list_elem_of_lookup in Hin as [i Hi].
      exists i, e. split; [exact Hi|]. apply is_expired_iff. lia.
    - intros Hle (i & e' & Hi & Hexp).
      apply is_expired_iff in Hexp.
      assert (PyDict.get (cache c0) k = Some e') as He'
        by (by apply (lookup_get_NoDup _ i)).
      rewrite (get_elem_NoDup _ _ _ Hwf0 Hin) in He'.
      injection He' as <-. lia. }
  split; [by apply Hexact|]. split; [reflexivity|].
  intros t_end'.
  assert (Hwf' : wf c').
  { unfold wf. subst c'. rewrite (Hexact c Hwf).
    unfold PyDict.keys. apply NoDup_fmap_fst.
    - intros k e1 e2 H1 H2.
      apply list_elem_of_filter in H1 as [_ H1].
      apply list_elem_of_filter in H2 as [_ H2].
      pose proof (get_elem_NoDup _ _ _ Hwf H2) as H3.
      pose proof (get_elem_NoDup _ _ _ Hwf H1) as H4. congruence.
    - apply NoDup_filter. eapply NoDup_fmap_1. exact Hwf. }
  assert (Hagain : cache (cleanup_expired c' (fun _ => t) t_end')
                   = filter (fun kv => t <= expires_at (snd kv)) (cache c')).
  { rewrite cleanup_expired_cache.
    apply filter_ext_elem. intros [k e] Hin. simpl.
    rewrite expired_keys_spec. split.
    - intros Hkeep.
      destruct (Z.le_gt_cases t (expires_at e)) as [|Hlt]; [done|].
      exfalso. apply Hkeep.
      apply list_elem_of_lookup in Hin as [i Hi].
      exists i, e. split; [exact Hi|]. apply is_expired_iff. lia.
    - intros Hle (i & e' & Hi & Hexp).
      apply is_expired_iff in Hexp.
      assert (PyDict.get (cache c') k = Some e') as He'
        by (by apply (lookup_get_NoDup _ i)).
      rewrite (get_elem_NoDup _ _ _ Hwf' Hin) in He'.
      injection He' as <-. lia. }
  rewrite Hagain. subst c'. rewrite (Hexact c Hwf).
  rewrite list_filter_filter. apply list_filter_iff. intros [k e]. simpl. tauto.
Qed.


End CacheMoreFacts.

(** ** Cache keys *)

Section KeyFacts.

Lemma append_length s1 s2 :
  String.length (s1 +:+ s2) = (String.length s1 + String.length s2)%nat.
Proof.
  induction s1 as [|c s1 IH]; [reflexivity|].
  change (S (String.length (s1 +:+ s2))
          = S (String.length s1 + String.length s2)).
  by rewrite IH.
Qed.

Lemma append_cancel_r a : forall b t, a +:+ t = b +:+ t -> a = b.
Proof.
  induction a as [|c a IH]; intros [|c' b] t Heq.
  - reflexivity.
  - apply (f_equal String.length) in Heq.
    rewrite (append_length (String c' b) t) in Heq.
    change (String.length ("" +:+ t)) with (String.length t) in Heq.
    change (String.length (String c' b)) with (S (String.length b)) in Heq.
    lia.
  - apply (f_equal String.length) in Heq.
    rewrite (append_length (String c a) t) in Heq.
    change (String.length ("" +:+ t)) with (String.length t) in Heq.
    change (String.length (String c a)) with (S (String.length a)) in Heq.
    lia.
  - change (String c (a +:+ t) = String c' (b +:+ t)) in Heq.
    injection Heq as -> Heq. f_equal. by apply (IH b t).
Qed.

Lemma append_assoc_L a b c : (a +:+ b) +:+ c = a +:+ b +:+ c.
Proof.
  induction a as [|x a IH]; [reflexivity|].
  change (String x ((a +:+ b) +:+ c) = String x (a +:+ b +:+ c)).
  by rewrite IH.
Qed.

Lemma place_str_perm x l : PySorted.place_str x l ≡ₚ x :: l.
Proof.
  induction l as [|y l IH]; simpl; [done|].
  destruct (String.leb (fst x) (fst y)); [done|].
  rewrite IH. apply Permutation_swap.
Qed.

Lemma sorted_items_perm l : PySorted.sorted_items l ≡ₚ l.
Proof.
  induction l as [|x l IH]; simpl; [done|]. by rewrite place_str_perm, IH.
Qed.

Lemma place_str_sorted x l :
  StronglySorted PySorted.name_le l -> StronglySorted PySorted.name_le (PySorted.place_str x l).
Proof.
  induction 1 as [|y l Hs IH Hall]; simpl.
  - repeat constructor.
  - destruct (String.leb (fst x) (fst y)) eqn:Hle.
    + constructor; [by constructor|].
      assert (Hxy : PySorted.name_le x y) by (unfold PySorted.name_le, String.le; by rewrite Hle).
      constructor; [exact Hxy|].
      eapply Forall_impl; [exact Hall|]. intros z Hyz.
      unfold PySorted.name_le in *. by etrans.
    + constructor; [exact IH|].
      rewrite place_str_perm. constructor; [|exact Hall].
      unfold PySorted.name_le. destruct (total String.le (fst y) (fst x)) as [|Hxy];
        [done|].
      unfold String.le in Hxy. rewrite Hle in Hxy. done.
Qed.

Lemma sorted_items_sorted l : StronglySorted PySorted.name_le (PySorted.sorted_items l).
Proof.
  induction l as [|x l IH]; simpl; [constructor|]. by apply place_str_sorted.
Qed.

(** Items with distinct names have one sorted order. *)
Lemma sorted_items_order l l' :
  NoDup (fst <$> l) -> l ≡ₚ l' ->
  PySorted.sorted_items l = PySorted.sorted_items l'.
Proof.
  intros Hnd Hperm.
  apply (StronglySorted_unique_strong PySorted.name_le);
    [|apply sorted_items_sorted|apply sorted_items_sorted|
     by rewrite !sorted_items_perm].
  intros x1 x2 H1 H2 H12 H21.
  rewrite sorted_items_perm in H1. rewrite sorted_items_perm, <- Hperm in H2.
  assert (Hfst : fst x1 = fst x2) by (by apply (anti_symm String.le)).
  destruct x1 as [k v1], x2 as [k2 v2]. simpl in Hfst. subst k2.
  f_equal. revert H1 H2. clear -Hnd.
  induction l as [|[k0 v0] l IH]; intros H1 H2.
  - by apply elem_of_nil in H1.
  - rewrite fmap_cons in Hnd. apply NoDup_cons in Hnd as [Hnin Hnd].
    apply elem_of_cons in H1 as [[= ? ?]|H1];
      apply elem_of_cons in H2 as [[= ? ?]|H2]; subst.
    + reflexivity.
    + exfalso. apply Hnin. apply list_elem_of_fmap. by exists (k0, v2).
    + exfalso. apply Hnin. apply list_elem_of_fmap. by exists (k0, v1).
    + by apply IH.
Qed.

Context {Arg : Type} (str : Arg -> string).

(** X5. Keyword arguments may come in any order.  The names of keyword
    arguments being distinct, two calls that differ only in the order of
    their keyword arguments have the same key. *)
Theorem key_ignores_kwargs_order func_name args
    (kwargs kwargs' : list (string * Arg)) :
  NoDup (fst <$> kwargs) -> kwargs ≡ₚ kwargs' ->
  Cache._generate_key str func_name args kwargs
  = Cache._generate_key str func_name args kwargs'.
Proof.
  intros Hnd Hperm. unfold Cache._generate_key.
  rewrite (sorted_items_order
             ((fun kv => (fst kv, str (snd kv))) <$> kwargs)
             ((fun kv => (fst kv, str (snd kv))) <$> kwargs')).
  - reflexivity.
  - rewrite <- list_fmap_compose.
    erewrite list_fmap_ext; [exact Hnd|]. by intros i [k v].
  - by apply fmap_Permutation.
Qed.

(** X6. Keys of positional calls.  Two one-argument calls of the same
    function have the same key only if their arguments print alike.  With
    more arguments the key does not tell where one argument ends: two
    arguments [a], [b] and one argument that prints as [a,b] give the same
    key. *)
Theorem key_of_positional_arguments func_name :
  (forall a b,
     Cache._generate_key str func_name [a] []
       = Cache._generate_key str func_name [b] [] ->
     str a = str b)
  /\ (forall a b ab rest kwargs,
        str ab = str a +:+ "," +:+ str b ->
        Cache._generate_key str func_name (a :: b :: rest) kwargs
        = Cache._generate_key str func_name (ab :: rest) kwargs).
Proof.
  split.
  - intros a b Heq. unfold Cache._generate_key in Heq. cbn in Heq.
    apply (inj (String.app func_name)) in Heq.
    apply (inj (String.app ":")) in Heq.
    by apply append_cancel_r in Heq.
  - intros a b ab rest kwargs Hab. unfold Cache._generate_key.
    do 2 f_equal. f_equal.
    rewrite !fmap_cons, Hab.
    destruct (str <$> rest) as [|r rs]; cbn [String.concat].
    + reflexivity.
    + by rewrite !append_assoc_L.
Qed.

End KeyFacts.

(** ** The queue manager: order, bounds and round trips *)

Section QueueMoreFacts.
Import Queue.

Lemma set_queue_queue_of qm g :
  queues qm !! g = Some (queue_of qm g) ->
  set_queue qm g (queue_of qm g) = qm.
Proof.
  intros Hq. unfold set_queue. destruct qm as [m k]; simpl in *.
  by rewrite insert_id.
Qed.

Lemma pop_song_cons qm g x q :
  queue_of qm g = x :: q ->
  pop_song qm g = (Some x, set_queue qm g q).
Proof.
  intros Hq. unfold pop_song, getitem. rewrite Hq. simpl.
  rewrite queue_of_set_queue. unfold PyList.pop. simpl.
  by rewrite !set_queue_set_queue.
Qed.

Lemma pop_song_nil qm g :
  queue_of qm g = [] ->
  exists qm', pop_song qm g = (None, qm')
              /\ forall g', queue_of qm' g' = queue_of qm g'.
Proof.
  intros Hq. unfold pop_song, getitem. rewrite Hq.
  eexists; split; [reflexivity|]. intros g'.
  destruct (decide (g' = g)) as [->|Hne].
  - by rewrite queue_of_set_queue.
  - by rewrite queue_of_set_queue_ne.
Qed.

Lemma add_song_below_cap qm g info who :
  max_queue_size qm = 500 ->
  (length (queue_of qm g) < 500)%nat ->
  exists qm',
    add_song qm g info who = (true, qm')
    /\ queue_of qm' g
       = queue_of qm g ++ [ {| song_info := info; requester := who |} ]
    /\ max_queue_size qm' = 500.
Proof.
  intros Hcap Hlen. unfold add_song, getitem. simpl. rewrite Hcap.
  destruct (Z.leb_spec 500 (Z.of_nat (length (queue_of qm g)))); [lia|].
  rewrite queue_of_set_queue, !set_queue_set_queue.
  eexists; split; [done|]. split; [apply queue_of_set_queue | done].
Qed.

Lemma add_songs_below_cap songs : forall qm g,
  max_queue_size qm = 500 ->
  (length (queue_of qm g) + length songs <= 500)%nat ->
  exists qm',
    add_songs qm g songs = (replicate (length songs) true, qm')
    /\ queue_of qm' g = queue_of qm g ++ (as_entry <$> songs)
    /\ max_queue_size qm' = 500.
Proof.
  induction songs as [|[info who] songs IH]; intros qm g Hcap Hlen.
  - exists qm. simpl. by rewrite app_nil_r.
  - simpl in Hlen. cbn [add_songs].
    destruct (add_song_below_cap qm g info who Hcap)
      as (qm1 & Hadd & Hq1 & Hcap1); [lia|].
    rewrite Hadd.
    destruct (IH qm1 g Hcap1) as (qm2 & Hadds & Hq2 & Hcap2).
    { rewrite Hq1, length_app. simpl. lia. }
    rewrite Hadds. exists qm2. split; [reflexivity|]. split; [|exact Hcap2].
    rewrite Hq2, Hq1, <- (assoc_L (++)). reflexivity.
Qed.

Lemma pop_songs_take n : forall qm g,
  (n <= length (queue_of qm g))%nat ->
  exists qm',
    pop_songs qm g n = (Some <$> take n (queue_of qm g), qm')
    /\ queue_of qm' g = drop n (queue_of qm g)
    /\ max_queue_size qm' = max_queue_size qm.
Proof.
  induction n as [|n IH]; intros qm g Hn.
  - exists qm. by rewrite take_0, drop_0.
  - destruct (queue_of qm g) as [|x q] eqn:Hq; [simpl in Hn; lia|].
    cbn [pop_songs]. rewrite (pop_song_cons qm g x q Hq).
    destruct (IH (set_queue qm g q) g) as (qm' & Hpop & Hq' & Hcap).
    { rewrite queue_of_set_queue. simpl in Hn. lia. }
    rewrite Hpop, queue_of_set_queue in *.
    exists qm'. split; [reflexivity|]. split; [exact Hq' | exact Hcap].
Qed.

Lemma pop_songs_all g n : forall q qm1,
  queue_of qm1 g = q ->
  exists qm2,
    pop_songs qm1 g n
    = ((Some <$> take n q) ++ replicate (n - length q) None, qm2)
    /\ queue_of qm2 g = drop n q.
Proof.
  induction n as [|n IH]; intros q qm1 Hq.
  - exists qm1. by rewrite take_0, drop_0.
  - destruct q as [|x q].
    + destruct (pop_song_nil qm1 g Hq) as (qm' & Hpop & Hsame).
      cbn [pop_songs]. rewrite Hpop.
      destruct (IH [] qm') as (qm2 & Hpops & Hq2); [by rewrite Hsame|].
      rewrite Hpops. exists qm2. rewrite drop_nil in *. split; [|exact Hq2].
      rewrite !take_nil. simpl. by rewrite Nat.sub_0_r.
    + cbn [pop_songs]. rewrite (pop_song_cons qm1 g x q Hq).
      destruct (IH q (set_queue qm1 g q)) as (qm2 & Hpops & Hq2);
        [apply queue_of_set_queue|].
      rewrite Hpops. exists qm2. split; [reflexivity | exact Hq2].
Qed.

(** X7. First in, first out.  Songs added to a queue with room for them are
    all accepted and go to the end in the order given; [pop_song] then
    hands the entries back from the front, oldest first, and answers
    [None] once the queue is empty. *)
Theorem queue_fifo qm g songs n :
  max_queue_size qm = 500 ->
  (length (queue_of qm g) + length songs <= 500)%nat ->
  let q := queue_of qm g ++ (as_entry <$> songs) in
  exists qm1 qm2,
    add_songs qm g songs = (replicate (length songs) true, qm1)
    /\ queue_of qm1 g = q
    /\ pop_songs qm1 g n
       = ((Some <$> take n q) ++ replicate (n - length q) None, qm2)
    /\ queue_of qm2 g = drop n q.
Proof.
  intros Hcap Hlen q.
  destruct (add_songs_below_cap songs qm g Hcap Hlen) as (qm1 & Hadd & Hq1 & _).
  fold q in Hq1. exists qm1.
  destruct (pop_songs_all g n q qm1 Hq1) as (qm2 & Hpop & Hq2).
  exists qm2. done.
Qed.

(** X8. What [remove_song] accepts.  It answers [True] exactly for the
    indices from [-len] to [len - 1]: an index from 0 removes the entry at
    that position, a negative one the entry at [len + index]; outside that
    range every queue is as before. *)
Theorem remove_song_accepts qm g i :
  let q := queue_of qm g in
  let L := Z.of_nat (length q) in
  (fst (remove_song qm g i) = true <-> - L <= i < L)
  /\ (0 <= i < L ->
        queue_of (snd (remove_song qm g i)) g = delete (Z.to_nat i) q)
  /\ (- L <= i < 0 ->
        queue_of (snd (remove_song qm g i)) g = delete (Z.to_nat (L + i)) q)
  /\ (i < - L \/ L <= i ->
        forall g', queue_of (snd (remove_song qm g i)) g' = queue_of qm g').
Proof.
  intros q L. split; [|split; [|split]].
  - destruct (Z.lt_ge_cases i (- L)) as [Hlo|Hlo].
    + destruct (remove_song_beyond qm g i) as (qm' & -> & _); [by left|].
      simpl. split; [discriminate | lia].
    + destruct (Z.lt_ge_cases i L) as [Hhi|Hhi].
      * destruct (Z.lt_ge_cases i 0).
        -- rewrite remove_song_negative by (fold q L; lia). simpl. split; [lia|done].
        -- rewrite remove_song_in_range by (fold q L; lia). simpl. split; [lia|done].
      * destruct (remove_song_beyond qm g i) as (qm' & -> & _); [by right|].
        simpl. split; [discriminate | lia].
  - intros Hi. rewrite remove_song_in_range by done. simpl.
    apply queue_of_set_queue.
  - intros Hi. rewrite remove_song_negative by done. simpl.
    rewrite queue_of_set_queue. fold q L. f_equal. f_equal. lia.
  - intros Hi. destruct (remove_song_beyond qm g i Hi) as (qm' & -> & Hsame).
    exact Hsame.
Qed.

Lemma move_song_in_range qm g i j x :
  let q := queue_of qm g in
  0 <= i < Z.of_nat (length q) -> 0 <= j < Z.of_nat (length q) ->
  q !! Z.to_nat i = Some x ->
  move_song qm g i j
  = (true, set_queue qm g
             (take (Z.to_nat j) (delete (Z.to_nat i) q)
              ++ x :: drop (Z.to_nat j) (delete (Z.to_nat i) q))).
Proof.
  intros q Hi Hj Hx. unfold move_song, getitem. fold q.
  destruct (Z.leb_spec 0 i); [|lia].
  destruct (Z.ltb_spec i (Z.of_nat (length q))); [|lia].
  destruct (Z.leb_spec 0 j); [|lia].
  destruct (Z.ltb_spec j (Z.of_nat (length q))); [|lia].
  simpl.
  destruct (pop_in_range q i Hi) as (x' & Hx' & ->).
  rewrite Hx in Hx'. injection Hx' as <-.
  rewrite set_queue_set_queue.
  rewrite insert_in_range; [reflexivity|].
  rewrite length_delete by (by exists x). lia.
Qed.

(** X9. Moving back.  After [move_song] from [i] to [j], both in range,
    [move_song] from [j] to [i] succeeds and gives back the queue as it
    was. *)
Theorem move_song_round_trip qm g i j :
  let q := queue_of qm g in
  0 <= i < Z.of_nat (length q) -> 0 <= j < Z.of_nat (length q) ->
  let qm1 := snd (move_song qm g i j) in
  fst (move_song qm1 g j i) = true
  /\ queue_of (snd (move_song qm1 g j i)) g = q.
Proof.
  intros q Hi Hj qm1.
  destruct (lookup_lt_is_Some_2 q (Z.to_nat i)) as [x Hx]; [lia|].
  assert (Hlen1 : length (delete (Z.to_nat i) q) = (length q - 1)%nat).
  { rewrite length_delete by (by exists x). lia. }
  subst qm1. rewrite (move_song_in_range qm g i j x) by done. cbn [snd].
  fold q.
  set (q1 := delete (Z.to_nat i) q) in *.
  set (q' := take (Z.to_nat j) q1 ++ x :: drop (Z.to_nat j) q1).
  assert (Htk : length (take (Z.to_nat j) q1) = Z.to_nat j)
    by (rewrite length_take; lia).
  assert (Hlen' : length q' = length q).
  { unfold q'. rewrite length_app. simpl. rewrite Htk, length_drop. lia. }
  assert (Hx' : q' !! Z.to_nat j = Some x).
  { unfold q'. rewrite <- Htk at 1. by apply list_lookup_middle. }
  assert (Hdel : delete (Z.to_nat j) q' = q1).
  { unfold q'. rewrite <- Htk at 1. rewrite delete_middle. apply take_drop. }
  rewrite (move_song_in_range (set_queue qm g q') g j i x);
    rewrite ?queue_of_set_queue, ?Hlen'; try done.
  cbn [fst snd]. split; [reflexivity|].
  rewrite queue_of_set_queue, Hdel. unfold q1.
  rewrite delete_take_drop.
  rewrite take_app_le by (rewrite length_take; lia).
  rewrite take_take. replace (Z.to_nat i `min` Z.to_nat i)%nat with (Z.to_nat i) by lia.
  rewrite drop_app_ge by (rewrite length_take; lia).
  rewrite length_take. replace (Z.to_nat i - Z.to_nat i `min` length q)%nat with 0%nat by lia.
  rewrite drop_0. by apply take_drop_middle.
Qed.

Lemma run_op_cap qm op :
  max_queue_size qm = 500 ->
  (forall g, (length (queue_of qm g) <= 500)%nat) ->
  max_queue_size (run_op qm op) = 500
  /\ forall g, (length (queue_of (run_op qm op) g) <= 500)%nat.
Proof.
  intros Hcap Hall.
  assert (Hset : forall g q,
            (length q <= 500)%nat ->
            forall g', (length (queue_of (set_queue qm g q) g') <= 500)%nat).
  { intros g q Hq g'. destruct (decide (g' = g)) as [->|Hne].
    - by rewrite queue_of_set_queue.
    - rewrite queue_of_set_queue_ne by done. apply Hall. }
  assert (Hsame : forall g g',
            (length (queue_of (set_queue qm g (queue_of qm g)) g') <= 500)%nat).
  { intros g g'. apply Hset, Hall. }
  destruct op as [g info who|g|g|g i|g|g|g i j|g|g]; simpl.
  - unfold add_song, getitem. cbn [max_queue_size set_queue]. rewrite Hcap.
    destruct (Z.leb_spec 500 (Z.of_nat (length (queue_of qm g)))); simpl.
    + split; [done | apply Hsame].
    + split; [done|]. rewrite queue_of_set_queue, !set_queue_set_queue.
      apply Hset. rewrite length_app. simpl. lia.
  - unfold pop_song, getitem. destruct (queue_of qm g) as [|x q] eqn:Hq; simpl.
    + split; [done|]. rewrite <- Hq. apply Hsame.
    + rewrite queue_of_set_queue. unfold PyList.pop. simpl.
      rewrite !set_queue_set_queue. split; [done|]. apply Hset.
      specialize (Hall g). rewrite Hq in Hall. simpl in Hall. lia.
  - unfold clear_queue, getitem. rewrite set_queue_set_queue.
    split; [done|]. apply Hset. simpl. lia.
  - unfold remove_song, getitem.
    destruct (PyList.pop (queue_of qm g) i) as [[x q']|] eqn:Hpop.
    + rewrite set_queue_set_queue. split; [done|]. apply Hset.
      unfold PyList.pop in Hpop.
      destruct (_ || _); [discriminate|].
      destruct (queue_of qm g !! _) eqn:Hl; [|discriminate].
      injection Hpop as _ <-. pose proof (length_delete _ _ (ex_intro _ _ Hl)).
      specialize (Hall g). lia.
    + split; [done | apply Hsame].
  - split; [done | apply Hsame].
  - split; [done | apply Hsame].
  - unfold move_song, getitem.
    destruct (negb _) eqn:Hrange; [split; [done | apply Hsame]|].
    destruct (PyList.pop (queue_of qm g) i) as [[x q']|] eqn:Hpop;
      [|split; [done | apply Hsame]].
    rewrite set_queue_set_queue. split; [done|]. apply Hset.
    unfold PyList.pop in Hpop.
    destruct (_ || _); [discriminate|].
    destruct (queue_of qm g !! _) eqn:Hl; [|discriminate].
    injection Hpop as _ <-.
    pose proof (length_delete _ _ (ex_intro _ _ Hl)) as Hd.
    unfold PyList.insert. cbv zeta.
    rewrite length_app. simpl. rewrite length_take, length_drop.
    specialize (Hall g). lia.
  - split; [done | apply Hsame].
  - split; [done | apply Hsame].
Qed.

(** X10. The cap.  Whatever calls are made on a new manager, in whatever
    order and for whatever guilds, no queue ever holds more than 500
    entries. *)
Theorem queue_never_exceeds_cap ops g :
  (length (queue_of (run_ops ops init) g) <= 500)%nat.
Proof.
  assert (Hgen : forall ops qm,
            max_queue_size qm = 500 ->
            (forall g, (length (queue_of qm g) <= 500)%nat) ->
            forall g, (length (queue_of (run_ops ops qm) g) <= 500)%nat).
  { clear. unfold run_ops.
    induction ops as [|op ops IH]; intros qm Hcap Hall g; simpl; [apply Hall|].
    destruct (run_op_cap qm op Hcap Hall) as [Hcap' Hall'].
    by apply IH. }
  apply Hgen; [reflexivity|]. intros g'. unfold queue_of, init. simpl.
  rewrite lookup_empty. simpl. lia.
Qed.

End QueueMoreFacts.

(** ** The pages of the queue *)

Section QueuePageFacts.
Import Queue.

Lemma enumerate_snd {A} (l : list A) : forall k,
  snd <$> PyList.enumerate l k = l.
Proof. induction l as [|x l IH]; intros k; simpl; [done|]. by rewrite IH. Qed.

Lemma enumerate_elem {A} (l : list A) : forall k idx x,
  (idx, x) ∈ PyList.enumerate l k ->
  k <= idx /\ l !! Z.to_nat (idx - k) = Some x.
Proof.
  induction l as [|y l IH]; intros k idx x Hin; simpl in Hin.
  - by apply elem_of_nil in Hin.
  - apply elem_of_cons in Hin as [[= -> ->]|Hin].
    + split; [lia|]. by rewrite Z.sub_diag.
    + destruct (IH _ _ _ Hin) as [Hle Hl]. split; [lia|].
      replace (Z.to_nat (idx - k)) with (S (Z.to_nat (idx - (k + 1)))) by lia.
      exact Hl.
Qed.

(** A slice with bounds in order and a start inside the list. *)
Lemma slice_window {A} (l : list A) (s n : nat) :
  PyList.slice l (Z.of_nat s) (Z.of_nat s + Z.of_nat n) = take n (drop s l).
Proof.
  unfold PyList.slice. cbv zeta.
  destruct (Z.ltb_spec (Z.of_nat s) 0); [lia|].
  destruct (Z.ltb_spec (Z.of_nat s + Z.of_nat n) 0); [lia|].
  destruct (le_lt_dec (length l) s) as [Hout|Hin].
  - rewrite (drop_ge l s) by lia. rewrite take_nil.
    rewrite drop_ge by lia. apply take_nil.
  - rewrite (Z.min_l (Z.of_nat s)) by lia. rewrite Nat2Z.id.
    destruct (le_lt_dec (length l) (s + n)) as [Hbig|Hsmall].
    + rewrite (Z.min_r (Z.of_nat s + Z.of_nat n)) by lia.
      rewrite !take_ge; [done| |]; rewrite length_drop; lia.
    + rewrite (Z.min_l (Z.of_nat s + Z.of_nat n)) by lia. f_equal. lia.
Qed.

Lemma slice_page {A} (l : list A) (a b : Z) :
  0 <= a -> 0 <= b ->
  PyList.slice l a (a + b) = take (Z.to_nat b) (drop (Z.to_nat a) l).
Proof.
  intros Ha Hb.
  assert (exists s : nat, a = Z.of_nat s) as [s ->]
    by (exists (Z.to_nat a); lia).
  assert (exists k : nat, b = Z.of_nat k) as [k ->]
    by (exists (Z.to_nat b); lia).
  rewrite !Nat2Z.id. apply slice_window.
Qed.

Lemma total_pages_bounds (queue : list QueueEntry) ipp :
  0 < ipp -> queue <> [] ->
  let n := total_pages queue ipp in
  1 <= n /\ (n - 1) * ipp < Z.of_nat (length queue) <= n * ipp.
Proof.
  intros Hipp Hne n. subst n. unfold total_pages.
  assert (Hlen : 1 <= Z.of_nat (length queue)).
  { destruct queue; [done|]. simpl. lia. }
  pose proof (Z.mul_div_le (Z.of_nat (length queue) + ipp - 1) ipp Hipp) as Hlo.
  pose proof (Z.mul_succ_div_gt (Z.of_nat (length queue) + ipp - 1) ipp Hipp)
    as Hhi.
  assert (1 <= (Z.of_nat (length queue) + ipp - 1) / ipp).
  { apply Z.div_le_lower_bound; lia. }
  nia.
Qed.

Lemma page_items_shown (queue : list QueueEntry) page ipp :
  0 < ipp -> queue <> [] ->
  let p := shown_page queue page ipp in
  1 <= p <= total_pages queue ipp
  /\ page_items queue page ipp
     = PyList.enumerate
         (take (Z.to_nat ipp) (drop (Z.to_nat ((p - 1) * ipp)) queue))
         ((p - 1) * ipp + 1).
Proof.
  intros Hipp Hne p.
  destruct (total_pages_bounds queue ipp Hipp Hne) as [Hn _].
  assert (Hp : 1 <= p <= total_pages queue ipp) by (unfold p, shown_page; lia).
  split; [exact Hp|].
  unfold page_items. fold p. cbv zeta. f_equal.
  apply slice_page; nia.
Qed.

Lemma pages_concat (queue : list QueueEntry) (ipp : nat) (m : nat) :
  concat ((fun p => take ipp (drop ((p - 1) * ipp) queue)) <$> seq 1 m)
  = take (m * ipp) queue.
Proof.
  induction m as [|m IH]; [by rewrite take_0|].
  rewrite seq_S, fmap_app, concat_app, IH. simpl. rewrite app_nil_r.
  replace (m - 0)%nat with m by lia.
  rewrite take_take_drop. f_equal. lia.
Qed.

(** X11. Pages.  For a non-empty queue and a positive page size there is at
    least one page; whatever page is asked for, the page shown lies
    between 1 and the number of pages and is not empty; the number beside
    an entry is its position in the queue counted from 1; and the pages
    from the first to the last, one after the other, are the queue. *)
Theorem queue_pages_cover (queue : list QueueEntry) ipp :
  0 < ipp -> queue <> [] ->
  let n := total_pages queue ipp in
  1 <= n
  /\ (forall page,
        1 <= shown_page queue page ipp <= n
        /\ page_items queue page ipp <> []
        /\ page_items queue page ipp
           = page_items queue (shown_page queue page ipp) ipp)
  /\ (forall page idx e,
        (idx, e) ∈ page_items queue page ipp ->
        1 <= idx /\ queue !! Z.to_nat (idx - 1) = Some e)
  /\ concat ((fun p => snd <$> page_items queue (Z.of_nat p) ipp)
               <$> seq 1 (Z.to_nat n))
     = queue.
Proof.
  intros Hipp Hne n.
  destruct (total_pages_bounds queue ipp Hipp Hne) as [Hn [Hlo Hhi]].
  fold n in Hn, Hlo, Hhi.
  split; [exact Hn|]. split; [|split].
  - intros page.
    destruct (page_items_shown queue page ipp Hipp Hne) as [Hp Hitems].
    split; [exact Hp|]. split.
    + rewrite Hitems.
      set (p := shown_page queue page ipp) in *.
      assert (Hin : (Z.to_nat ((p - 1) * ipp) < length queue)%nat) by nia.
      destruct (drop (Z.to_nat ((p - 1) * ipp)) queue) as [|x rest] eqn:Hd.
      { apply (f_equal length) in Hd. rewrite length_drop in Hd.
        simpl in Hd. lia. }
      destruct (Z.to_nat ipp) as [|k] eqn:Hk; [lia|]. simpl. discriminate.
    + unfold page_items. cbv zeta.
      assert (Hidem : shown_page queue (shown_page queue page ipp) ipp
                      = shown_page queue page ipp)
        by (unfold shown_page in *; fold n in Hp |- *; lia).
      by rewrite Hidem.
  - intros page idx e Hin.
    destruct (page_items_shown queue page ipp Hipp Hne) as [Hp Hitems].
    rewrite Hitems in Hin.
    set (p := shown_page queue page ipp) in *.
    apply enumerate_elem in Hin as [Hle Hl].
    split; [nia|].
    apply lookup_take_Some in Hl as [Hl _].
    rewrite lookup_drop in Hl.
    replace (Z.to_nat (idx - 1))
      with (Z.to_nat ((p - 1) * ipp) + Z.to_nat (idx - ((p - 1) * ipp + 1)))%nat
      by nia.
    exact Hl.
  - etrans; [|apply (take_ge queue (Z.to_nat n * Z.to_nat ipp)); nia].
    rewrite <- pages_concat. f_equal.
    apply list_fmap_ext. intros i p Hp%list_elem_of_lookup_2.
    apply list_elem_of_In, in_seq in Hp.
    assert (Hshown : shown_page queue (Z.of_nat p) ipp = Z.of_nat p)
      by (unfold shown_page; fold n; lia).
    destruct (page_items_shown queue (Z.of_nat p) ipp Hipp Hne) as [_ ->].
    rewrite enumerate_snd, Hshown. f_equal. f_equal. nia.
Qed.

End QueuePageFacts.

(** ** Playback state: pauses, guilds, the bar *)

Section PlayerMoreFacts.
Import Player.

(** X12. During a recorded pause.  A session started at [T0], with closed
    pause cycles of total duration [P], then paused at [p]: while the
    transport is paused the elapsed time is [p - T0 - P] plus the gap
    between the last two clock readings of the query, so it stands still
    however late the query comes. *)
Theorem elapsed_frozen_while_paused ps g info who T0 cycles p vc is_paused
    t_default t_pause t_now :
  let ps' :=
    handle_pause (pause_cycles g cycles (update_song ps g info who T0)) g p in
  voice_clients ps !! g = Some vc ->
  is_paused vc = true ->
  elapsed ps' (is_paused vc) g t_default t_pause t_now
    = (p - T0 - total_paused cycles) + (t_now - t_pause)
  /\ create_progress_bar ps' is_paused g t_default t_pause t_now
     = Some (render ((p - T0 - total_paused cycles) + (t_now - t_pause))
                    (duration info) true).
Proof.
  intros ps' Hvc Hpaused.
  destruct (pause_cycles_fields g cycles (update_song ps g info who T0))
    as (Hsongs & Hclients & Hstart & Hdur & _).
  simpl in Hsongs, Hclients, Hstart, Hdur.
  rewrite lookup_insert_eq in Hdur. simpl in Hdur.
  assert (Hel : elapsed ps' (is_paused vc) g t_default t_pause t_now
                = (p - T0 - total_paused cycles) + (t_now - t_pause)).
  { unfold elapsed. subst ps'. unfold handle_pause.
    cbn [song_start_times pause_durations last_pause_time].
    rewrite Hstart, Hdur, !lookup_insert_eq, Hpaused. simpl. lia. }
  split; [exact Hel|].
  unfold create_progress_bar.
  change (current_songs ps') with
    (current_songs (pause_cycles g cycles (update_song ps g info who T0))).
  change (voice_clients ps') with
    (voice_clients (pause_cycles g cycles (update_song ps g info who T0))).
  rewrite Hsongs, Hclients, lookup_insert_eq, Hvc, Hel, Hpaused. reflexivity.
Qed.

(** With no pause start on record the paused branch of the query adds
    nothing: whether the transport says it is paused or not, the elapsed
    time is [now - start - accumulated], and it grows with the clock. *)
Lemma elapsed_without_recorded_pause ps g paused t_default t_pause t_now
    T0 P :
  song_start_times ps !! g = Some T0 ->
  pause_durations ps !! g = Some P ->
  last_pause_time ps !! g = None ->
  elapsed ps paused g t_default t_pause t_now = t_now - T0 - P.
Proof.
  intros Hs Hp Hl. unfold elapsed. by rewrite Hs, Hp, Hl.
Qed.

Lemma run_op_other ps op g' :
  op_guild op <> g' -> session_of (run_op ps op) g' = session_of ps g'.
Proof.
  intros Hne. unfold session_of.
  destruct op as [g info who now|g now|g now|g|g vc|g]; simpl in Hne |- *.
  - by rewrite !lookup_insert_ne, lookup_delete_ne.
  - by rewrite lookup_insert_ne.
  - unfold handle_resume. destruct (last_pause_time ps !! g); simpl; [|done].
    by rewrite lookup_insert_ne, lookup_delete_ne.
  - by rewrite !lookup_delete_ne.
  - by rewrite lookup_insert_ne.
  - by rewrite lookup_delete_ne.
Qed.

Lemma progress_bar_of_session ps ps' g is_paused t_default t_pause t_now :
  session_of ps' g = session_of ps g ->
  create_progress_bar ps' is_paused g t_default t_pause t_now
  = create_progress_bar ps is_paused g t_default t_pause t_now.
Proof.
  unfold session_of. intros [= H1 H2 H3 H4 H5].
  unfold create_progress_bar, elapsed. by rewrite H1, H2, H3, H4, H5.
Qed.

(** X13. Guilds do not interfere.  Whatever calls are made for other guilds,
    the records of a guild and the progress bar computed from them are the
    same as before. *)
Theorem other_guilds_untouched ops ps g :
  Forall (fun op => op_guild op <> g) ops ->
  session_of (run_ops ops ps) g = session_of ps g
  /\ forall is_paused t_default t_pause t_now,
       create_progress_bar (run_ops ops ps) is_paused g t_default t_pause t_now
       = create_progress_bar ps is_paused g t_default t_pause t_now.
Proof.
  intros Hall.
  assert (Hs : session_of (run_ops ops ps) g = session_of ps g).
  { revert ps. unfold run_ops. induction Hall as [|op ops Hop _ IH];
      intros ps; simpl; [done|].
    rewrite IH. by apply run_op_other. }
  split; [exact Hs|]. intros. by apply progress_bar_of_session.
Qed.

Lemma repeat_str_length s n :
  String.length (repeat_str s n) = (n * String.length s)%nat.
Proof.
  induction n as [|n IH]; [reflexivity|].
  cbn [repeat_str]. rewrite append_length, IH. lia.
Qed.



End PlayerMoreFacts.

(** *** The further properties on concrete inputs *)

Lemma cache_memoizes_witness :
  let c' :=
    snd (fst (Cache.get_or_compute id CacheSamples.one_entry CacheSamples.fetch
                ["k2"] [] (CacheSamples.at_time 10) 1%nat)) in
  Cache.get_or_compute id c' CacheSamples.fetch ["k2"] []
    (CacheSamples.at_time 110) 5%nat
  = (Returned 1, Cache.with_hits c' (Cache.hits c' + 1), 5%nat).
Proof.
  intros c'.
  destruct (cache_memoizes id "youtube" 2 100 [CacheSamples.lookup "k1" 0]
              0%nat 0 ltac:(lia) ltac:(simpl; lia)
              CacheSamples.fetch ["k2"] [] (CacheSamples.at_time 10) 1 2%nat
              ltac:(simpl; lia) eq_refl eq_refl eq_refl) as [_ Hhit].
  apply Hhit. simpl. lia.
Defined.

Lemma cleanup_expired_exact_witness :
  Cache.cache (Cache.cleanup_expired CacheSamples.one_entry (fun _ => 101) 101)
  = [].
Proof.
  destruct (cleanup_expired_exact CacheSamples.one_entry 101 101 one_entry_wf)
    as [Hcache _].
  rewrite Hcache. reflexivity.
Defined.

Lemma key_ignores_kwargs_order_witness :
  Cache._generate_key id "fetch" ["x"] [("b", "2"); ("a", "1")]
  = Cache._generate_key id "fetch" ["x"] [("a", "1"); ("b", "2")].
Proof.
  apply key_ignores_kwargs_order.
  - simpl. apply NoDup_cons. split; [|apply NoDup_singleton].
    intros Hin. apply list_elem_of_singleton in Hin. discriminate Hin.
  - apply perm_swap.
Defined.

Lemma queue_fifo_witness :
  exists qm1 qm2,
    Queue.add_songs Queue.init Samples.guild
      [(Samples.song 1, Samples.alice); (Samples.song 2, Samples.alice)]
    = ([true; true], qm1)
    /\ Queue.pop_songs qm1 Samples.guild 3
       = ([Some (Samples.entry 1); Some (Samples.entry 2); None], qm2).
Proof.
  destruct (queue_fifo Queue.init Samples.guild
              [(Samples.song 1, Samples.alice); (Samples.song 2, Samples.alice)]
              3 eq_refl ltac:(vm_compute; lia))
    as (qm1 & qm2 & Hadd & _ & Hpop & _).
  exists qm1, qm2. split; [exact Hadd | exact Hpop].
Defined.

Lemma move_song_round_trip_witness :
  Queue.queue_of
    (snd (Queue.move_song
            (snd (Queue.move_song Samples.queue_abc Samples.guild 0 2))
            Samples.guild 2 0))
    Samples.guild
  = [Samples.entry 1; Samples.entry 2; Samples.entry 3].
Proof.
  apply (move_song_round_trip Samples.queue_abc Samples.guild 0 2);
    vm_compute; split; congruence.
Defined.

Lemma queue_pages_cover_witness :
  1 <= Queue.total_pages
         [Samples.entry 1; Samples.entry 2; Samples.entry 3] 2.
Proof.
  apply (queue_pages_cover
           [Samples.entry 1; Samples.entry 2; Samples.entry 3] 2);
    [lia | discriminate].
Defined.

Lemma elapsed_frozen_while_paused_witness :
  Player.elapsed
    (Player.handle_pause
       (Player.pause_cycles Samples.guild [(10, 25)]
          (Player.update_song PlayerSamples.connected Samples.guild
             (Samples.song 180) Samples.alice 0))
       Samples.guild 60)
    true Samples.guild 100 100 100
  = (60 - 0 - 15) + (100 - 100).
Proof.
  apply (elapsed_frozen_while_paused PlayerSamples.connected Samples.guild
           (Samples.song 180) Samples.alice 0 [(10, 25)] 60
           PlayerSamples.handle (fun _ => true) 100 100 100);
    reflexivity.
Defined.

Lemma other_guilds_untouched_witness :
  Player.session_of
    (Player.run_ops
       [Player.OpUpdateSong 8 (Samples.song 180) Samples.alice 0;
        Player.OpHandlePause 8 5; Player.OpClearSong 9]
       PlayerSamples.connected)
    Samples.guild
  = Player.session_of PlayerSamples.connected Samples.guild.
Proof.
  apply other_guilds_untouched.
  repeat constructor; discriminate.
Defined.


(** ** Extraction through the cache *)

Section ExtractionMoreFacts.
Context {W : Type} (impl : string -> W -> outcome SongInfo * W).
Import Player.

(** X15. Extraction is memoized.  On the cache as any run of calls in clock
    order leaves it, an extraction that misses and succeeds returns what
    the extractor gave; for the hour that follows, extracting the same
    query returns that same information and does not invoke the extractor:
    the extractor's world is left as it was. *)
Theorem extract_song_info_memoized
    (calls : list (@Cache.Call SongInfo W string)) (w0 : W) T0
    query clk info w' :
  Cache.stores_in_order T0 calls ->
  let start := Cache.run_calls id calls (Cache.init "youtube" 100 3600, w0) in
  let key := Cache._generate_key id "_extract_song_info_impl" [query] [] in
  Cache.end_time T0 calls <= Cache.t_store clk ->
  Cache.live_entry (fst start) key (Cache.t_fast clk) = None ->
  Cache.live_entry (fst start) key (Cache.t_lock clk) = None ->
  impl query (snd start) = (Returned info, w') ->
  exists c',
    extract_song_info impl (fst start) query clk (snd start)
    = (Returned info, c', w')
    /\ forall clk2 w2,
         Cache.t_fast clk2 <= Cache.t_store clk + 3600 ->
         extract_song_info impl c' query clk2 w2
         = (Returned info, Cache.with_hits c' (Cache.hits c' + 1), w2).
Proof.
  intros Hord start key Hend Hfast Hlock Himpl.
  assert (Hinv : Cache.inv 100 3600 (fst start)).
  { apply run_calls_inv; [lia|]. apply init_inv. lia. }
  assert (Hexp : Cache.expires_by (Cache.end_time T0 calls) (fst start)).
  { apply run_calls_expires_by; [exact Hord|].
    intros k e Hin. simpl in Hin. by apply elem_of_nil in Hin. }
  destruct Hinv as (Hwf & Hmax & Httl & Hlen).
  pose proof (get_or_compute_miss id (fst start) (impl_func impl) [query] []
                clk (snd start) Hfast Hlock) as Hmiss.
  pose proof (get_or_compute_stores id (fst start) (impl_func impl) [query] []
                clk (snd start) info w' Hfast Hlock Himpl) as Hget.
  cbn [impl_func Cache.call Cache.func_name] in Hmiss, Hget.
  fold key in Hget. rewrite Himpl in Hmiss. rewrite Hmiss in Hget.
  cbn [fst snd] in Hget.
  match type of Hmiss with _ = (_, ?c, _) => set (c' := c) in * end.
  exists c'. split.
  - unfold extract_song_info. by rewrite Hmiss.
  - intros clk2 w2 Hle. unfold extract_song_info.
    rewrite (get_or_compute_hit_fast id c' (impl_func impl) [query] [] clk2 w2
               (Cache.CacheEntry_init info 3600 (Cache.t_store clk)));
      [reflexivity|].
    unfold Cache.live_entry. cbn [impl_func Cache.func_name]. fold key.
    rewrite Hget.
    + rewrite Httl. unfold Cache.is_expired. simpl.
      destruct (Z.ltb_spec (Cache.t_store clk + 3600) (Cache.t_fast clk2));
        [lia | reflexivity].
    + rewrite Hmax. apply fresh_key_not_oldest; try done.
      intros k e Hin. specialize (Hexp k e Hin). simpl. lia.
Qed.
End ExtractionMoreFacts.

Lemma extract_song_info_memoized_witness :
  exists c',
    Player.extract_song_info PlayerSamples.working_extractor
      PlayerSamples.youtube_cache "song" (CacheSamples.at_time 0) []
    = (Returned (Samples.song 180), c', ["song"])
    /\ Player.extract_song_info PlayerSamples.working_extractor c' "song"
         (CacheSamples.at_time 3600) ["song"]
       = (Returned (Samples.song 180),
          Cache.with_hits c' (Cache.hits c' + 1), ["song"]).
Proof.
  destruct (extract_song_info_memoized PlayerSamples.working_extractor
              [] [] 0 "song" (CacheSamples.at_time 0) (Samples.song 180)
              ["song"] I ltac:(simpl; lia) eq_refl eq_refl eq_refl)
    as (c' & Hfirst & Hagain).
  exists c'. split; [exact Hfirst|]. apply Hagain. simpl. lia.
Defined.

(** ** Reconnection from any counter, and a reconnection that succeeds *)

Section ReconnectMoreFacts.
Import Voice.
Variables (g : Z) (ch : VoiceChannel).
Variables (cs : option Player.CurrentSong) (nc : option TextChannel).

Ltac run_attempt :=
  repeat (simpl;
          match goal with
          | |- context [match ?o with Returned _ => _ | Raised _ => _ end] =>
              destruct o
          | |- context [match ?o with Some _ => _ | None => _ end] =>
              destruct o
          | |- context [if ?b then _ else _] => destruct b
          end);
  simpl.

(** With the counter at the maximum or beyond, the loop is left at
    once. *)
Lemma reconnect_loop_exhausted fuel envs a s :
  max_reconnect_attempts (vm s) <= a ->
  reconnect_loop fuel envs g ch cs nc a s = (Returned (Exhausted a), s).
Proof.
  intros Hmax. destruct fuel; cbn [reconnect_loop]; unfold bind, gets, ret;
    destruct (Z.ltb_spec a (max_reconnect_attempts (vm s))); (lia || reflexivity).
Qed.

(** An attempt that raises has not touched the manager or the queue. *)
Lemma attempt_raise_vm env s e :
  fst (attempt g ch cs nc env s) = Raised e ->
  vm (snd (attempt g ch cs nc env s)) = vm s
  /\ song_queue (snd (attempt g ch cs nc env s)) = song_queue s.
Proof.
  destruct env as [sl gg co s1 ex cp pl now s2].
  unfold attempt, bind, perform, with_player, with_vm, modify, ret,
    _start_inactivity_checker, bind, perform, with_vm, modify.
  destruct gg, cs, nc; run_attempt; intros Hr;
    first [discriminate Hr | split; reflexivity].
Qed.


(** An attempt in which every call returns. *)
Lemma attempt_success env s vc info song :
  cs = Some song -> attempt_succeeds env vc info ->
  attempt g ch cs nc env s
  = (Returned Return,
     {| vm := add_inactivity_timeout g (set_reconnect_attempts g 0 (vm s));
        player_state :=
          Player.update_song
            (Player.update_voice_client (player_state s) g vc) g info
            (Player.cs_requester song) (env_now env);
        song_queue := song_queue s;
        trace :=
          trace s ++ [GetGuild g; Connect ch]
            ++ match nc with Some c => [Send c "connect"] | None => [] end
            ++ [ExtractSongInfo (Player.cs_url song); CreatePlayer info; Play vc]
            ++ match nc with Some c => [Send c "resume"] | None => [] end
            ++ [StartInactivityChecker g] |}).
Proof.
  intros -> (Hg & Hc & Hs1 & He & Hcp & Hp & Hs2).
  destruct env as [sl gg co s1 ex cp pl now s2]. simpl in *. subst.
  unfold attempt, bind, perform, with_player, with_vm, modify, ret,
    _start_inactivity_checker, bind, perform, with_vm, modify.
  destruct nc; simpl; rewrite <- ?(assoc_L (++)); reflexivity.
Qed.

(** The loop when its first [k] passes fail and the next one succeeds. *)
Lemma reconnect_loop_success k : forall fuel envs a s vc info song,
  cs = Some song ->
  (k < fuel)%nat ->
  a + Z.of_nat k < max_reconnect_attempts (vm s) ->
  (forall i, (i < k)%nat ->
     env_sleep (envs i) = Returned tt
     /\ env_get_guild (envs i) = true
     /\ attempt_fails g ch cs nc (envs i)) ->
  env_sleep (envs k) = Returned tt ->
  attempt_succeeds (envs k) vc info ->
  exists s',
    reconnect_loop fuel envs g ch cs nc a s = (Returned Reconnected, s')
    /\ vm s' = add_inactivity_timeout g (set_reconnect_attempts g 0 (vm s'))
    /\ max_reconnect_attempts (vm s') = max_reconnect_attempts (vm s)
    /\ recent_songs (vm s') = recent_songs (vm s)
    /\ reconnect_tasks (vm s') = reconnect_tasks (vm s)
    /\ song_queue s' = song_queue s
    /\ (exists ps,
          player_state s'
          = Player.update_song (Player.update_voice_client ps g vc) g info
              (Player.cs_requester song) (env_now (envs k)))
    /\ exists evs,
         trace s' = trace s ++ evs
         /\ schedule evs
            = expected (reconnect_backoff (vm s)) g ch a (S k).
Proof.
  induction k as [|k IH]; intros fuel envs a s vc info song Hcs Hfuel Hmax
    Hfail Hsleep Hok;
    (destruct fuel as [|fuel]; [lia|]);
    cbn [reconnect_loop]; unfold bind at 1, gets at 1;
    (destruct (Z.ltb_spec a (max_reconnect_attempts (vm s))); [|lia]);
    unfold bind at 1, gets at 1; unfold bind at 1, perform at 1.
  - rewrite Hsleep. unfold try_except_Exception, bind at 1.
    rewrite (attempt_success _ _ vc info song Hcs Hok).
    eexists. split; [reflexivity|]. cbn [vm song_queue player_state trace].
    split.
    { unfold add_inactivity_timeout, set_reconnect_attempts. simpl.
      f_equal.
      - by rewrite (assoc_L (∪)), (idemp_L (∪)).
      - by rewrite insert_insert_eq. }
    split; [reflexivity|]. split; [reflexivity|]. split; [reflexivity|].
    split; [reflexivity|]. split; [by eexists|].
    eexists. split; [rewrite <- (assoc_L (++)); reflexivity|].
    destruct (proj1 Hok). destruct nc; reflexivity.
  - destruct (Hfail 0%nat ltac:(lia)) as (Hsleep0 & Hguild0 & Hraise0).
    rewrite Hsleep0. unfold try_except_Exception, bind at 1.
    set (wait := Sleep (reconnect_backoff (vm s) * 2 ^ a)).
    set (s0 := {| vm := vm s; player_state := player_state s;
                  song_queue := song_queue s;
                  trace := trace s ++ [wait] |}).
    destruct (attempt_effect g ch cs nc (envs 0%nat) s0)
      as (Hmax1 & Hback1 & _ & evs1 & Htr1 & Hsch1).
    destruct (Hraise0 s0) as [what Hwhat].
    pose proof (attempt_raise_vm (envs 0%nat) s0 _ Hwhat) as [Hvm1 Hq1].
    destruct (attempt g ch cs nc (envs 0%nat) s0) as [r1 s1].
    simpl in Hmax1, Hback1, Htr1, Hwhat, Hvm1, Hq1. subst r1.
    cbn [isinstance_Exception].
    unfold bind at 1, with_vm at 1, modify at 1.
    edestruct (IH fuel (fun i => envs (S i)) (a + 1)
                 {| vm := set_reconnect_attempts g (a + 1) (vm s1);
                    player_state := player_state s1;
                    song_queue := song_queue s1; trace := trace s1 |}
                 vc info song Hcs)
      as (s' & Hrun & Hvm & Hm & Hrecent & Htasks & Hq & Hps & evs2 & Htr2 & Hsch2).
    + lia.
    + simpl. rewrite Hvm1. lia.
    + intros i Hi. apply (Hfail (S i)). lia.
    + exact Hsleep.
    + exact Hok.
    + exists s'. split; [exact Hrun|]. simpl in Hm, Hrecent, Htasks, Hq, Htr2, Hsch2.
      rewrite Hvm1 in Hm, Hrecent, Htasks, Hsch2.
      split; [exact Hvm|]. split; [exact Hm|]. split; [exact Hrecent|].
      split; [exact Htasks|]. split; [congruence|]. split; [exact Hps|].
      exists ([wait] ++ evs1 ++ evs2). split.
      { rewrite Htr2, Htr1. by rewrite <- !(assoc_L (++)). }
      rewrite !schedule_app, Hsch1, Hsch2, Hguild0.
      cbn [expected]. reflexivity.
Qed.

End ReconnectMoreFacts.

Section DriverFacts.
Import Voice.

(** The driver, given how its loop ends. *)
Lemma reconnect_to_voice_run g ch envs final_send s r s1 :
  let cs := Player.get_song (player_state s) g in
  let nc := command_channels (vm s) !! g in
  let a := default 0 (reconnect_attempts (vm s) !! g) in
  let s0 := {| vm := remember g cs (vm s); player_state := player_state s;
               song_queue := snd (Queue.get_queue (song_queue s) g);
               trace := trace s |} in
  reconnect_loop (Z.to_nat (max_reconnect_attempts (vm s) - a)) envs g ch cs nc
    a s0 = (r, s1) ->
  _reconnect_to_voice g ch envs final_send s
  = let s2 := match r with
              | Returned (Exhausted a') | Returned (Broke a') =>
                  snd (clean_up g nc a' final_send s1)
              | _ => s1
              end in
    {| vm := pop_reconnect_task g (vm s2); player_state := player_state s2;
       song_queue := song_queue s2; trace := trace s2 |}.
Proof.
  intros cs nc a s0 Hrun. unfold _reconnect_to_voice.
  fold cs. fold a.
  destruct (remember_fields g cs (vm s)) as (Hm0 & Hb0 & Hc0 & Ha0).
  change (command_channels (vm ?x)) with (command_channels (vm x)).
  cbn [vm]. rewrite Hc0, Hm0. fold nc. fold s0.
  unfold bind. cbv beta. rewrite Hrun.
  destruct r as [[a'|a'| |]|e]; reflexivity.
Qed.

(** X16. The schedule from any counter.  Let the guild's attempt counter be
    [a] (not negative) when the driver starts, on a manager with base
    backoff [b] and at most [M] attempts.  The waits and attempts the
    driver adds are an initial part of: wait [b * 2^a], attempt, wait
    [b * 2^(a+1)], attempt, ..., with [M - a] attempts at most (none when
    [a] has reached [M]); the task reference is dropped in every case.
    When all these attempts fail the schedule is that whole list, the
    song and the transport handle of the guild are cleared, and the
    counter ends at [M] if it was below. *)
Theorem reconnect_schedule_from_counter g ch envs final_send (s : State) :
  let M := max_reconnect_attempts (vm s) in
  let b := reconnect_backoff (vm s) in
  let a := default 0 (reconnect_attempts (vm s) !! g) in
  0 <= a ->
  let s' := _reconnect_to_voice g ch envs final_send s in
  let n := Z.to_nat (M - a) in
  exists evs,
    trace s' = trace s ++ evs
    /\ schedule evs `prefix_of` expected b g ch a n
    /\ (g ∉ reconnect_tasks (vm s'))
    /\ ((forall k, (k < n)%nat ->
           env_sleep (envs k) = Returned tt
           /\ env_get_guild (envs k) = true
           /\ attempt_fails g ch (Player.get_song (player_state s) g)
                (command_channels (vm s) !! g) (envs k)) ->
        schedule evs = expected b g ch a n
        /\ Player.current_songs (player_state s') !! g = None
        /\ Player.voice_clients (player_state s') !! g = None
        /\ (a < M -> reconnect_attempts (vm s') !! g = Some M)
        /\ (M <= a -> reconnect_attempts (vm s') = reconnect_attempts (vm s))).
Proof.
  intros M b a Ha s' n. subst s'.
  set (cs := Player.get_song (player_state s) g).
  set (nc := command_channels (vm s) !! g).
  destruct (remember_fields g cs (vm s)) as (Hm0 & Hb0 & Hc0 & Ha0).
  set (s0 := {| vm := remember g cs (vm s); player_state := player_state s;
                song_queue := snd (Queue.get_queue (song_queue s) g);
                trace := trace s |}).
  destruct (reconnect_loop n envs g ch cs nc a s0) as [r s1] eqn:Hrun.
  rewrite (reconnect_to_voice_run g ch envs final_send s r s1 Hrun).
  fold cs nc.
  destruct (reconnect_loop_schedule g ch cs nc n envs a s0 r s1 Hrun)
    as (Hm1 & Hb1 & evs1 & Htr1 & Hpre1).
  simpl in Hm1, Hb1, Htr1, Hpre1. rewrite Hb0 in Hpre1. fold b in Hpre1.
  assert (Htask : forall v, g ∉ reconnect_tasks (pop_reconnect_task g v)).
  { intros v. simpl. rewrite elem_of_difference. intros [_ Hn].
    apply Hn. by apply elem_of_singleton. }
  assert (Hall :
    (forall k, (k < n)%nat ->
       env_sleep (envs k) = Returned tt
       /\ env_get_guild (envs k) = true
       /\ attempt_fails g ch cs nc (envs k)) ->
    exists a', r = Returned (Exhausted a') /\ M <= a'
      /\ schedule evs1 = expected b g ch a n
      /\ (a < M -> reconnect_attempts (vm s1) !! g = Some M)
      /\ (M <= a -> reconnect_attempts (vm s1) = reconnect_attempts (vm s))).
  { intros Hfail. destruct (Z.le_gt_cases M a) as [Hge|Hlt].
    - rewrite reconnect_loop_exhausted in Hrun by (simpl; rewrite Hm0; exact Hge).
      injection Hrun as <- <-. exists a. split; [reflexivity|].
      split; [exact Hge|].
      assert (Hn : n = 0%nat) by (subst n; lia).
      simpl in Htr1. rewrite <- (app_nil_r (trace s)) in Htr1 at 1.
      apply app_inv_head in Htr1. subst evs1. rewrite Hn.
      split; [reflexivity|]. split; [lia|]. intros _. simpl. exact Ha0.
    - destruct (reconnect_loop_all_fail g ch cs nc n envs a s0 r s1)
        as (Hr & _ & _ & Hset & evs1' & Htr1' & Hsch1');
        [| exact Hfail | exact Hrun |].
      + simpl. rewrite Hm0. subst n. fold M. lia.
      + simpl in Htr1', Hsch1'. rewrite Hb0 in Hsch1'. fold b in Hsch1'.
        rewrite Htr1 in Htr1'. apply app_inv_head in Htr1'. subst evs1'.
        exists (a + Z.of_nat n). split; [exact Hr|]. split; [subst n; lia|].
        split; [exact Hsch1'|]. split; [|lia].
        intros _. rewrite Hset by (subst n; lia). f_equal. subst n. lia. }
  assert (Hm1' : max_reconnect_attempts (vm s1) = M) by (rewrite Hm1, Hm0; done).
  destruct r as [[a'|a'| |]|e]; cbv zeta; cbn [vm player_state trace].
  - destruct (clean_up_effect g nc a' final_send s1)
      as (Hvm & Hclear & evs2 & Htr2 & Hsch2).
    exists (evs1 ++ evs2). split; [by rewrite Htr2, Htr1, (assoc_L (++))|].
    rewrite schedule_app, Hsch2, app_nil_r. split; [exact Hpre1|].
    split; [apply Htask|].
    intros Hfail. destruct (Hall Hfail) as (a2 & Hr & Hge & Hsch & Hlt & Hsame).
    injection Hr as ->. split; [exact Hsch|].
    destruct Hclear as [Hsong Hclient]; [lia|].
    split; [exact Hsong|]. split; [exact Hclient|].
    rewrite Hvm. simpl. split; [exact Hlt | exact Hsame].
  - destruct (clean_up_effect g nc a' final_send s1)
      as (Hvm & Hclear & evs2 & Htr2 & Hsch2).
    exists (evs1 ++ evs2). split; [by rewrite Htr2, Htr1, (assoc_L (++))|].
    rewrite schedule_app, Hsch2, app_nil_r. split; [exact Hpre1|].
    split; [apply Htask|].
    intros Hfail. destruct (Hall Hfail) as (a2 & Hr & _). discriminate Hr.
  - exists evs1. split; [exact Htr1|]. split; [exact Hpre1|].
    split; [apply Htask|].
    intros Hfail. destruct (Hall Hfail) as (a2 & Hr & _). discriminate Hr.
  - exists evs1. split; [exact Htr1|]. split; [exact Hpre1|].
    split; [apply Htask|].
    intros Hfail. destruct (Hall Hfail) as (a2 & Hr & _). discriminate Hr.
  - exists evs1. split; [exact Htr1|]. split; [exact Hpre1|].
    split; [apply Htask|].
    intros Hfail. destruct (Hall Hfail) as (a2 & Hr & _). discriminate Hr.
Qed.

(** X17. A reconnection that succeeds.  The guild was playing [song]; the
    counter is [a]; the first [k] passes fail and pass [k], still within
    the maximum, goes through, [connect] giving [voice_client] and the
    extractor [info].  Then the schedule is [k + 1] waits and attempts; the
    counter is back at 0; the inactivity checker is started and the task
    reference dropped; the transport handle is the new one; and the
    current song is [info] for the same requester with its clock started
    at the reading of that pass and no pause on record: playback resumes
    from the beginning of the song. *)
Theorem reconnect_success g ch envs final_send (s : State) k song vc info :
  let M := max_reconnect_attempts (vm s) in
  let a := default 0 (reconnect_attempts (vm s) !! g) in
  Player.get_song (player_state s) g = Some song ->
  0 <= a -> a + Z.of_nat k < M ->
  (forall i, (i < k)%nat ->
     env_sleep (envs i) = Returned tt
     /\ env_get_guild (envs i) = true
     /\ attempt_fails g ch (Some song) (command_channels (vm s) !! g) (envs i)) ->
  env_sleep (envs k) = Returned tt ->
  attempt_succeeds (envs k) vc info ->
  let s' := _reconnect_to_voice g ch envs final_send s in
  (exists evs,
     trace s' = trace s ++ evs
     /\ schedule evs = expected (reconnect_backoff (vm s)) g ch a (S k))
  /\ reconnect_attempts (vm s') !! g = Some 0
  /\ (g ∈ _inactivity_timeouts (vm s'))
  /\ (g ∉ reconnect_tasks (vm s'))
  /\ Player.session_of (player_state s') g
     = (Some {| Player.cs_title := title info;
                Player.cs_duration := duration info;
                Player.cs_thumbnail := thumbnail info;
                Player.cs_url := webpage_url info;
                Player.cs_uploader := uploader info;
                Player.cs_requester := Player.cs_requester song |},
        Some vc, Some (env_now (envs k)), Some 0, None)
  /\ Queue.queue_of (song_queue s') g = Queue.queue_of (song_queue s) g.
Proof.
  intros M a Hsong Ha Hk Hfail Hsleep Hok s'. subst s'.
  set (nc := command_channels (vm s) !! g) in *.
  destruct (remember_fields g (Some song) (vm s)) as (Hm0 & Hb0 & Hc0 & Ha0).
  set (s0 := {| vm := remember g (Some song) (vm s);
                player_state := player_state s;
                song_queue := snd (Queue.get_queue (song_queue s) g);
                trace := trace s |}).
  destruct (reconnect_loop_success g ch (Some song) nc k (Z.to_nat (M - a))
              envs a s0 vc info song eq_refl)
    as (s1 & Hrun & Hvm & _ & _ & Htasks & Hq & [ps Hps] & evs & Htr & Hsch);
    [lia | subst s0; cbn [vm]; rewrite Hm0; fold M; lia | exact Hfail
    | exact Hsleep
    | exact Hok |].
  pose proof (reconnect_to_voice_run g ch envs final_send s
                (Returned Reconnected) s1) as Hdrv.
  cbv zeta in Hdrv. rewrite Hsong in Hdrv. fold nc a M s0 in Hdrv.
  rewrite (Hdrv Hrun). cbn [vm player_state song_queue trace].
  unfold s0 in Htr, Hsch, Hq. cbn [vm trace song_queue] in Htr, Hsch, Hq.
  rewrite Hb0 in Hsch.
  split; [by exists evs|].
  split; [rewrite Hvm; simpl; apply lookup_insert_eq|].
  split; [rewrite Hvm; simpl; apply elem_of_union_l; by apply elem_of_singleton|].
  split.
  { simpl. rewrite elem_of_difference. intros [_ Hn].
    apply Hn. by apply elem_of_singleton. }
  split.
  - rewrite Hps. unfold Player.session_of. simpl.
    rewrite !lookup_insert_eq, lookup_delete_eq. reflexivity.
  - rewrite Hq. unfold Queue.get_queue, Queue.getitem. simpl.
    apply queue_of_set_queue.
Qed.

End DriverFacts.

Lemma reconnect_schedule_from_counter_witness :
  exists evs,
    Voice.trace
      (Voice._reconnect_to_voice Samples.guild VoiceSamples.lobby
         (fun _ => VoiceSamples.unreachable) (Returned tt)
         VoiceSamples.interrupted)
    = Voice.trace VoiceSamples.interrupted ++ evs
    /\ Voice.schedule evs
       = [Voice.Sleep 20; Voice.GetGuild Samples.guild;
          Voice.Connect VoiceSamples.lobby].
Proof.
  destruct (reconnect_schedule_from_counter Samples.guild VoiceSamples.lobby
              (fun _ => VoiceSamples.unreachable) (Returned tt)
              VoiceSamples.interrupted ltac:(vm_compute; discriminate))
    as (evs & Htr & _ & _ & Hfail).
  exists evs. split; [exact Htr|].
  destruct Hfail as (Hsch & _).
  - intros k _. split; [reflexivity|]. split; [reflexivity|].
    apply unreachable_fails.
  - exact Hsch.
Defined.

Lemma reconnect_success_witness :
  Voice.reconnect_attempts
    (Voice.vm
       (Voice._reconnect_to_voice Samples.guild VoiceSamples.lobby
          VoiceSamples.second_try (Returned tt) VoiceSamples.lost))
    !! Samples.guild
  = Some 0.
Proof.
  apply (reconnect_success Samples.guild VoiceSamples.lobby
           VoiceSamples.second_try (Returned tt) VoiceSamples.lost 1
           VoiceSamples.now_playing {| voice_client_id := 2 |}
           (Samples.song 180)).
  - reflexivity.
  - vm_compute. discriminate.
  - vm_compute. reflexivity.
  - intros i Hi. assert (i = 0%nat) as -> by lia.
    split; [reflexivity|]. split; [reflexivity|]. apply unreachable_fails.
  - reflexivity.
  - repeat split.
Defined.

(** ** The record of recent songs *)

Section RecentFacts.
Import Voice.

Lemma take_cons_take {A} (m : nat) (x : A) l :
  take m (x :: take m l) = take m (x :: l).
Proof.
  destruct m as [|m]; [reflexivity|]. simpl. f_equal.
  rewrite take_take. f_equal. lia.
Qed.

Lemma remember_recent g song v :
  0 <= max_recent_songs v ->
  recent_songs (remember g (Some song) v) !! g
  = Some (take (Z.to_nat (max_recent_songs v))
            (song :: default [] (recent_songs v !! g)))
  /\ max_recent_songs (remember g (Some song) v) = max_recent_songs v.
Proof.
  intros Hmax. unfold remember.
  set (recent := song :: default [] (recent_songs v !! g)).
  split; [|by destruct (_ <? _)].
  destruct (Z.ltb_spec (max_recent_songs v) (Z.of_nat (length recent)));
    simpl; rewrite lookup_insert_eq; [reflexivity|].
  f_equal. symmetry. apply take_ge. lia.
Qed.

Lemma remember_all_recent g songs : forall v,
  0 <= max_recent_songs v ->
  songs <> [] ->
  recent_songs (remember_all g songs v) !! g
  = Some (take (Z.to_nat (max_recent_songs v))
            (rev songs ++ default [] (recent_songs v !! g)))
  /\ max_recent_songs (remember_all g songs v) = max_recent_songs v.
Proof.
  unfold remember_all.
  induction songs as [|song songs IH] using rev_ind; intros v Hmax Hne;
    [done|].
  rewrite foldl_app. cbn [foldl]. rewrite rev_app_distr.
  change (rev [song] ++ rev songs) with (song :: rev songs).
  set (v1 := foldl (fun v0 s => remember g (Some s) v0) v songs) in *.
  assert (Hv1 : max_recent_songs v1 = max_recent_songs v
                /\ (default [] (recent_songs v1 !! g)
                    = take (Z.to_nat (max_recent_songs v))
                        (rev songs ++ default [] (recent_songs v !! g))
                    \/ songs = [])).
  { destruct songs as [|s0 songs0].
    - split; [reflexivity | by right].
    - destruct (IH v Hmax ltac:(discriminate)) as [Hrec Hm].
      split; [exact Hm|]. left. unfold v1. by rewrite Hrec. }
  destruct Hv1 as [Hm Hrec].
  destruct (remember_recent g song v1 ltac:(lia)) as [Hrec1 Hm1].
  rewrite Hrec1, Hm1, Hm. split; [|reflexivity]. f_equal.
  destruct Hrec as [Hrec| ->].
  - rewrite Hrec. apply take_cons_take.
  - reflexivity.
Qed.

(** X18. The history.  Songs of a guild are put on record when they end,
    on a manager that keeps at most [max_recent_songs] of them.
    After any such songs, the record holds the last ones, latest first, and
    the [history] command shows the latest [min(limit', max_recent_songs)]
    of them, [limit'] being the limit brought into 1..20: on the manager as
    created, never more than 5, whatever limit is asked. *)
Theorem history_shows_latest g songs limit v :
  0 <= max_recent_songs v ->
  recent_songs v !! g = None ->
  let v' := remember_all g songs v in
  let kept := take (Z.to_nat (max_recent_songs v)) (rev songs) in
  default [] (recent_songs v' !! g) = kept
  /\ history v' g limit = take (Z.to_nat (history_limit limit)) kept
  /\ (length (history v' g limit) <= Z.to_nat (max_recent_songs v))%nat
  /\ (max_recent_songs v = 5 -> (length (history v' g limit) <= 5)%nat).
Proof.
  intros Hmax Hnone v' kept.
  assert (Hrec : default [] (recent_songs v' !! g) = kept).
  { subst v' kept. destruct songs as [|s0 songs0].
    - simpl. rewrite Hnone. by rewrite take_nil.
    - destruct (remember_all_recent g (s0 :: songs0) v Hmax ltac:(discriminate))
        as [-> _].
      rewrite Hnone. simpl. by rewrite app_nil_r. }
  assert (Hhist : history v' g limit = take (Z.to_nat (history_limit limit)) kept).
  { unfold history, get_recently_played. rewrite Hrec.
    unfold PyList.slice. cbv zeta.
    assert (Hl : 1 <= history_limit limit) by (unfold history_limit; lia).
    destruct (Z.ltb_spec 0 0); [lia|].
    destruct (Z.ltb_spec (Z.min (history_limit limit) (Z.of_nat (length kept))) 0);
      [lia|].
    replace (Z.min 0 (Z.of_nat (length kept))) with 0 by lia.
    rewrite Z.sub_0_r. change (Z.to_nat 0) with 0%nat. rewrite drop_0.
    destruct (Z.le_gt_cases (history_limit limit) (Z.of_nat (length kept))).
    - f_equal. lia.
    - rewrite !take_ge by lia. reflexivity. }
  split; [exact Hrec|]. split; [exact Hhist|].
  assert (Hlen : (length (history v' g limit) <= Z.to_nat (max_recent_songs v))%nat).
  { rewrite Hhist, length_take. subst kept. rewrite length_take. lia. }
  split; [exact Hlen|]. intros H5. rewrite H5 in Hlen. exact Hlen.
Qed.

End RecentFacts.

Lemma history_shows_latest_witness :
  (length (Voice.history
             (Voice.remember_all Samples.guild
                (replicate 7 VoiceSamples.now_playing) Voice.init)
             Samples.guild 20) <= 5)%nat.
Proof.
  apply (history_shows_latest Samples.guild
           (replicate 7 VoiceSamples.now_playing) 20 Voice.init);
    [vm_compute; discriminate | reflexivity | reflexivity].
Defined.

(** ** The end of a song *)

Section SongEndFacts.
Import Voice.
Variable g : Z.

Lemma pop_song_spec qm :
  exists qm',
    Queue.pop_song qm g = (head (Queue.queue_of qm g), qm')
    /\ Queue.queue_of qm' g = drop 1 (Queue.queue_of qm g)
    /\ (forall g', g' <> g -> Queue.queue_of qm' g' = Queue.queue_of qm g').
Proof.
  destruct (Queue.queue_of qm g) as [|x q] eqn:Hq.
  - destruct (pop_song_nil qm g Hq) as (qm' & Hpop & Hsame).
    exists qm'. split; [exact Hpop|]. split.
    + by rewrite Hsame, Hq.
    + intros g' _. apply Hsame.
  - exists (Queue.set_queue qm g q). split; [by apply pop_song_cons|].
    split; [apply queue_of_set_queue|].
    intros g' Hne. by apply queue_of_set_queue_ne.
Qed.

Ltac run_handler :=
  unfold _handle_song_end, bind, gets, with_vm, with_player, modify, perform,
    ret, pop_next, try_except_Exception, lift;
  cbn [vm player_state song_queue trace].

Ltac run_cases :=
  repeat (cbn [vm player_state song_queue trace fst snd isinstance_Exception];
          match goal with
          | |- context [match ?o with Returned _ => _ | Raised _ => _ end] =>
              destruct o
          | |- context [match ?o with Some _ => _ | None => _ end] =>
              destruct o
          | |- context [match ?o with Exception _ => _ | CancelledError => _ end] =>
              destruct o
          | |- context [if ?b then _ else _] => destruct b
          end);
  cbn [vm player_state song_queue trace fst snd].

(** One run and the queue: the run takes the head off the guild's
    queue, unless it raised, and it asks for another run only when there
    was a head to take. *)
Lemma handle_song_end_queue b env s :
  let q := Queue.queue_of (song_queue s) g in
  let r := _handle_song_end g b env s in
  (Queue.queue_of (song_queue (snd r)) g = drop 1 q
   \/ ((exists e, fst r = Raised e)
       /\ Queue.queue_of (song_queue (snd r)) g = q))
  /\ (fst r = Returned true -> q <> [])
  /\ (forall g', g' <> g ->
        Queue.queue_of (song_queue (snd r)) g'
        = Queue.queue_of (song_queue s) g').
Proof.
  intros q r. subst q r. run_handler.
  destruct (pop_song_spec (song_queue s)) as (qm' & Hpop & Hq & Hother).
  destruct (Queue.queue_of (song_queue s) g) as [|x q'] eqn:Hqq;
    cbn [head] in Hpop;
    (destruct b;
     [match goal with
      | |- context [command_channels ?v !! g] =>
          destruct (command_channels v !! g) as [c|]
      end;
      [destruct (end_send_error env) as [[]|e]|]|]);
    cbn [vm player_state song_queue trace fst snd]; rewrite ?Hpop;
    run_cases;
    (split; [first [by left | right; split; [by eexists | exact Hqq]]|]);
    (split; [done|]); first [exact Hother | done].
Qed.


(** X19. Retries end.  A run of the handler that fails while starting the
    next song creates a task that runs the handler again.  Each such run
    has taken one entry off the guild's queue, so with [n] entries queued
    there are at most [n + 1] runs, whatever the environment answers; the
    queue is left without its first entries, one per run. *)
Theorem song_end_retries_bounded envs b s :
  let q := Queue.queue_of (song_queue s) g in
  let r := song_end_chain (S (length q)) envs g b s in
  match fst r with
  | Settled n =>
      (1 <= n <= S (length q))%nat
      /\ Queue.queue_of (song_queue (snd r)) g = drop n q
  | Died e n =>
      (1 <= n <= S (length q))%nat
      /\ exists m, (n - 1 <= m <= n)%nat
           /\ Queue.queue_of (song_queue (snd r)) g = drop m q
  | NoFuel => False
  end.
Proof.
  assert (Hgen : forall fuel envs b s,
    let q := Queue.queue_of (song_queue s) g in
    (length q < fuel)%nat ->
    let r := song_end_chain fuel envs g b s in
    match fst r with
    | Settled n =>
        (1 <= n <= S (length q))%nat
        /\ Queue.queue_of (song_queue (snd r)) g = drop n q
    | Died e n =>
        (1 <= n <= S (length q))%nat
        /\ exists m, (n - 1 <= m <= n)%nat
             /\ Queue.queue_of (song_queue (snd r)) g = drop m q
    | NoFuel => False
    end).
  { clear envs b s.
    induction fuel as [|fuel IH]; intros envs b s q Hfuel r; [lia|].
    subst r. cbn [song_end_chain].
    destruct (handle_song_end_queue b (envs 0%nat) s) as (Hq & Htrue & _).
    fold q in Hq, Htrue.
    destruct (_handle_song_end g b (envs 0%nat) s) as [[[|]|e] s1];
      cbn [fst snd] in Hq, Htrue |- *.
    - specialize (Htrue eq_refl).
      destruct Hq as [Hq|[[e He] _]]; [|discriminate He].
      assert (Hlen : (length (Queue.queue_of (song_queue s1) g) < fuel)%nat).
      { rewrite Hq, length_drop. destruct q; [done|]. simpl in *. lia. }
      specialize (IH (fun i => envs (S i)) true s1 Hlen).
      cbv zeta in IH.
      destruct (song_end_chain fuel (fun i => envs (S i)) g true s1) as [r2 s2].
      cbn [fst snd] in IH |- *. rewrite Hq, length_drop in IH.
      destruct r2 as [n|e n|]; cbn [one_more]; [| |done].
      + destruct IH as [Hn Hq2]. split; [destruct q; [done|]; simpl in *; lia|].
        rewrite Hq2, drop_drop. reflexivity.
      + destruct IH as [Hn (m & Hm & Hq2)].
        split; [destruct q; [done|]; simpl in *; lia|].
        exists (S m). split; [lia|]. rewrite Hq2, drop_drop. reflexivity.
    - destruct Hq as [Hq|[[e He] _]]; [|discriminate He].
      split; [lia | exact Hq].
    - split; [lia|]. destruct Hq as [Hq|[_ Hq]].
      + exists 1%nat. split; [lia | exact Hq].
      + exists 0%nat. split; [lia | by rewrite drop_0]. }
  intros q. subst q. apply Hgen. lia.
Qed.


(** X20. The next song starts.  When a song ends without error and the
    guild is connected, the head of the queue is taken, a player is made
    for it and started on the guild's transport handle; it becomes the
    current song, for its requester, with its clock at the reading of the
    run and no pause on record; the song that ended goes on record; no
    further run is asked for. *)
Theorem song_end_starts_next env s x rest vc :
  Queue.queue_of (song_queue s) g = x :: rest ->
  Player.voice_clients (player_state s) !! g = Some vc ->
  end_is_connected env = true ->
  end_rate_limit env = Returned tt ->
  truthy (url (Queue.song_info x)) = true ->
  end_create_player env = Returned tt ->
  end_play env = Returned tt ->
  end_send_playing env = Returned tt ->
  let r := _handle_song_end g false env s in
  fst r = Returned false
  /\ Player.session_of (player_state (snd r)) g
     = (Some {| Player.cs_title := title (Queue.song_info x);
                Player.cs_duration := duration (Queue.song_info x);
                Player.cs_thumbnail := thumbnail (Queue.song_info x);
                Player.cs_url := webpage_url (Queue.song_info x);
                Player.cs_uploader := uploader (Queue.song_info x);
                Player.cs_requester := Queue.requester x |},
        Some vc, Some (end_now env), Some 0, None)
  /\ Queue.queue_of (song_queue (snd r)) g = rest
  /\ vm (snd r) = remember g (Player.get_song (player_state s) g) (vm s)
  /\ exists evs,
       trace (snd r) = trace s ++ evs
       /\ players evs = [Queue.song_info x]
       /\ Play vc ∈ evs.
Proof.
  intros Hq Hvc Hconn Hrate Hurl Hcp Hplay Hsend r. subst r. run_handler.
  rewrite (pop_song_cons _ _ _ _ Hq).
  cbn [vm player_state song_queue trace Player.clear_song
         Player.voice_clients].
  rewrite Hvc, Hconn. cbn [negb]. rewrite Hrate, Hurl, andb_false_r.
  cbn [negb vm player_state song_queue trace]. rewrite Hcp.
  cbn [vm player_state song_queue trace]. rewrite Hplay.
  cbn [vm player_state song_queue trace].
  assert (Hsess : forall ps,
    Player.session_of
      (Player.update_song (Player.clear_song ps g) g (Queue.song_info x)
         (Queue.requester x) (end_now env)) g
    = (Some {| Player.cs_title := title (Queue.song_info x);
               Player.cs_duration := duration (Queue.song_info x);
               Player.cs_thumbnail := thumbnail (Queue.song_info x);
               Player.cs_url := webpage_url (Queue.song_info x);
               Player.cs_uploader := uploader (Queue.song_info x);
               Player.cs_requester := Queue.requester x |},
       Player.voice_clients ps !! g, Some (end_now env), Some 0, None)).
  { intros ps. unfold Player.session_of. simpl.
    by rewrite !lookup_insert_eq, lookup_delete_eq. }
  match goal with
  | |- context [command_channels ?v !! g] =>
      destruct (command_channels v !! g) as [c|]
  end; [|destruct (end_system_channel env) as [c|]];
    rewrite ?Hsend; cbn [vm player_state song_queue trace fst snd];
    (split; [reflexivity|]);
    (split; [by rewrite Hsess, Hvc|]);
    (split; [apply queue_of_set_queue|]);
    (split; [reflexivity|]);
    (eexists; split; [rewrite <- ?(assoc_L (++)); reflexivity|]);
    (split; [reflexivity|]); set_solver.
Qed.

(** X21. A song is lost.  When a song ends while the guild has no
    transport handle on record, or the handle is not connected, the head
    of the queue is taken off all the same: it is not played, nothing is
    current, no call is made and no further run is asked for. *)
Theorem song_end_without_voice env s x rest :
  Queue.queue_of (song_queue s) g = x :: rest ->
  Player.voice_clients (player_state s) !! g = None
    \/ end_is_connected env = false ->
  let r := _handle_song_end g false env s in
  fst r = Returned false
  /\ Queue.queue_of (song_queue (snd r)) g = rest
  /\ Player.get_song (player_state (snd r)) g = None
  /\ trace (snd r) = trace s.
Proof.
  intros Hq Hno r. subst r. run_handler.
  rewrite (pop_song_cons _ _ _ _ Hq).
  cbn [vm player_state song_queue trace Player.clear_song
         Player.voice_clients].
  assert (Hcur : Player.get_song (Player.clear_song (player_state s) g) g = None).
  { unfold Player.get_song. simpl. apply lookup_delete_eq. }
  destruct (Player.voice_clients (player_state s) !! g) as [vc|].
  - destruct Hno as [Hno|Hno]; [discriminate Hno|]. rewrite Hno.
    cbn [negb vm player_state song_queue trace fst snd].
    split; [reflexivity|]. split; [apply queue_of_set_queue|].
    split; [exact Hcur | reflexivity].
  - cbn [vm player_state song_queue trace fst snd].
    split; [reflexivity|]. split; [apply queue_of_set_queue|].
    split; [exact Hcur | reflexivity].
Qed.


Lemma handle_song_end_no_player b env s x rest vc :
  Queue.queue_of (song_queue s) g = x :: rest ->
  Player.voice_clients (player_state s) !! g = Some vc ->
  truthy (url (Queue.song_info x)) = true ->
  no_player env ->
  exists s',
    _handle_song_end g b env s = (Returned true, s')
    /\ Queue.queue_of (song_queue s') g = rest
    /\ Player.voice_clients (player_state s') !! g = Some vc
    /\ command_channels (vm s') = command_channels (vm s)
    /\ exists evs,
         trace s' = trace s ++ evs
         /\ players evs = [Queue.song_info x]
         /\ notices "error" evs
            = error_notices b (command_channels (vm s) !! g).
Proof.
  intros Hq Hvc Hurl (Hconn & Hsend & Hrate & what & Hcp). run_handler.
  destruct (remember_fields g (Player.get_song (player_state s) g) (vm s))
    as (_ & _ & Hc0 & _).
  destruct b; cbn [vm player_state song_queue trace]; rewrite ?Hc0;
    [destruct (command_channels (vm s) !! g) as [c|]|];
    rewrite ?Hsend; cbn [vm player_state song_queue trace];
    rewrite (pop_song_cons _ _ _ _ Hq);
    cbn [vm player_state song_queue trace Player.clear_song
           Player.voice_clients];
    rewrite Hvc, Hconn; cbn [negb]; rewrite Hrate, Hurl, andb_false_r;
    cbn [negb vm player_state song_queue trace]; rewrite Hcp;
    cbn [vm player_state song_queue trace isinstance_Exception];
    (eexists; split; [reflexivity|]);
    cbn [vm player_state song_queue trace Player.voice_clients];
    (split; [apply queue_of_set_queue|]);
    (split; [exact Hvc|]); (split; [exact Hc0|]);
    (eexists; split;
     [first [rewrite <- ?(assoc_L (++)); reflexivity]|]);
    split; reflexivity.
Qed.

Lemma handle_song_end_empty b env s :
  Queue.queue_of (song_queue s) g = [] ->
  end_send_error env = Returned tt ->
  exists s',
    _handle_song_end g b env s = (Returned false, s')
    /\ Queue.queue_of (song_queue s') g = []
    /\ Player.get_song (player_state s') g = None
    /\ exists evs,
         trace s' = trace s ++ evs
         /\ players evs = []
         /\ notices "error" evs
            = error_notices b (command_channels (vm s) !! g).
Proof.
  intros Hq Hsend. run_handler.
  destruct (remember_fields g (Player.get_song (player_state s) g) (vm s))
    as (_ & _ & Hc0 & _).
  destruct (pop_song_nil _ _ Hq) as (qm' & Hpop & Hsame).
  assert (Hcur : Player.get_song (Player.clear_song (player_state s) g) g = None).
  { unfold Player.get_song. simpl. apply lookup_delete_eq. }
  destruct b; cbn [vm player_state song_queue trace]; rewrite ?Hc0;
    [destruct (command_channels (vm s) !! g) as [c|]|];
    rewrite ?Hsend; cbn [vm player_state song_queue trace];
    rewrite Hpop; cbn [vm player_state song_queue trace];
    (eexists; split; [reflexivity|]);
    cbn [vm player_state song_queue trace];
    (split; [by rewrite Hsame|]); (split; [exact Hcur|]);
    first [ exists []; split; [by rewrite app_nil_r | split; reflexivity]
          | eexists; split; [reflexivity | split; reflexivity] ].
Qed.

Lemma players_app evs1 evs2 :
  players (evs1 ++ evs2) = players evs1 ++ players evs2.
Proof. apply omap_app. Qed.

Lemma notices_app a evs1 evs2 :
  notices a (evs1 ++ evs2) = notices a evs1 ++ notices a evs2.
Proof. apply omap_app. Qed.

Lemma song_end_chain_no_player q : forall envs b s vc,
  Queue.queue_of (song_queue s) g = q ->
  Player.voice_clients (player_state s) !! g = Some vc ->
  Forall (fun x => truthy (url (Queue.song_info x)) = true) q ->
  (forall i, no_player (envs i)) ->
  exists s',
    song_end_chain (S (length q)) envs g b s = (Settled (S (length q)), s')
    /\ Queue.queue_of (song_queue s') g = []
    /\ Player.get_song (player_state s') g = None
    /\ exists evs,
         trace s' = trace s ++ evs
         /\ players evs = Queue.song_info <$> q
         /\ notices "error" evs
            = error_notices b (command_channels (vm s) !! g)
              ++ mjoin (replicate (length q)
                          (option_list (command_channels (vm s) !! g))).
Proof.
  induction q as [|x q IH]; intros envs b s vc Hq Hvc Hurl Hno.
  - destruct (Hno 0%nat) as (_ & Hsend & _).
    destruct (handle_song_end_empty b (envs 0%nat) s Hq Hsend)
      as (s' & Hrun & Hq' & Hcur & evs & Htr & Hpl & Hnt).
    exists s'. cbn [song_end_chain length]. rewrite Hrun.
    split; [reflexivity|]. split; [exact Hq'|]. split; [exact Hcur|].
    exists evs. split; [exact Htr|]. split; [exact Hpl|].
    simpl. by rewrite app_nil_r.
  - apply Forall_cons in Hurl as [Hx Hurl].
    destruct (handle_song_end_no_player b (envs 0%nat) s x q vc Hq Hvc Hx
                (Hno 0%nat))
      as (s1 & Hrun & Hq1 & Hvc1 & Hc1 & evs1 & Htr1 & Hpl1 & Hnt1).
    destruct (IH (fun i => envs (S i)) true s1 vc Hq1 Hvc1 Hurl
                (fun i => Hno (S i)))
      as (s2 & Hchain & Hq2 & Hcur2 & evs2 & Htr2 & Hpl2 & Hnt2).
    exists s2. cbn [song_end_chain length]. rewrite Hrun.
    cbn [song_end_chain length] in Hchain. rewrite Hchain.
    split; [reflexivity|]. split; [exact Hq2|]. split; [exact Hcur2|].
    exists (evs1 ++ evs2). split; [by rewrite Htr2, Htr1, (assoc_L (++))|].
    rewrite players_app, notices_app, Hpl1, Hpl2, Hnt1, Hnt2, Hc1.
    split; [reflexivity|].
    cbn [error_notices replicate mjoin]. simpl. reflexivity.
Qed.

(** X22. The queue drains.  When no player can be made for any queued song,
    the run that follows the end of a song and the runs it leads to take
    the whole queue: with [n] entries there are [n + 1] runs, a player is
    asked for each entry in queue order, an error notice goes to the
    guild's command channel for each entry, and in the end the queue is
    empty and no song is current. *)
Theorem failing_players_drain_queue envs s vc :
  let q := Queue.queue_of (song_queue s) g in
  Player.voice_clients (player_state s) !! g = Some vc ->
  Forall (fun x => truthy (url (Queue.song_info x)) = true) q ->
  (forall i, no_player (envs i)) ->
  let r := song_end_chain (S (length q)) envs g false s in
  fst r = Settled (S (length q))
  /\ Queue.queue_of (song_queue (snd r)) g = []
  /\ Player.get_song (player_state (snd r)) g = None
  /\ exists evs,
       trace (snd r) = trace s ++ evs
       /\ players evs = Queue.song_info <$> q
       /\ notices "error" evs
          = mjoin (replicate (length q)
                     (option_list (command_channels (vm s) !! g))).
Proof.
  intros q Hvc Hurl Hno r. subst r.
  destruct (song_end_chain_no_player q envs false s vc eq_refl Hvc Hurl Hno)
    as (s' & Hchain & Hq & Hcur & evs & Htr & Hpl & Hnt).
  rewrite Hchain. cbn [fst snd].
  split; [reflexivity|]. split; [exact Hq|]. split; [exact Hcur|].
  exists evs. split; [exact Htr|]. split; [exact Hpl | exact Hnt].
Qed.

End SongEndFacts.

Lemma song_end_starts_next_witness :
  fst (Voice._handle_song_end Samples.guild false VoiceSamples.smooth
         VoiceSamples.queued)
  = Returned false.
Proof.
  apply (song_end_starts_next Samples.guild VoiceSamples.smooth
           VoiceSamples.queued (Samples.entry 1)
           [Samples.entry 2; Samples.entry 3] PlayerSamples.handle);
    reflexivity.
Defined.

Lemma song_end_without_voice_witness :
  Queue.queue_of
    (Voice.song_queue
       (snd (Voice._handle_song_end Samples.guild false VoiceSamples.smooth
               VoiceSamples.handle_gone)))
    Samples.guild
  = [Samples.entry 2; Samples.entry 3].
Proof.
  apply (song_end_without_voice Samples.guild VoiceSamples.smooth
           VoiceSamples.handle_gone (Samples.entry 1)
           [Samples.entry 2; Samples.entry 3]);
    [reflexivity | left; reflexivity].
Defined.

Lemma failing_players_drain_queue_witness :
  fst (Voice.song_end_chain 4 (fun _ => VoiceSamples.no_stream) Samples.guild
         false VoiceSamples.queued)
  = Voice.Settled 4.
Proof.
  apply (failing_players_drain_queue Samples.guild
           (fun _ => VoiceSamples.no_stream) VoiceSamples.queued
           PlayerSamples.handle).
  - reflexivity.
  - repeat constructor.
  - intros i. repeat split. by exists "stream gone".
Defined.

(** ** The commands on the queue *)

Section CommandFacts.
Import Queue.

(** X23. The [remove] command and its positions.  With [n] songs queued:
    a position from 1 to [n] removes the song at that position; a position
    below [1 - n] or above [n] is refused and the reply names 1 to [n] as
    the positions to use; but a position from [1 - n] to 0 is accepted as
    well, removes the song at [n + position] (position 0 the last one),
    and is answered as a removal at the position given. *)
Theorem remove_command_positions qm g position :
  let q := queue_of qm g in
  let n := Z.of_nat (length q) in
  let removed :=
    "Removed song at position " +:+ pretty position +:+ " from the queue." in
  let r := Commands.remove_song qm g position in
  (1 <= position <= n ->
     fst r = removed
     /\ queue_of (snd r) g = delete (Z.to_nat (position - 1)) q)
  /\ (1 - n <= position <= 0 ->
        fst r = removed
        /\ queue_of (snd r) g = delete (Z.to_nat (n + position - 1)) q)
  /\ (position < 1 - n \/ n < position ->
        fst r = "Invalid position. Please use a number between 1 and "
                  +:+ pretty n
        /\ forall g', queue_of (snd r) g' = queue_of qm g').
Proof.
  intros q n removed r. subst r. unfold Commands.remove_song.
  split; [|split].
  - intros Hp. rewrite remove_song_in_range by (fold q n; lia).
    cbn [fst snd]. split; [reflexivity | apply queue_of_set_queue].
  - intros Hp. rewrite remove_song_negative by (fold q n; lia).
    cbn [fst snd]. split; [reflexivity|].
    rewrite queue_of_set_queue. fold q n. f_equal. lia.
  - intros Hp.
    destruct (remove_song_beyond qm g (position - 1)) as (qm' & -> & Hsame);
      [fold q n; lia|].
    unfold get_queue_length, getitem. cbn [fst snd].
    rewrite Hsame. fold q n. split; [reflexivity|].
    intros g'. destruct (decide (g' = g)) as [->|Hne].
    + by rewrite queue_of_set_queue.
    + rewrite queue_of_set_queue_ne by done. apply Hsame.
Qed.

Lemma pop_times_drop n : forall qm g,
  queue_of (Commands.pop_times qm g n) g = drop n (queue_of qm g)
  /\ forall g', g' <> g ->
       queue_of (Commands.pop_times qm g n) g' = queue_of qm g'.
Proof.
  induction n as [|n IH]; intros qm g; cbn [Commands.pop_times].
  - by rewrite drop_0.
  - destruct (queue_of qm g) as [|x q] eqn:Hq.
    + destruct (pop_song_nil qm g Hq) as (qm' & Hpop & Hsame).
      rewrite Hpop. cbn [snd]. destruct (IH qm' g) as [IH1 IH2].
      rewrite IH1, Hsame, Hq, drop_nil. split; [by rewrite drop_nil|].
      intros g' Hne. by rewrite IH2, Hsame.
    + rewrite (pop_song_cons qm g x q Hq). cbn [snd].
      destruct (IH (set_queue qm g q) g) as [IH1 IH2].
      rewrite IH1, queue_of_set_queue. split; [reflexivity|].
      intros g' Hne. by rewrite IH2, queue_of_set_queue_ne.
Qed.

End CommandFacts.

Section SkipFacts.
Import Queue Voice.

(** The song the handler makes current, whatever becomes of the notice
    that follows. *)
Lemma handle_song_end_current g env s x rest vc :
  queue_of (song_queue s) g = x :: rest ->
  Player.voice_clients (player_state s) !! g = Some vc ->
  end_is_connected env = true ->
  end_rate_limit env = Returned tt ->
  truthy (url (song_info x)) = true ->
  end_create_player env = Returned tt ->
  end_play env = Returned tt ->
  Player.get_song (player_state (snd (_handle_song_end g false env s))) g
  = Some {| Player.cs_title := title (song_info x);
            Player.cs_duration := duration (song_info x);
            Player.cs_thumbnail := thumbnail (song_info x);
            Player.cs_url := webpage_url (song_info x);
            Player.cs_uploader := uploader (song_info x);
            Player.cs_requester := requester x |}.
Proof.
  intros Hq Hvc Hconn Hrate Hurl Hcp Hplay.
  unfold _handle_song_end, bind, gets, with_vm, with_player, modify, perform,
    ret, pop_next, try_except_Exception, lift.
  cbn [vm player_state song_queue trace].
  rewrite (pop_song_cons _ _ _ _ Hq).
  cbn [vm player_state song_queue trace Player.clear_song
         Player.voice_clients].
  rewrite Hvc, Hconn. cbn [negb]. rewrite Hrate, Hurl, andb_false_r.
  cbn [negb vm player_state song_queue trace]. rewrite Hcp.
  cbn [vm player_state song_queue trace]. rewrite Hplay.
  cbn [vm player_state song_queue trace].
  match goal with
  | |- context [command_channels ?v !! g] =>
      destruct (command_channels v !! g) as [c|]
  end; [|destruct (end_system_channel env) as [c|]];
    try (destruct (end_send_playing env) as [[]|e];
         [|destruct (isinstance_Exception e)]);
    cbn [vm player_state song_queue trace fst snd];
    unfold Player.get_song; simpl; apply lookup_insert_eq.
Qed.

(** X24. Skipping to a position.  While something is playing or paused and
    no songs are being processed, [skip] with a position [p] from 1 to the
    length of the queue stops the transport and takes the [p - 1] songs
    before that position off the queue: the song named in the reply is
    now at the head, the queues of other guilds are as before, and the
    song-end handler that the stop brings about makes that song the
    current one. *)
Theorem skip_to_position ps qm g p vc :
  let q := queue_of qm g in
  Commands.is_playing vc || Commands.is_paused vc = true ->
  1 <= p <= Z.of_nat (length q) ->
  let r := Commands.skip false (Some vc) ps qm g (Some p) in
  exists target,
    q !! Z.to_nat (p - 1) = Some target
    /\ fst (fst r)
       = Returned
           {| Commands.reply_action := "skip";
              Commands.reply_details :=
                "Skipped to **" +:+ title (song_info target) +:+ "**";
              Commands.reply_success := true |}
    /\ snd (fst r) = true
    /\ queue_of (snd r) g = target :: drop (Z.to_nat p) q
    /\ (forall g', g' <> g -> queue_of (snd r) g' = queue_of qm g')
    /\ forall s env handle,
         song_queue s = snd r ->
         Player.voice_clients (player_state s) !! g = Some handle ->
         end_is_connected env = true ->
         end_rate_limit env = Returned tt ->
         truthy (url (song_info target)) = true ->
         end_create_player env = Returned tt ->
         end_play env = Returned tt ->
         Player.cs_title
           <$> Player.get_song
                 (player_state (snd (_handle_song_end g false env s))) g
         = Some (title (song_info target)).
Proof.
  intros q Hvc Hp r.
  destruct (lookup_lt_is_Some_2 q (Z.to_nat (p - 1)) ltac:(lia))
    as [target Htarget].
  exists target. split; [exact Htarget|].
  assert (Hr : r = (Returned
                      {| Commands.reply_action := "skip";
                         Commands.reply_details :=
                           "Skipped to **" +:+ title (song_info target)
                             +:+ "**";
                         Commands.reply_success := true |}, true,
                    Commands.pop_times
                      (set_queue (set_queue qm g q) g q) g
                      (Z.to_nat (p - 1)))).
  { subst r. unfold Commands.skip.
    destruct (Commands.is_playing vc), (Commands.is_paused vc);
      try discriminate Hvc; cbn [negb andb];
      unfold get_queue_length, get_queue, getitem; fold q;
      rewrite queue_of_set_queue;
      (destruct (Z.eqb_spec (Z.of_nat (length q)) 0); [lia|]);
      (destruct (Z.ltb_spec p 1); [lia|]);
      (destruct (Z.ltb_spec (Z.of_nat (length q)) p); [lia|]);
      cbn [orb]; rewrite Htarget; reflexivity. }
  rewrite Hr. cbn [fst snd].
  destruct (pop_times_drop (Z.to_nat (p - 1))
              (set_queue (set_queue qm g q) g q) g) as [Hdrop Hother].
  rewrite queue_of_set_queue in Hdrop.
  assert (Hhead : queue_of
                    (Commands.pop_times (set_queue (set_queue qm g q) g q) g
                       (Z.to_nat (p - 1))) g
                  = target :: drop (Z.to_nat p) q).
  { rewrite Hdrop, (drop_S _ _ _ Htarget). do 2 f_equal. lia. }
  split; [reflexivity|]. split; [reflexivity|]. split; [exact Hhead|].
  split.
  - intros g' Hne. rewrite Hother by done.
    by rewrite !queue_of_set_queue_ne.
  - intros s env handle Hs Hh Hconn Hrate Hurl Hcp Hplay.
    rewrite <- Hs in Hhead.
    by rewrite (handle_song_end_current g env s target _ handle Hhead Hh
                  Hconn Hrate Hurl Hcp Hplay).
Qed.

End SkipFacts.

Lemma skip_to_position_witness :
  exists target,
    Queue.queue_of Samples.queue_abc Samples.guild !! 1%nat = Some target
    /\ snd (fst (Commands.skip false
                   (Some {| Commands.is_playing := true;
                            Commands.is_paused := false |})
                   PlayerSamples.connected Samples.queue_abc Samples.guild
                   (Some 2)))
       = true.
Proof.
  destruct (skip_to_position PlayerSamples.connected Samples.queue_abc
              Samples.guild 2
              {| Commands.is_playing := true; Commands.is_paused := false |}
              eq_refl ltac:(vm_compute; split; congruence))
    as (target & Htarget & _ & Hstop & _).
  exists target. split; [exact Htarget | exact Hstop].
Defined.

(** ** Spotify links: the cached list is the list that is consumed *)

Section SpotifyFacts.
Import Commands Playback.
Variable service : nat -> string -> outcome (list Spotify.Track).
Variable is_spotify_url : string -> bool.

Abbreviation key_of url :=
  (Cache._generate_key id "_get_songs_from_url_impl" [url] []).

(** A miss on which the service answers: the list is stored under a new
    address, and the address is what the cache keeps and returns. *)
Lemma get_songs_from_url_miss c url clk w tracks :
  Cache.live_entry c (key_of url) (Cache.t_fast clk) = None ->
  Cache.live_entry c (key_of url) (Cache.t_lock clk) = None ->
  service (Spotify.requests w) url = Returned tracks ->
  Spotify.get_songs_from_url service c url clk w
  = (Returned (Spotify.next w),
     Cache.trim
       (Cache.with_cache (Cache.with_misses c (Cache.misses c + 1))
          (PyDict.set (Cache.cache c) (key_of url)
             (Cache.CacheEntry_init (Spotify.next w) (Cache.ttl c)
                (Cache.t_store clk)))),
     {| Spotify.heap := <[Spotify.next w := tracks]> (Spotify.heap w);
        Spotify.next := S (Spotify.next w);
        Spotify.requests := S (Spotify.requests w) |}).
Proof.
  intros Hfast Hlock Hsvc. unfold Spotify.get_songs_from_url.
  rewrite (get_or_compute_miss id c (Spotify.impl_func service) [url] [] clk w
             Hfast Hlock).
  cbn [Spotify.impl_func Cache.call Cache.func_name].
  unfold Spotify._get_songs_from_url_impl. rewrite Hsvc. reflexivity.
Qed.

(** A hit returns the address the entry holds. *)
Lemma get_songs_from_url_hit c url clk w entry :
  Cache.live_entry c (key_of url) (Cache.t_fast clk) = Some entry ->
  Spotify.get_songs_from_url service c url clk w
  = (Returned (Cache.value entry), Cache.with_hits c (Cache.hits c + 1), w).
Proof.
  intros Hfast. unfold Spotify.get_songs_from_url.
  by rewrite (get_or_compute_hit_fast id c (Spotify.impl_func service) [url] []
                clk w entry Hfast).
Qed.

(** [play] on a Spotify link, in a calm environment, once the list is
    at hand. *)
Lemma play_spotify_songs g url env cog songs c w first_song rest :
  is_spotify_url url = true ->
  calm env ->
  Spotify.get_songs_from_url service (spotify_cache cog) url (env_clock env)
    (world cog) = (Returned songs, c, w) ->
  Spotify.deref w songs = first_song :: rest ->
  let cog' := snd (play service is_spotify_url g url env cog) in
  fst (play service is_spotify_url g url env cog) = Returned tt
  /\ processing_states cog' = <[g := true]> (processing_states cog)
  /\ spotify_cache cog' = c
  /\ world cog' = Spotify.store w songs rest
  /\ played cog' = played cog ++ [Spotify.track_search_query first_song]
  /\ sent cog'
     = sent cog ++ match rest with
                   | [] => []
                   | _ => [adding (S (length rest))]
                   end
  /\ tasks cog'
     = tasks cog ++ match rest with
                    | [] => []
                    | _ => if env_voice_client env then [(g, songs)] else []
                    end.
Proof.
  intros Hurl (Hvoice & Hsend & Hplay) Hget Hderef cog'. subst cog'.
  unfold play. rewrite Hvoice, Hurl. cbn [negb].
  unfold spotify_body.
  cbn [set_processing spotify_cache world]. rewrite Hget.
  cbn [set_spotify world]. rewrite Hderef.
  assert (Hstored : Spotify.deref (Spotify.store w songs rest) songs = rest).
  { unfold Spotify.deref, Spotify.store. simpl. by rewrite lookup_insert_eq. }
  destruct rest as [|second rest'].
  - cbn [length Nat.ltb Nat.leb]. unfold play_song.
    cbn [set_spotify spotify_cache world sent played tasks processing_states].
    rewrite Hplay, Hstored. rewrite bool_decide_eq_true_2 by done.
    rewrite andb_false_r.
    cbn [fst snd processing_states spotify_cache world sent played tasks
           set_processing].
    rewrite !app_nil_r. repeat split; reflexivity.
  - cbn [length Nat.ltb Nat.leb]. unfold send, play_song. rewrite Hsend.
    cbn [set_spotify spotify_cache world sent played tasks processing_states].
    rewrite Hplay, Hstored. rewrite bool_decide_eq_false_2 by done.
    destruct (env_voice_client env);
      cbn [negb andb create_task fst snd processing_states spotify_cache
             world sent played tasks set_processing];
      rewrite ?app_nil_r; repeat split; reflexivity.
Qed.


Lemma play_spotify_no_songs g url env cog songs c w :
  is_spotify_url url = true ->
  calm env ->
  Spotify.get_songs_from_url service (spotify_cache cog) url (env_clock env)
    (world cog) = (Returned songs, c, w) ->
  Spotify.deref w songs = [] ->
  let cog' := snd (play service is_spotify_url g url env cog) in
  fst (play service is_spotify_url g url env cog) = Returned tt
  /\ world cog' = w
  /\ played cog' = played cog
  /\ sent cog' = sent cog ++ [no_songs]
  /\ tasks cog' = tasks cog.
Proof.
  intros Hurl (Hvoice & Hsend & Hplay) Hget Hderef cog'. subst cog'.
  unfold play. rewrite Hvoice, Hurl. cbn [negb].
  unfold spotify_body.
  cbn [set_processing spotify_cache world]. rewrite Hget.
  cbn [set_spotify world]. rewrite Hderef.
  unfold send. rewrite Hsend. repeat split; reflexivity.
Qed.

(** X25. Playing a link twice.  A Spotify link is played; the cache has no
    live entry for it and the service answers with a list of tracks: the
    first track is started.  The link is played again within the two
    hours of the entry.  The service is not asked again, and what the
    cache hands out is the list the first run took its first track from:
    the second run starts the second track, not the first; and if the
    link had a single track, the second run finds no song and says so. *)
Theorem spotify_replay_loses_tracks g url env1 env2 cog T first_song rest :
  is_spotify_url url = true ->
  Cache.inv 50 7200 (spotify_cache cog) ->
  Cache.expires_by T (spotify_cache cog) ->
  T <= Cache.t_store (env_clock env1) ->
  Cache.live_entry (spotify_cache cog) (key_of url)
    (Cache.t_fast (env_clock env1)) = None ->
  Cache.live_entry (spotify_cache cog) (key_of url)
    (Cache.t_lock (env_clock env1)) = None ->
  service (Spotify.requests (world cog)) url = Returned (first_song :: rest) ->
  calm env1 -> calm env2 ->
  Cache.t_fast (env_clock env2) <= Cache.t_store (env_clock env1) + 7200 ->
  let cog1 := snd (play service is_spotify_url g url env1 cog) in
  let cog2 := snd (play service is_spotify_url g url env2 cog1) in
  played cog1 = played cog ++ [Spotify.track_search_query first_song]
  /\ Spotify.requests (world cog2) = S (Spotify.requests (world cog))
  /\ match rest with
     | [] => played cog2 = played cog1 /\ sent cog2 = sent cog1 ++ [no_songs]
     | second :: _ =>
         played cog2 = played cog1 ++ [Spotify.track_search_query second]
     end.
Proof.
  intros Hurl (Hwf & Hmax & Httl & Hlen) Hexp HT Hfast Hlock Hsvc Hcalm1 Hcalm2
    Hle cog1 cog2.
  set (c := spotify_cache cog) in *. set (w := world cog) in *.
  set (clk := env_clock env1) in *.
  set (ref := Spotify.next w).
  pose proof (get_songs_from_url_miss c url clk w _ Hfast Hlock Hsvc) as Hget1.
  match type of Hget1 with _ = (_, ?c0, ?w0) =>
    set (c1 := c0) in *; set (w1 := w0) in * end.
  assert (Hderef1 : Spotify.deref w1 ref = first_song :: rest).
  { unfold Spotify.deref, w1. simpl. by rewrite lookup_insert_eq. }
  destruct (play_spotify_songs g url env1 cog ref c1 w1 first_song rest Hurl
              Hcalm1 Hget1 Hderef1)
    as (_ & _ & Hc1 & Hw1 & Hplayed1 & _).
  fold cog1 in Hc1, Hw1, Hplayed1.
  (* the entry of the first run is still there *)
  assert (Hentry : PyDict.get (Cache.cache c1) (key_of url)
                   = Some (Cache.CacheEntry_init ref (Cache.ttl c)
                             (Cache.t_store clk))).
  { pose proof (get_or_compute_miss id c (Spotify.impl_func service) [url] []
                  clk w Hfast Hlock) as Hmiss.
    assert (Hcall : Cache.call (Spotify.impl_func service) [url] [] w
                    = (Returned ref, w1)).
    { cbn [Spotify.impl_func Cache.call].
      unfold Spotify._get_songs_from_url_impl. by rewrite Hsvc. }
    pose proof (get_or_compute_stores id c (Spotify.impl_func service) [url] []
                  clk w ref w1 Hfast Hlock Hcall) as Hst.
    rewrite Hmiss, Hcall in Hst. cbn [fst snd] in Hst.
    apply Hst.
    rewrite Hmax. apply fresh_key_not_oldest; try done.
    intros k e Hin. specialize (Hexp k e Hin). simpl. lia. }
  assert (Hlive : Cache.live_entry c1 (key_of url)
                    (Cache.t_fast (env_clock env2))
                  = Some (Cache.CacheEntry_init ref (Cache.ttl c)
                            (Cache.t_store clk))).
  { unfold Cache.live_entry. rewrite Hentry. unfold Cache.is_expired. simpl.
    rewrite Httl.
    destruct (Z.ltb_spec (Cache.t_store clk + 7200)
                (Cache.t_fast (env_clock env2))); [lia | reflexivity]. }
  pose proof (get_songs_from_url_hit c1 url (env_clock env2) (world cog1) _
                Hlive) as Hget2.
  rewrite <- Hc1 in Hget2. cbn [Cache.value Cache.CacheEntry_init] in Hget2.
  assert (Hderef2 : Spotify.deref (world cog1) ref = rest).
  { rewrite Hw1. unfold Spotify.deref, Spotify.store. simpl.
    by rewrite lookup_insert_eq. }
  split; [exact Hplayed1|].
  destruct rest as [|second rest'].
  - destruct (play_spotify_no_songs g url env2 cog1 ref _ _ Hurl Hcalm2 Hget2
                Hderef2) as (_ & Hw2 & Hplayed2 & Hsent2 & _).
    fold cog2 in Hw2, Hplayed2, Hsent2.
    split; [by rewrite Hw2, Hw1|]. split; [exact Hplayed2 | exact Hsent2].
  - destruct (play_spotify_songs g url env2 cog1 ref _ _ second rest' Hurl
                Hcalm2 Hget2 Hderef2) as (_ & _ & _ & Hw2 & Hplayed2 & _).
    fold cog2 in Hw2, Hplayed2.
    split; [by rewrite Hw2, Hw1 | exact Hplayed2].
Qed.

(** X26. The processing flag.  [play] raises the guild's flag before it
    looks the link up, and leaves it to the background task to lower it.
    When the link has a single track, or the guild has no transport handle
    after the first track was handed over, no task is created: the flag
    stays raised, and a [skip] that reads it answers that songs are still
    being processed. *)
Theorem spotify_flag_stays_raised g url env cog songs c w first_song rest
    vc ps qm position :
  is_spotify_url url = true ->
  calm env ->
  Spotify.get_songs_from_url service (spotify_cache cog) url (env_clock env)
    (world cog) = (Returned songs, c, w) ->
  Spotify.deref w songs = first_song :: rest ->
  rest = [] \/ env_voice_client env = false ->
  let cog' := snd (play service is_spotify_url g url env cog) in
  processing_states cog' !! g = Some true
  /\ tasks cog' = tasks cog
  /\ skip (default false (processing_states cog' !! g)) vc ps qm g position
     = (Returned
          {| reply_action := "wait";
             reply_details :=
               "Still processing songs... Please try again in a moment.";
             reply_success := false |}, false, qm).
Proof.
  intros Hurl Hcalm Hget Hderef Hno cog'.
  destruct (play_spotify_songs g url env cog songs c w first_song rest Hurl
              Hcalm Hget Hderef) as (_ & Hflag & _ & _ & _ & _ & Htasks).
  fold cog' in Hflag, Htasks.
  assert (Hg : processing_states cog' !! g = Some true)
    by (rewrite Hflag; apply lookup_insert_eq).
  split; [exact Hg|]. split.
  - rewrite Htasks. destruct Hno as [->| ->]; [apply app_nil_r|].
    destruct rest; apply app_nil_r.
  - rewrite Hg. reflexivity.
Qed.

End SpotifyFacts.

Lemma spotify_replay_loses_tracks_witness :
  let cog1 :=
    snd (Playback.play SpotifySamples.album SpotifySamples.any_url
           Samples.guild SpotifySamples.album_url (SpotifySamples.quiet 0)
           SpotifySamples.fresh) in
  Playback.played
    (snd (Playback.play SpotifySamples.album SpotifySamples.any_url
            Samples.guild SpotifySamples.album_url (SpotifySamples.quiet 60)
            cog1))
  = Playback.played cog1 ++ ["two artist official audio"].
Proof.
  intros cog1.
  apply (spotify_replay_loses_tracks SpotifySamples.album
           SpotifySamples.any_url Samples.guild SpotifySamples.album_url
           (SpotifySamples.quiet 0) (SpotifySamples.quiet 60)
           SpotifySamples.fresh 0 (SpotifySamples.track "one")
           [SpotifySamples.track "two"]).
  - reflexivity.
  - apply init_inv. lia.
  - intros k e Hin. simpl in Hin. by apply elem_of_nil in Hin.
  - simpl. lia.
  - reflexivity.
  - reflexivity.
  - reflexivity.
  - repeat split.
  - repeat split.
  - simpl. lia.
Defined.

Lemma spotify_flag_stays_raised_witness :
  Playback.processing_states
    (snd (Playback.play SpotifySamples.single SpotifySamples.any_url
            Samples.guild SpotifySamples.album_url (SpotifySamples.quiet 0)
            SpotifySamples.fresh))
    !! Samples.guild
  = Some true.
Proof.
  refine (proj1 (spotify_flag_stays_raised SpotifySamples.single
                   SpotifySamples.any_url Samples.guild
                   SpotifySamples.album_url (SpotifySamples.quiet 0)
                   SpotifySamples.fresh 0%nat _ _
                   (SpotifySamples.track "one") [] None
                   PlayerSamples.connected Queue.init None
                   eq_refl _ eq_refl eq_refl (or_introl eq_refl))).
  repeat split.
Defined.

(** ** Playing while something plays: the announced position *)

Section PlaySongFacts.
Import Queue Voice.

(** X27. A song asked for while the guild is playing or paused.  The
    followup announces it as added to the queue at position [n + 1], [n]
    being the length of the queue.  Below the cap the song is indeed
    there, last in the queue.  With the queue at its cap of 500 the
    announcement is the same, position 501, but [add_song] has refused the
    song and the queue is as it was. *)
Theorem play_song_queue_position i query env s vc info :
  let g := i_guild_id i in
  let q := queue_of (song_queue s) g in
  let n := Z.of_nat (length q) in
  max_queue_size (song_queue s) = 500 ->
  Player.voice_clients (player_state s) !! g = Some vc ->
  ps_is_connected env = true ->
  ps_rate_limit env = Returned tt ->
  ps_extract env = Returned info ->
  ps_create_player env = Returned tt ->
  ps_busy env = true ->
  ps_send env = Returned tt ->
  let r := play_song i query env s in
  fst r = Returned (Some (SongEmbed false (Some (n + 1)) info (i_user i)))
  /\ (n < 500 ->
        queue_of (song_queue (snd r)) g
        = q ++ [ {| song_info := info; requester := i_user i |} ]
        /\ queue_of (song_queue (snd r)) g !! Z.to_nat n
           = Some {| song_info := info; requester := i_user i |})
  /\ (500 <= n -> queue_of (song_queue (snd r)) g = q)
  /\ Player.get_song (player_state (snd r)) g
     = Player.get_song (player_state s) g.
Proof.
  intros g q n Hcap Hvc Hconn Hrate Hext Hcp Hbusy Hsend r. subst r.
  unfold play_song, try_except_Exception, bind, gets, lift, with_vm, modify,
    perform, ret, on_queue.
  rewrite Hrate. cbn [vm player_state song_queue trace]. fold g.
  rewrite Hvc, Hconn. cbn [vm player_state song_queue trace].
  rewrite Hext. cbn [vm player_state song_queue trace].
  rewrite Hcp, Hbusy. cbn [vm player_state song_queue trace].
  unfold get_queue_length, getitem. cbn [fst snd]. fold q n.
  cbn [vm player_state song_queue trace].
  destruct (Z.lt_ge_cases n 500) as [Hlt|Hge].
  - destruct (add_song_below_cap (set_queue (song_queue s) g q) g info
                (i_user i)) as (qm' & Hadd & Hq' & _).
    { exact Hcap. }
    { rewrite queue_of_set_queue. fold q. lia. }
    rewrite Hadd. cbn [vm player_state song_queue trace]. rewrite Hsend.
    cbn [fst snd song_queue player_state].
    rewrite queue_of_set_queue in Hq'.
    split; [reflexivity|]. split; [|split; [lia | reflexivity]].
    intros _. split; [exact Hq'|].
    rewrite Hq'. subst n. rewrite Nat2Z.id.
    rewrite lookup_app_r by lia. by rewrite Nat.sub_diag.
  - assert (Hfull : add_song (set_queue (song_queue s) g q) g info (i_user i)
                    = (false, set_queue (set_queue (song_queue s) g q) g q)).
    { unfold add_song, getitem. rewrite queue_of_set_queue. fold q.
      cbn [max_queue_size set_queue]. rewrite Hcap.
      destruct (Z.leb_spec 500 (Z.of_nat (length q))); [reflexivity | lia]. }
    rewrite Hfull. cbn [vm player_state song_queue trace]. rewrite Hsend.
    cbn [fst snd song_queue player_state].
    split; [reflexivity|]. split; [lia|]. split; [|reflexivity].
    intros _. apply queue_of_set_queue.
Qed.

End PlaySongFacts.

Lemma play_song_queue_position_witness :
  fst (Voice.play_song VoiceSamples.request "song" VoiceSamples.busy
         VoiceSamples.full)
  = Returned (Some (Voice.SongEmbed false (Some 501) (Samples.song 180)
                      Samples.alice)).
Proof.
  apply (play_song_queue_position VoiceSamples.request "song"
           VoiceSamples.busy VoiceSamples.full PlayerSamples.handle
           (Samples.song 180));
    reflexivity.
Defined.

(** ** The background task of a Spotify link *)

Section BackgroundFacts.
Import Queue Playback.

Lemma add_songs_app l1 : forall l2 qm g,
  snd (add_songs qm g (l1 ++ l2))
  = snd (add_songs (snd (add_songs qm g l1)) g l2).
Proof.
  induction l1 as [|[info who] l1 IH]; intros l2 qm g; [reflexivity|].
  cbn [app add_songs].
  destruct (add_song qm g info who) as [ok qm1].
  specialize (IH l2 qm1 g).
  destruct (add_songs qm1 g (l1 ++ l2)) as [oks qm2].
  destruct (add_songs qm1 g l1) as [oks1 qm3].
  exact IH.
Qed.

Lemma extracted_app a : forall b turns user,
  extracted (a + b) turns user
  = extracted a turns user ++ extracted b (fun i => turns (a + i)%nat) user.
Proof.
  induction a as [|a IH]; intros b turns user; [reflexivity|].
  cbn [Nat.add extracted]. rewrite IH. by rewrite (assoc_L (++)).
Qed.

Lemma process_batch_spec g user batch : forall turns qm,
  (forall i, (i < length batch)%nat ->
     not_cancelled (turn_yield (turns i))
     /\ not_cancelled (turn_extract (turns i))) ->
  process_batch g user batch turns qm
  = (Returned tt,
     snd (add_songs qm g (extracted (length batch) turns user))).
Proof.
  induction batch as [|song rest IH]; intros turns qm Hok; [reflexivity|].
  cbn [process_batch length extracted].
  destruct (Hok 0%nat ltac:(simpl; lia)) as [Hy He].
  assert (Hrest : forall i, (i < length rest)%nat ->
            not_cancelled (turn_yield (turns (S i)))
            /\ not_cancelled (turn_extract (turns (S i)))).
  { intros i Hi. apply Hok. simpl. lia. }
  destruct (turn_yield (turns 0%nat)) as [[]|[what|]];
    [|cbn [swallow isinstance_Exception];
      rewrite (IH _ _ Hrest); reflexivity
     |by destruct Hy].
  destruct (turn_extract (turns 0%nat)) as [info|[what|]];
    [|cbn [swallow isinstance_Exception];
      rewrite (IH _ _ Hrest); reflexivity
     |by destruct He].
  cbn [swallow]. rewrite (IH _ _ Hrest).
  cbn [app add_songs]. destruct (add_song qm g info user) as [ok qm1].
  cbn [snd].
  by destruct (add_songs qm1 g _).
Qed.

Lemma process_batches_spec g user k fuel : forall songs turns waits qm,
  (1 <= k)%nat ->
  (length songs <= fuel)%nat ->
  (forall i, (i < length songs)%nat ->
     not_cancelled (turn_yield (turns i))
     /\ not_cancelled (turn_extract (turns i))) ->
  (forall j, not_cancelled (waits j)) ->
  process_batches fuel g user k songs turns waits qm
  = (Returned tt,
     snd (add_songs qm g (extracted (length songs) turns user))).
Proof.
  induction fuel as [|fuel IH]; intros songs turns waits qm Hk Hfuel Hok Hw.
  - destruct songs; [reflexivity | simpl in Hfuel; lia].
  - destruct songs as [|song rest]; [reflexivity|].
    cbn [process_batches].
    set (songs := song :: rest) in *.
    rewrite process_batch_spec.
    2:{ intros i Hi. apply Hok. rewrite length_take in Hi. lia. }
    assert (Hwait : swallow
                      (if (k <? length songs)%nat then waits 0%nat
                       else Returned tt) = Returned tt).
    { destruct (k <? length songs)%nat; [|reflexivity].
      specialize (Hw 0%nat). destruct (waits 0%nat) as [[]|[what|]];
        [reflexivity | reflexivity | by destruct Hw]. }
    rewrite Hwait.
    rewrite IH; [| exact Hk | | | ].
    + f_equal. rewrite <- add_songs_app. f_equal. f_equal.
      rewrite <- (take_drop k songs) at 3. rewrite length_app.
      rewrite extracted_app. f_equal.
      destruct (decide (k <= length songs)%nat) as [Hle|Hgt].
      * rewrite length_take, Nat.min_l by lia. reflexivity.
      * rewrite (drop_ge songs k) by lia. reflexivity.
    + rewrite length_drop. subst songs. simpl in *. lia.
    + intros i Hi. rewrite length_drop in Hi. apply Hok. lia.
    + intros j. apply Hw.
Qed.

(** X28. The background task.  Whatever happens, the task lowers the
    guild's flag when it ends.  When nothing is cancelled, it ends
    normally and the queue manager is the one got by adding, in the order
    of the list, the songs whose turn went through: a track whose
    extraction fails is left out without a word; and with room for them in
    a queue capped at 500, these songs are at the end of the guild's queue
    in that order. *)
Theorem background_task_outcome g songs user k turns waits flags qm :
  let r := _process_spotify_songs g songs user k turns waits flags qm in
  let added := extracted (length songs) turns user in
  snd (fst r) !! g = Some false
  /\ ((1 <= k)%nat ->
      (forall i, (i < length songs)%nat ->
         not_cancelled (turn_yield (turns i))
         /\ not_cancelled (turn_extract (turns i))) ->
      (forall j, not_cancelled (waits j)) ->
      fst (fst r) = Returned tt
      /\ snd r = snd (add_songs qm g added)
      /\ (max_queue_size qm = 500 ->
          (length (queue_of qm g) + length added <= 500)%nat ->
          queue_of (snd r) g = queue_of qm g ++ (as_entry <$> added)))
  /\ (k = 0%nat -> fst (fst r) = Returned tt /\ snd r = qm).
Proof.
  intros r added. subst r. unfold _process_spotify_songs.
  split; [|split].
  - destruct k; [|destruct (process_batches _ _ _ _ _ _ _ _)];
      cbn [fst snd]; apply lookup_insert_eq.
  - intros Hk Hok Hw. destruct k as [|k']; [lia|].
    rewrite (process_batches_spec g user (S k') (length songs) songs turns
               waits qm Hk (le_n _) Hok Hw).
    cbn [fst snd swallow]. fold added.
    split; [reflexivity|]. split; [reflexivity|].
    intros Hcap Hroom.
    destruct (add_songs_below_cap added qm g Hcap Hroom)
      as (qm' & Hadd & Hq & _).
    rewrite Hadd. exact Hq.
  - intros ->. cbn [fst snd swallow isinstance_Exception]. by split.
Qed.

End BackgroundFacts.

(** ** Stopping *)

Section StopFacts.
Import Queue Voice.

(** X29. After [stop].  With the guild connected, [stop] empties the
    guild's queue and forgets the current song before it replies.  The
    song-end handler that stopping the transport brings about therefore
    finds nothing: it starts no song, makes no call, asks for no further
    run, and puts nothing on record, so that a song that was stopped does
    not appear among the recent songs. *)
Theorem stop_leaves_nothing vc ps qm g :
  let r := Commands.stop (Some vc) ps qm g in
  let ps' := snd (fst r) in
  let qm' := snd r in
  snd (fst (fst r)) = Commands.is_playing vc || Commands.is_paused vc
  /\ queue_of qm' g = []
  /\ Player.get_song ps' g = None
  /\ Player.voice_clients ps' = Player.voice_clients ps
  /\ (forall g', g' <> g -> queue_of qm' g' = queue_of qm g')
  /\ forall s env,
       song_queue s = qm' -> player_state s = ps' ->
       let h := _handle_song_end g false env s in
       fst h = Returned false
       /\ vm (snd h) = vm s
       /\ trace (snd h) = trace s
       /\ Player.get_song (player_state (snd h)) g = None
       /\ queue_of (song_queue (snd h)) g = [].
Proof.
  intros r ps' qm'. subst r ps' qm'. unfold Commands.stop.
  unfold get_queue_length, clear_queue, getitem. cbn [fst snd].
  assert (Hcur : Player.get_song (Player.clear_song ps g) g = None).
  { unfold Player.get_song. simpl. apply lookup_delete_eq. }
  split; [reflexivity|]. split; [apply queue_of_set_queue|].
  split; [exact Hcur|]. split; [reflexivity|]. split.
  { intros g' Hne. by rewrite !queue_of_set_queue_ne. }
  intros s env Hqm Hps.
  assert (Hq : queue_of (song_queue s) g = [])
    by (rewrite Hqm; apply queue_of_set_queue).
  destruct (pop_song_nil _ _ Hq) as (qm1 & Hpop & Hsame).
  unfold _handle_song_end, bind, gets, with_vm, with_player, modify, perform,
    ret, pop_next, try_except_Exception, lift.
  cbn [vm player_state song_queue trace]. rewrite Hpop.
  cbn [vm player_state song_queue trace fst snd].
  rewrite Hps, Hcur. cbn [remember].
  split; [reflexivity|]. split; [reflexivity|]. split; [reflexivity|].
  split.
  - unfold Player.get_song. simpl. apply lookup_delete_eq.
  - by rewrite Hsame.
Qed.

End StopFacts.
